(** * meshmode: opposite-face / partition connections and the L2 projection

    A shallow embedding of
    [meshmode/discretization/connection/opposite_face.py] and
    [meshmode/discretization/connection/projection.py].

    numpy arrays are nested lists (axis 0 outermost); integer index arrays
    are lists of [Z] (numpy's negative indices wrap around); Python
    exceptions and the one loop that may spin forever are outcomes of an
    error monad.  Floating-point scalars are an interface ([Dtype]) so that
    every statement holds for any dtype; IEEE binary64 (numpy's float64) is
    one instance, built on the kernel's primitive floats. *)

From Stdlib Require Import ZArith Lia.
From Stdlib Require Floats.PrimFloat Numbers.Cyclic.Int63.Uint63.
From Stdlib Require Strings.String Strings.Ascii.
From stdpp Require Import base option list sorting.

Set Default Proof Using "Type".
Set Warnings "-clear-no-such-hyp,-register-all,-inexact-float".


(** ** Exceptions and outcomes *)

(** What a [RuntimeError] of these modules says. *)
Inductive RuntimeMsg (F : Type) : Type :=
  | DidNotConverge (residual : F)   (* "Gauss-Newton ... did not converge (residual: %g)" *)
  | CannotTransportFaceToElement    (* "cannot transport from face to element" *)
  | ToDiscrNotOrthonormal.          (* "`to_discr` must have an orthonormal basis" *)
Arguments DidNotConverge {F} residual.
Arguments CannotTransportFaceToElement {F}.
Arguments ToDiscrNotOrthonormal {F}.

Inductive Exn (F : Type) : Type :=
  | AssertionError
  | ValueError
  | IndexError
  | TypeError
  | LinAlgError
  | RuntimeError (msg : RuntimeMsg F).
Arguments AssertionError {F}.
Arguments ValueError {F}.
Arguments IndexError {F}.
Arguments TypeError {F}.
Arguments LinAlgError {F}.
Arguments RuntimeError {F} msg.

(** [Hang] is a loop that never leaves its state (no value is ever
    returned to the caller). *)
Inductive Outcome (F A : Type) : Type :=
  | Ok (a : A)
  | Raise (e : Exn F)
  | Hang.
Arguments Ok {F A} a.
Arguments Raise {F A} e.
Arguments Hang {F A}.

Global Instance Outcome_ret {F} : MRet (Outcome F) := λ A a, Ok a.
Global Instance Outcome_bind {F} : MBind (Outcome F) := λ A B f m,
  match m with
  | Ok a => f a
  | Raise e => Raise e
  | Hang => Hang
  end.
Global Instance Outcome_fmap {F} : FMap (Outcome F) := λ A B f m,
  match m with
  | Ok a => Ok (f a)
  | Raise e => Raise e
  | Hang => Hang
  end.

(** [assert cond] *)
Definition py_assert {F} (cond : bool) : Outcome F unit :=
  if cond then Ok () else Raise AssertionError.

(** ** The scalar interface (a numpy floating-point dtype) *)

Class Dtype (F : Type) : Type := {
  fzero : F;
  fone : F;
  f1e4 : F;                    (* the literal 1e4 *)
  feps : F;                    (* np.finfo(dtype).eps *)
  fadd : F → F → F;
  fsub : F → F → F;
  fmul : F → F → F;
  fdiv : F → F → F;
  fopp : F → F;
  fabs : F → F;
  fsqrt : F → F;
  fmax : F → F → F;            (* np.maximum, nan-propagating *)
  flt : F → F → bool;          (* a < b *)
  fof_nat : nat → F;           (* conversion of a count *)
}.

Global Instance Dtype_inhabited `{Dtype F} : Inhabited F := populate fzero.

(** [numpy.linalg] routines the builders call; [None] is a [LinAlgError]. *)
Class Linalg (F : Type) : Type := {
  la_inv : list (list F) → option (list (list F));
  (* the solution [x] of [la.lstsq(a, b)] *)
  la_lstsq : list (list F) → list F → option (list F);
}.

(** IEEE binary64, numpy's [float64]. *)
Module Float64.
Import PrimFloat.

Definition maximum (a b : float) : float :=
  if is_nan a then a else if is_nan b then b else if ltb a b then b else a.

#[export] Instance float64 : Dtype float := {|
  fzero := 0%float;
  fone := 1%float;
  f1e4 := 10000%float;
  feps := 0x1p-52%float;
  fadd := add;
  fsub := sub;
  fmul := mul;
  fdiv := div;
  fopp := opp;
  fabs := abs;
  fsqrt := sqrt;
  fmax := maximum;
  flt := ltb;
  fof_nat := λ n, of_uint63 (Uint63.of_Z (Z.of_nat n));
|}.

(** Inverses of 1x1 and 2x2 matrices by the adjugate; enough to run the
    examples below, where it is exact.  Larger systems are not provided. *)
Definition inv_small (m : list (list float)) : option (list (list float)) :=
  match m with
  | [[a]] => Some [[div 1 a]]
  | [[a; b]; [c; d]] =>
      let det := sub (mul a d) (mul b c) in
      Some [[div d det; div (opp b) det]; [div (opp c) det; div a det]]
  | _ => None
  end.

#[export] Instance linalg64 : Linalg float := {|
  la_inv := inv_small;
  la_lstsq := λ _ _, None;
|}.
End Float64.

(** ** Small numpy vocabulary on nested lists *)

Section numpy.
Context {A : Type}.

(** [[f(i) for i in range(n)]] *)
Definition tabulate {B} (n : nat) (f : nat → B) : list B := f <$> seq 0 n.

(** A Python / numpy subscript [l[i]]: negative [i] counts from the end. *)
Definition getitem {F} (l : list A) (i : Z) : Outcome F A :=
  let n := Z.of_nat (length l) in
  let j := if (i <? 0)%Z then (i + n)%Z else i in
  if ((0 <=? j)%Z && (j <? n)%Z)%bool
  then match l !! Z.to_nat j with Some x => Ok x | None => Raise IndexError end
  else Raise IndexError.

(** Subscript with a non-negative machine index. *)
Definition getnat {F} (l : list A) (i : nat) : Outcome F A :=
  match l !! i with Some x => Ok x | None => Raise IndexError end.

(** Fancy indexing [l[idx]] with an integer index array. *)
Definition take_idx {F} (l : list A) (idx : list Z) : Outcome F (list A) :=
  mapM (getitem l) idx.

Definition shape2 (a : list (list A)) : nat * nat :=
  (length a, length (default [] (head a))).

Definition shape3 (a : list (list (list A))) : nat * nat * nat :=
  (length a, length (default [] (head a)),
   length (default [] (head (default [] (head a))))).

Definition flatten3 (a : list (list (list A))) : list A := concat (concat a).

(** [flat.reshape(n, m)], rows of length [m] in row-major order. *)
Definition chunk (n m : nat) (flat : list A) : list (list A) :=
  tabulate n (λ i, take m (drop (i * m) flat)).

Definition reshape2 {F} (n m : nat) (flat : list A) : Outcome F (list (list A)) :=
  if decide (length flat = n * m) then Ok (chunk n m flat) else Raise ValueError.

(** [flat.reshape(a, n, m)] *)
Definition chunk3 (a n m : nat) (flat : list A) : list (list (list A)) :=
  chunk n m <$> chunk a (n * m) flat.

(** Rectangular arrays. *)
Definition has_shape2 (n m : nat) (a : list (list A)) : Prop :=
  length a = n ∧ Forall (λ row, length row = m) a.

Definition has_shape3 (d n m : nat) (a : list (list (list A))) : Prop :=
  length a = d ∧ Forall (has_shape2 n m) a.
End numpy.

(** Positions of the [True] entries of a boolean row, in increasing order
    ([np.where] on one row). *)
Fixpoint where_from (i : nat) (row : list bool) : list nat :=
  match row with
  | [] => []
  | b :: row' => if b then i :: where_from (S i) row' else where_from (S i) row'
  end.
Definition np_where (row : list bool) : list nat := where_from 0 row.

(** [np.sum(row.astype(np.int32))] *)
Definition count_true (row : list bool) : nat := length (filter (λ b, b = true) row).

Section scalar_ops.
Context {F : Type} `{Dtype F}.

(** [np.sum] along one axis (a left-to-right reduction). *)
Definition np_sum (v : list F) : F :=
  match v with
  | [] => fzero
  | x :: v' => foldl fadd x v'
  end.

(** [np.max] of a flattened array; numpy refuses an empty one. *)
Definition np_max (v : list F) : Outcome F F :=
  match v with
  | [] => Raise ValueError
  | x :: v' => Ok (foldl fmax x v')
  end.

(** [la.norm(v, axis=0, ord=2)] at one position: [sqrt(sum(v*v))]. *)
Definition la_norm (v : list F) : F :=
  fsqrt (np_sum ((λ x, fmul x x) <$> v)).

(** The coordinates of node [t] of element [e] in an array of shape
    (ambient_dim, nelements, nnodes). *)
Definition node_at (a : list (list (list F))) (e t : nat) : list F :=
  (λ plane : list (list F), (plane !!! e) !!! t) <$> a.
End scalar_ops.

(** ** The data model *)

Section data_model.
Context {F : Type}.

(** [InterpolationBatch] (a record of keyword fields; the builders pass
    [result_unit_nodes] as a (dim, n_target_nodes) array). *)
Record InterpolationBatch : Type := {
  from_group_index : nat;
  from_element_indices : list Z;
  to_element_indices : list Z;
  result_unit_nodes : list (list F);
  to_element_face : option nat;
}.

(** A discretization element group, as far as the builders look at it. *)
Record ElementGroup : Type := {
  grp_dim : nat;
  grp_nelements : nat;
  unit_nodes : list (list F);                  (* (dim, nunit_dofs) *)
  basis_functions : list (list F → F);          (* basis_obj().functions *)
  basis_gradients : list (list F → list F);     (* basis_obj().gradients *)
  is_orthonormal_basis : bool;
  is_interpolatory : bool;   (* isinstance(grp, InterpolatoryElementGroupBase) *)
}.

Record MeshGroup : Type := {
  vertex_unit_coordinates : list (list F);     (* (nvertices, dim) *)
  nfaces : nat;
  mgrp_nelements : nat;
}.

(** Modelled from the spec: [AffineMap] of [meshmode.mesh.tools] is not part
    of the sources at hand.  The spec describes it as a linear map plus a
    translation applied to a batch of point coordinates; either part may be
    absent, and [AffineMap()] has neither. *)
Record AffineMap : Type := {
  aff_matrix : option (list (list F));
  aff_offset : option (list F);
}.
Definition AffineMap_default : AffineMap :=
  {| aff_matrix := None; aff_offset := None |}.

(** [InteriorAdjacencyGroup]; the other kinds of facial adjacency only
    matter by not being interior. *)
Record InteriorAdjacencyGroup : Type := {
  ineighbor_group : nat;
  elements : list Z;
  element_faces : list Z;
  neighbors : list Z;
  neighbor_faces : list Z;
  aff_map : option AffineMap;
}.

Inductive FacialAdjacencyGroup : Type :=
  | Interior (adj : InteriorAdjacencyGroup)
  | NonInterior.

Record Mesh : Type := {
  mesh_groups : list MeshGroup;
  facial_adjacency_groups : list (list FacialAdjacencyGroup);
  base_element_nrs : list Z;
}.

Record Discretization : Type := {
  discr_dim : nat;
  discr_groups : list ElementGroup;
  (* nodes(): one array per ambient axis, each indexed [group][element][node] *)
  discr_nodes : list (list (list (list F)));
  discr_mesh : Mesh;
}.

Record DiscretizationConnectionElementGroup : Type := {
  batches : list InterpolationBatch;
}.

(** [DirectDiscretizationConnection], the record the builders assemble. *)
Record DirectDiscretizationConnection : Type := {
  from_discr : Discretization;
  to_discr : Discretization;
  groups : list DiscretizationConnectionElementGroup;
  is_surjective : bool;
}.

(** [InterPartAdjacencyGroup] as a remote part describes it. *)
Record InterPartAdjacencyGroup : Type := {
  ipag_igroup : nat;
  ipag_elements : list Z;
  ipag_element_faces : list Z;
  ipag_neighbors : list Z;
  ipag_neighbor_faces : list Z;
  ipag_aff_map : option AffineMap;
}.

(** [meshmode.distributed.RemoteGroupInfo] *)
Record RemoteGroupInfo : Type := {
  inter_part_adj_groups : list InterPartAdjacencyGroup;
  vol_elem_indices : list Z;
  bdry_elem_indices : list Z;
  bdry_faces : list Z;
}.
End data_model.
Arguments InterpolationBatch F : clear implicits.
Arguments ElementGroup F : clear implicits.
Arguments MeshGroup F : clear implicits.
Arguments AffineMap F : clear implicits.
Arguments InteriorAdjacencyGroup F : clear implicits.
Arguments FacialAdjacencyGroup F : clear implicits.
Arguments Mesh F : clear implicits.
Arguments Discretization F : clear implicits.
Arguments DiscretizationConnectionElementGroup F : clear implicits.
Arguments DirectDiscretizationConnection F : clear implicits.
Arguments InterPartAdjacencyGroup F : clear implicits.
Arguments RemoteGroupInfo F : clear implicits.

(** ** [_find_src_unit_nodes_by_matching] *)

Section matching.
Context {F : Type} `{Dtype F}.

(** One entry of [la.norm(dist_vecs, axis=0, ord=2) < tol]. *)
Definition is_close_at (tgt src : list (list (list F))) (tol : F)
    (e t s : nat) : bool :=
  flt (la_norm (zip_with fsub (node_at tgt e t) (node_at src e s))) tol.

Definition _find_src_unit_nodes_by_matching
    (tgt_bdry_nodes src_bdry_nodes : list (list (list F)))
    (src_grp : ElementGroup F) (tol : F)
    : Outcome F (option (list (list (list F)))) :=
  let '(ambient_dim, nelements, ntgt_unit_nodes) := shape3 tgt_bdry_nodes in
  (* the two reshapes with one inferred axis *)
  let known := ambient_dim * nelements in
  let src_size := length (flatten3 src_bdry_nodes) in
  if decide (known = 0 ∨ src_size `mod` known ≠ 0) then Raise ValueError else
  let nsrc := src_size `div` known in
  let src : list (list (list F)) :=
    chunk3 ambient_dim nelements nsrc (flatten3 src_bdry_nodes) in
  (* shape: (nelements, num_tgt_nodes, num_source_nodes) *)
  let is_close : list (list (list bool)) :=
    tabulate nelements (λ e, tabulate ntgt_unit_nodes (λ t,
      tabulate nsrc (λ s, is_close_at tgt_bdry_nodes src tol e t s))) in
  let num_close_vertices : list (list nat) :=
    fmap (M:=list) (fmap (M:=list) count_true) is_close in
  if negb (forallb (forallb (λ c, c =? 1)) num_close_vertices) then Ok None else
  (* Success: it's just a permutation *)
  source_indices ← reshape2 nelements ntgt_unit_nodes
                      (concat (fmap (M:=list) np_where (concat is_close)));
  (* check *)
  let matched_src_bdry_nodes : list (list (list F)) :=
    fmap (M:=list) (λ plane : list (list F),
       imap (λ e (row : list nat),
               fmap (M:=list) (λ s, (plane !!! e) !!! s) row)
            source_indices) src in
  let is_close' : list (list bool) :=
    tabulate nelements (λ e, tabulate ntgt_unit_nodes (λ t,
      flt (la_norm (zip_with fsub (node_at tgt_bdry_nodes e t)
                                  (node_at matched_src_bdry_nodes e t))) tol)) in
  _ ← py_assert (forallb (forallb id) is_close');
  r ← mapM (λ urow : list F, mapM (mapM (getnat urow)) source_indices)
           (unit_nodes src_grp);
  Ok (Some r).

(** Target node [t] of element [e] has exactly one source node of the
    element within [tol], among [nsrc] source nodes. *)
Definition has_unique_close (tgt src : list (list (list F))) (tol : F)
    (nsrc e t : nat) : Prop :=
  ∃ s, s < nsrc ∧ is_close_at tgt src tol e t s = true
       ∧ ∀ s', s' < nsrc → is_close_at tgt src tol e t s' = true → s' = s.

(** The first source node within [tol] of target node [t] of element [e]. *)
Definition matched_index (tgt src : list (list (list F))) (tol : F)
    (nsrc e t : nat) : nat :=
  default 0 (head (np_where (tabulate nsrc (is_close_at tgt src tol e t)))).

(** [unit_nodes[:, index]] for an index array of shape (nelements, nnodes). *)
Definition reindexed (unit_nodes : list (list F)) (index : nat → nat → nat)
    (nelements nnodes : nat) : list (list (list F)) :=
  (λ urow : list F,
     tabulate nelements (λ e, tabulate nnodes (λ t, urow !!! index e t)))
  <$> unit_nodes.
End matching.

(** ** [_find_src_unit_nodes_via_gauss_newton] *)

Section gauss_newton.
Context {F : Type} `{Dtype F} `{Linalg F}.

Local Abbreviation T3 := (list (list (list F))).

Definition zip_with3 (f : F → F → F) (a b : T3) : T3 :=
  zip_with (zip_with (zip_with f)) a b.

(** [einsum] contraction over one index of extent [n]. *)
Definition esum (n : nat) (term : nat → F) : F := np_sum (tabulate n term).

(** The point (length [dim]) at position [(e, t)] of [unit_nodes]. *)
Definition unit_point (dim : nat) (u : T3) (e t : nat) : list F :=
  tabulate dim (λ r, ((u !!! r) !!! e) !!! t).

(** [mp.vandermonde(functions, nodes)]: [vdm[i][j] = functions[j](nodes[:, i])]. *)
Definition vandermonde (functions : list (list F → F)) (nodes : list (list F))
    : list (list F) :=
  tabulate (shape2 nodes).2 (λ i,
    fmap (M:=list) (λ f : list F → F,
      f (fmap (M:=list) (λ row : list F, row !!! i) nodes)) functions).

Definition transpose (m : list (list F)) : list (list F) :=
  tabulate (shape2 m).2 (λ j, fmap (M:=list) (λ row : list F, row !!! j) m).

Section with_inputs.
Variables (tgt_bdry_nodes src_bdry_nodes : T3).
Variables (src_grp : ElementGroup F) (src_mesh_grp : MeshGroup F).
Variable tol : F.
Variable inv_t_vdm : list (list F).

Let dim := grp_dim src_grp.
Let nelements := (shape3 tgt_bdry_nodes).1.2.
Let ntgt_unit_nodes := (shape3 tgt_bdry_nodes).2.
Let src_grp_basis_fcts := basis_functions src_grp.
Let nsrc_funcs := length src_grp_basis_fcts.

(** [np.einsum("fj,jet->fet", inv_t_vdm, basis_at_unit_nodes)] *)
Definition intp_coeffs_of (unit_nodes : T3) : T3 :=
  let basis_at_unit_nodes : T3 :=
    fmap (M:=list) (λ f : list F → F,
      tabulate nelements (λ e, tabulate ntgt_unit_nodes (λ t,
        f (unit_point dim unit_nodes e t)))) src_grp_basis_fcts in
  tabulate (length inv_t_vdm) (λ f,
    tabulate nelements (λ e, tabulate ntgt_unit_nodes (λ t,
      esum nsrc_funcs (λ j,
        fmul ((inv_t_vdm !!! f) !!! j)
             (((basis_at_unit_nodes !!! j) !!! e) !!! t))))).

(** [np.abs(np.sum(intp_coeffs, axis=0) - 1)] at node [t] of element [e] *)
Definition one_deviation_at (intp_coeffs : T3) (e t : nat) : F :=
  fabs (fsub (np_sum (fmap (M:=list)
                (λ c : list (list F), (c !!! e) !!! t) intp_coeffs))
             fone).

Definition one_deviation_of (intp_coeffs : T3) : list (list F) :=
  tabulate nelements (λ e, tabulate ntgt_unit_nodes (λ t,
    one_deviation_at intp_coeffs e t)).

Definition apply_map (unit_nodes : T3) : Outcome F T3 :=
  (* unit_nodes.reshape(dim, -1) *)
  if decide (dim = 0) then Raise ValueError else
  let intp_coeffs := intp_coeffs_of unit_nodes in
  (* If we're interpolating 1, we had better get 1 back. *)
  let one_deviation := one_deviation_of intp_coeffs in
  _ ← py_assert (forallb (forallb (λ d, flt d tol)) one_deviation);
  let mapped : T3 :=
    tabulate (length src_bdry_nodes) (λ a,
      tabulate nelements (λ e, tabulate ntgt_unit_nodes (λ t,
        esum (length intp_coeffs) (λ f,
          fmul (((intp_coeffs !!! f) !!! e) !!! t)
               (((src_bdry_nodes !!! a) !!! e) !!! f))))) in
  _ ← py_assert (bool_decide
         (shape3 tgt_bdry_nodes
          = (length src_bdry_nodes, nelements, ntgt_unit_nodes)));
  Ok mapped.

(** Indexed [r][a][e][t]. *)
Definition get_map_jacobian (unit_nodes : T3) : list T3 :=
  let dbasis_at_unit_nodes : list T3 :=
    tabulate dim (λ r,
      fmap (M:=list) (λ df : list F → list F,
        tabulate nelements (λ e, tabulate ntgt_unit_nodes (λ t,
          df (unit_point dim unit_nodes e t) !!! r)))
        (basis_gradients src_grp)) in
  let dintp_coeffs : list T3 :=
    tabulate dim (λ r,
      tabulate (length inv_t_vdm) (λ f,
        tabulate nelements (λ e, tabulate ntgt_unit_nodes (λ t,
          esum nsrc_funcs (λ j,
            fmul ((inv_t_vdm !!! f) !!! j)
                 ((((dbasis_at_unit_nodes !!! r) !!! j) !!! e) !!! t)))))) in
  tabulate dim (λ r,
    tabulate (length src_bdry_nodes) (λ a,
      tabulate nelements (λ e, tabulate ntgt_unit_nodes (λ t,
        esum (length inv_t_vdm) (λ f,
          fmul ((((dintp_coeffs !!! r) !!! f) !!! e) !!! t)
               (((src_bdry_nodes !!! a) !!! e) !!! f)))))).

(** [np.einsum("ikes,jkes->ijes", df, df)] at [(i, j, e, s)] *)
Definition ata_at (df : list T3) (i j e s : nat) : F :=
  esum (length src_bdry_nodes) (λ k,
    fmul ((((df !!! i) !!! k) !!! e) !!! s)
         ((((df !!! j) !!! k) !!! e) !!! s)).

(** [np.einsum("ikes,kes->ies", df, resid)] at [(i, e, s)] *)
Definition atb_at (df : list T3) (resid : T3) (i e s : nat) : F :=
  esum (length src_bdry_nodes) (λ k,
    fmul ((((df !!! i) !!! k) !!! e) !!! s)
         (((resid !!! k) !!! e) !!! s)).

(** The three branches on [dim] that fill [df_inv_resid]. *)
Definition solve_df_inv_resid (df : list T3) (resid : T3) : Outcome F T3 :=
  match dim with
  | 1 =>
      Ok [tabulate nelements (λ e, tabulate ntgt_unit_nodes (λ s,
            fdiv (atb_at df resid 0 e s) (ata_at df 0 0 e s)))]
  | 2 =>
      let det e s :=
        fsub (fmul (ata_at df 0 0 e s) (ata_at df 1 1 e s))
             (fmul (ata_at df 0 1 e s) (ata_at df 1 0 e s)) in
      Ok [tabulate nelements (λ e, tabulate ntgt_unit_nodes (λ s,
            fmul (fdiv fone (det e s))
                 (fsub (fmul (ata_at df 1 1 e s) (atb_at df resid 0 e s))
                       (fmul (ata_at df 1 0 e s) (atb_at df resid 1 e s)))));
          tabulate nelements (λ e, tabulate ntgt_unit_nodes (λ s,
            fmul (fdiv fone (det e s))
                 (fadd (fmul (fopp (ata_at df 0 1 e s)) (atb_at df resid 0 e s))
                       (fmul (ata_at df 0 0 e s) (atb_at df resid 1 e s)))))]
  | _ =>
      sols ← mapM (λ e, mapM (λ t,
                match la_lstsq
                  (tabulate (length src_bdry_nodes) (λ a,
                     tabulate dim (λ r, (((df !!! r) !!! a) !!! e) !!! t)))
                  (fmap (M:=list) (λ p : list (list F), (p !!! e) !!! t) resid)
                with
                | Some x => Ok x
                | None => Raise LinAlgError
                end) (seq 0 ntgt_unit_nodes)) (seq 0 nelements);
      Ok (tabulate dim (λ r,
            fmap (M:=list) (fmap (M:=list) (λ x : list F, x !!! r)) sols))
  end.

(** One pass through the body of [while True], up to the residual
    test: the residual magnitude and the next iterate. *)
Definition newton_step (src_unit_nodes : T3) : Outcome F (F * T3) :=
  mapped ← apply_map src_unit_nodes;
  let resid := zip_with3 fsub mapped tgt_bdry_nodes in
  let df := get_map_jacobian src_unit_nodes in
  df_inv_resid ← solve_df_inv_resid df resid;
  let src_unit_nodes' := zip_with3 fsub src_unit_nodes df_inv_resid in
  max_resid ← np_max (fabs <$> flatten3 resid);
  Ok (max_resid, src_unit_nodes').

(** The loop; [fuel] bounds the passes and 11 are always enough. *)
Fixpoint newton_loop (fuel niter : nat) (src_unit_nodes : T3) : Outcome F T3 :=
  match fuel with
  | 0 => Hang
  | S fuel' =>
      '(max_resid, src_unit_nodes') ← newton_step src_unit_nodes;
      if flt max_resid tol then Ok src_unit_nodes' else
      let niter' := S niter in
      if 10 <? niter' then Raise (RuntimeError (DidNotConverge max_resid))
      else newton_loop fuel' niter' src_unit_nodes'
  end.

(** The iterate that enters pass [k + 1], when each of the first [k] passes
    ran through and found a residual that is not below [tol]. *)
Fixpoint newton_iterate (k : nat) (src_unit_nodes : T3) : option T3 :=
  match k with
  | 0 => Some src_unit_nodes
  | S k' =>
      match newton_step src_unit_nodes with
      | Ok (max_resid, src_unit_nodes') =>
          if flt max_resid tol then None else newton_iterate k' src_unit_nodes'
      | _ => None
      end
  end.

(** [initial_guess], broadcast to (dim, nelements, ntgt_unit_nodes). *)
Definition initial_src_unit_nodes : Outcome F T3 :=
  let verts := vertex_unit_coordinates src_mesh_grp in
  let initial_guess : list F :=
    tabulate (shape2 verts).2 (λ r,
      fdiv (np_sum (fmap (M:=list) (λ v : list F, v !!! r) verts))
           (fof_nat (length verts))) in
  if decide (length initial_guess = dim ∨ length initial_guess = 1)
  then Ok (tabulate dim (λ r,
             tabulate nelements (λ e, tabulate ntgt_unit_nodes (λ t,
               if decide (length initial_guess = 1) then initial_guess !!! 0
               else initial_guess !!! r))))
  else Raise ValueError.
End with_inputs.

Definition _find_src_unit_nodes_via_gauss_newton
    (tgt_bdry_nodes src_bdry_nodes : T3)
    (src_grp : ElementGroup F) (src_mesh_grp : MeshGroup F) (tol : F)
    : Outcome F T3 :=
  src_unit_nodes ← initial_src_unit_nodes tgt_bdry_nodes src_grp src_mesh_grp;
  let vdm := vandermonde (basis_functions src_grp) (unit_nodes src_grp) in
  match la_inv (transpose vdm) with
  | None => Raise LinAlgError
  | Some inv_t_vdm =>
      newton_loop tgt_bdry_nodes src_bdry_nodes src_grp tol inv_t_vdm
        11 0 src_unit_nodes
  end.
End gauss_newton.

(** ** [_find_src_unit_nodes_batches] *)

Section batches.
Context {F : Type} `{Dtype F}.

Local Abbreviation T3 := (list (list (list F))).

(** [src_unit_nodes[:, el, :]] *)
Definition element_nodes (src_unit_nodes : T3) (el : nat) : list (list F) :=
  fmap (M:=list) (λ plane : list (list F), plane !!! el) src_unit_nodes.

(** [np.max(np.max(np.abs(src_unit_nodes[:, el, :] - template), axis=2), axis=0)]
    for one element [el]. *)
Definition unit_node_dist_of (src_unit_nodes : T3) (template : list (list F))
    (el : nat) : Outcome F F :=
  per_axis ← mapM (λ '(plane, trow),
                 np_max (fabs <$> zip_with fsub (plane !!! el) trow))
              (zip src_unit_nodes template);
  np_max per_axis.

(** [done_elements[close_els] = True] *)
Definition mark_done (done_elements : list bool) (close_els : list nat) : list bool :=
  foldr (λ i d, <[i:=true]> d) done_elements close_els.

Fixpoint batches_loop (src_unit_nodes : T3) (i_src_grp : nat)
    (tgt_bdry_element_indices src_bdry_element_indices : list Z) (tol : F)
    (fuel : nat) (done_elements : list bool)
    : Outcome F (list (InterpolationBatch F)) :=
  match fuel with
  | 0 => Hang
  | S fuel' =>
      let todo_elements := np_where (negb <$> done_elements) in
      match todo_elements with
      | [] => Ok []
      | first :: _ =>
          let template_unit_nodes := element_nodes src_unit_nodes first in
          unit_node_dist ←
            mapM (unit_node_dist_of src_unit_nodes template_unit_nodes)
                 todo_elements;
          let close_els : list nat :=
            fst <$> filter (λ p, flt p.2 tol = true)
                           (zip todo_elements unit_node_dist) in
          let done_elements' := mark_done done_elements close_els in
          from_idx ← mapM (getnat src_bdry_element_indices) close_els;
          to_idx ← mapM (getnat tgt_bdry_element_indices) close_els;
          let batch := {|
            from_group_index := i_src_grp;
            from_element_indices := from_idx;
            to_element_indices := to_idx;
            result_unit_nodes := template_unit_nodes;
            to_element_face := None |} in
          match close_els with
          | [] => Hang   (* nothing was marked: the same pass repeats forever *)
          | _ :: _ =>
              rest ← batches_loop src_unit_nodes i_src_grp
                       tgt_bdry_element_indices src_bdry_element_indices tol
                       fuel' done_elements';
              Ok (batch :: rest)
          end
      end
  end.

(** Every pass that continues marks an element, so [nelements + 1] passes
    are always enough.  An array with no entry along its first axis stands
    for the shape (0, nelements, _) with elements present (the builders pass
    no other): numpy then refuses [template_unit_nodes.reshape(dim, 1, -1)]. *)
Definition _find_src_unit_nodes_batches (src_unit_nodes : T3) (i_src_grp : nat)
    (tgt_bdry_element_indices src_bdry_element_indices : list Z) (tol : F)
    : Outcome F (list (InterpolationBatch F)) :=
  let '(dim, nelements, _) := shape3 src_unit_nodes in
  if decide (dim = 0) then Raise ValueError else
  batches_loop src_unit_nodes i_src_grp
    tgt_bdry_element_indices src_bdry_element_indices tol
    (S nelements) (replicate nelements false).

(** The generator pass by pass: the batches that the first [passes] passes
    of the loop yield, and whether the loop has reached its [return] by
    then.  A pass on which [close_els] is empty marks nothing and yields a
    batch that holds no element; an exception in a pass ends the
    generator with that exception. *)
Fixpoint batches_yielded (src_unit_nodes : T3) (i_src_grp : nat)
    (tgt_bdry_element_indices src_bdry_element_indices : list Z) (tol : F)
    (passes : nat) (done_elements : list bool)
    : Outcome F (list (InterpolationBatch F) * bool) :=
  match passes with
  | 0 => Ok ([], false)
  | S passes' =>
      let todo_elements := np_where (negb <$> done_elements) in
      match todo_elements with
      | [] => Ok ([], true)
      | first :: _ =>
          let template_unit_nodes := element_nodes src_unit_nodes first in
          unit_node_dist ←
            mapM (unit_node_dist_of src_unit_nodes template_unit_nodes)
                 todo_elements;
          let close_els : list nat :=
            fst <$> filter (λ p, flt p.2 tol = true)
                           (zip todo_elements unit_node_dist) in
          let done_elements' := mark_done done_elements close_els in
          from_idx ← mapM (getnat src_bdry_element_indices) close_els;
          to_idx ← mapM (getnat tgt_bdry_element_indices) close_els;
          let batch := {|
            from_group_index := i_src_grp;
            from_element_indices := from_idx;
            to_element_indices := to_idx;
            result_unit_nodes := template_unit_nodes;
            to_element_face := None |} in
          later ← batches_yielded src_unit_nodes i_src_grp
                    tgt_bdry_element_indices src_bdry_element_indices tol
                    passes' done_elements';
          Ok (batch :: later.1, later.2)
      end
  end.

(** The first [passes] passes of [_find_src_unit_nodes_batches] as a
    generator. *)
Definition _find_src_unit_nodes_batches_yielded (src_unit_nodes : T3)
    (i_src_grp : nat)
    (tgt_bdry_element_indices src_bdry_element_indices : list Z) (tol : F)
    (passes : nat) : Outcome F (list (InterpolationBatch F) * bool) :=
  let '(dim, nelements, _) := shape3 src_unit_nodes in
  match passes with
  | 0 => Ok ([], false)
  | S _ =>
      if decide (dim = 0) then Raise ValueError else
      batches_yielded src_unit_nodes i_src_grp
        tgt_bdry_element_indices src_bdry_element_indices tol
        passes (replicate nelements false)
  end.

(** Element [e] is within [tol] of element [e0] in the max-norm that the
    loop computes. *)
Definition close_to (src_unit_nodes : T3) (tol : F) (e0 e : nat) : Prop :=
  ∃ r, unit_node_dist_of src_unit_nodes (element_nodes src_unit_nodes e0) e = Ok r
       ∧ flt r tol = true.

(** Batch [b] carries the elements at the positions [g], with the pattern
    of element [e0] as its template. *)
Definition batch_of_positions (src_unit_nodes : T3) (i_src_grp : nat)
    (tgt_bdry_element_indices src_bdry_element_indices : list Z) (tol : F)
    (e0 : nat) (g : list nat) (b : InterpolationBatch F) : Prop :=
  from_group_index b = i_src_grp
  ∧ to_element_face b = None
  ∧ result_unit_nodes b = element_nodes src_unit_nodes e0
  ∧ mapM (getnat (F:=F) src_bdry_element_indices) g
    = Ok (from_element_indices b)
  ∧ mapM (getnat (F:=F) tgt_bdry_element_indices) g
    = Ok (to_element_indices b)
  ∧ ∀ e, e ∈ g → close_to src_unit_nodes tol e0 e.
End batches.

(** ** [_make_cross_face_batches] *)

Section cross_face.
Context {F : Type} `{Dtype F} `{Linalg F}.

(** Modelled from the spec: calling an [AffineMap] on coordinates of shape
    (ambient_dim, nelements, nnodes) multiplies by the matrix along the
    first axis and adds the offset to every point. *)
Definition AffineMap_call (aff_map : AffineMap F) (vecs : list (list (list F)))
    : list (list (list F)) :=
  let '(_, nelements, nnodes) := shape3 vecs in
  let mapped : list (list (list F)) :=
    match aff_matrix aff_map with
    | Some mat =>
        tabulate (length mat) (λ i,
          tabulate nelements (λ e, tabulate nnodes (λ t,
            esum (length vecs) (λ j,
              fmul ((mat !!! i) !!! j) (((vecs !!! j) !!! e) !!! t)))))
    | None => vecs
    end in
  match aff_offset aff_map with
  | Some off =>
      imap (λ i (plane : list (list F)),
              fmap (M:=list) (fmap (M:=list) (λ x, fadd x (off !!! i))) plane)
           mapped
  | None => mapped
  end.

(** [aff_map(np.array([ary[i_grp][element_indices] for ary in discr.nodes()]))] *)
Definition bdry_nodes_of (discr : Discretization F) (i_grp : nat)
    (element_indices : list Z) (aff_map : option (AffineMap F))
    : Outcome F (list (list (list F))) :=
  nodes ← mapM (λ ary : list (list (list F)),
             grp_ary ← getnat ary i_grp;
             take_idx grp_ary element_indices)
          (discr_nodes discr);
  Ok (AffineMap_call (default AffineMap_default aff_map) nodes).

Definition _make_cross_face_batches
    (tgt_bdry_discr src_bdry_discr : Discretization F)
    (i_tgt_grp i_src_grp : nat)
    (tgt_bdry_element_indices src_bdry_element_indices : list Z)
    (tgt_aff_map src_aff_map : option (AffineMap F))
    : Outcome F (list (InterpolationBatch F)) :=
  if decide (discr_dim tgt_bdry_discr = 0) then
    src_grp ← getnat (discr_groups src_bdry_discr) i_src_grp;
    Ok [ {| from_group_index := i_src_grp;
            from_element_indices := src_bdry_element_indices;
            to_element_indices := tgt_bdry_element_indices;
            result_unit_nodes := unit_nodes src_grp;
            to_element_face := None |} ]
  else
    tgt_bdry_nodes ← bdry_nodes_of tgt_bdry_discr i_tgt_grp
                        tgt_bdry_element_indices tgt_aff_map;
    src_bdry_nodes ← bdry_nodes_of src_bdry_discr i_src_grp
                        src_bdry_element_indices src_aff_map;
    let tol := fmul f1e4 feps in
    src_mesh_grp ← getnat (mesh_groups (discr_mesh src_bdry_discr)) i_src_grp;
    src_grp ← getnat (discr_groups src_bdry_discr) i_src_grp;
    matched ← _find_src_unit_nodes_by_matching
                 tgt_bdry_nodes src_bdry_nodes src_grp tol;
    src_unit_nodes ←
      match matched with
      | Some u => Ok u
      | None => _find_src_unit_nodes_via_gauss_newton
                  tgt_bdry_nodes src_bdry_nodes src_grp src_mesh_grp tol
      end;
    _find_src_unit_nodes_batches src_unit_nodes i_src_grp
      tgt_bdry_element_indices src_bdry_element_indices tol.
End cross_face.

(** ** Index wrangling shared by the two builders *)

Section index_arrays.
Context {F : Type}.

(** A monadic left fold: the body of a [for] loop threaded through a state. *)
Fixpoint for_each {A S} (l : list A) (body : S → A → Outcome F S) (s : S)
    : Outcome F S :=
  match l with
  | [] => Ok s
  | x :: l' => s' ← body s x; for_each l' body s'
  end.

(** [ary[mask]] with a boolean mask of the same length. *)
Definition mask_select {A} (ary : list A) (mask : list bool) : Outcome F (list A) :=
  if decide (length ary = length mask)
  then Ok (fst <$> filter (λ p, p.2 = true) (zip ary mask))
  else Raise IndexError.

(** A subscript into an axis of extent [n], with wrap-around. *)
Definition norm_index (n : nat) (i : Z) : Outcome F nat :=
  let j := if (i <? 0)%Z then (i + Z.of_nat n)%Z else i in
  if ((0 <=? j)%Z && (j <? Z.of_nat n)%Z)%bool then Ok (Z.to_nat j)
  else Raise IndexError.

(** [table[r, c]] *)
Definition table_get (table : list (list Z)) (r c : Z) : Outcome F Z :=
  row ← getitem table r;
  getitem row c.

(** Two index arrays broadcast against each other (one axis each): equal
    lengths pair up, a single entry is repeated. *)
Definition broadcast_indices (rows cols : list Z) : Outcome F (list (Z * Z)) :=
  if decide (length rows = length cols) then Ok (zip rows cols)
  else if decide (length rows = 1)
  then Ok (zip (replicate (length cols) (rows !!! 0)) cols)
  else if decide (length cols = 1)
  then Ok (zip rows (replicate (length rows) (cols !!! 0)))
  else Raise IndexError.

(** [table[rows, cols]] with two index arrays. *)
Definition table_take (table : list (list Z)) (rows cols : list Z)
    : Outcome F (list Z) :=
  pairs ← broadcast_indices rows cols;
  mapM (λ '(r, c), table_get table r c) pairs.

(** [table[r, c] = v] *)
Definition table_set (table : list (list Z)) (r c v : Z)
    : Outcome F (list (list Z)) :=
  i ← norm_index (length table) r;
  j ← norm_index (length (table !!! i)) c;
  Ok (<[i := <[j := v]> (table !!! i)]> table).

(** [table[rows, cols] = values], entry by entry, later entries winning. *)
Definition table_assign (table : list (list Z)) (rows cols values : list Z)
    : Outcome F (list (list Z)) :=
  pairs ← broadcast_indices rows cols;
  vals ← (if decide (length values = length pairs) then Ok values
          else if decide (length values = 1)
          then Ok (replicate (length pairs) (values !!! 0))
          else Raise ValueError);
  for_each (zip pairs vals)
    (λ tbl '((r, c), v), table_set tbl r c v) table.

(** [np.argsort(vals)]: the positions of [vals] in increasing order of value,
    equal values in order of position. *)
Definition argsort (vals : list Z) : list nat :=
  merge_sort (λ i j : nat,
      (vals !!! i < vals !!! j)%Z ∨ (vals !!! i = vals !!! j ∧ i ≤ j))
    (seq 0 (length vals)).

(** [np.searchsorted(vals, v, sorter=...)], side left: how many entries of
    [vals] are below [v]. *)
Definition searchsorted (vals : list Z) (v : Z) : nat :=
  length (filter (λ x, (x < v)%Z) vals).

(** [np.unique] *)
Definition np_unique (vals : list Z) : list Z :=
  merge_sort Z.le (remove_dups vals).

(** [np.max] of an integer array. *)
Definition np_max_Z (vals : list Z) : Outcome F Z :=
  match vals with
  | [] => Raise ValueError
  | x :: vals' => Ok (foldl Z.max x vals')
  end.

Definition _find_ibatch_for_face (vbc_tgt_grp_batches : list (InterpolationBatch F))
    (iface : nat) : Outcome F (InterpolationBatch F) :=
  let vbc_tgt_grp_face_batches :=
    filter (λ batch, to_element_face batch = Some iface) vbc_tgt_grp_batches in
  match vbc_tgt_grp_face_batches with
  | [vbc_tgt_grp_face_batch] => Ok vbc_tgt_grp_face_batch
  | _ => Raise AssertionError
  end.

(** [iel_lookup[from_element_indices, batch.to_element_face] = to_element_indices]
    for one batch.  With a face the pairs (element, face) are assigned one
    by one; a batch without a face subscripts with [None], which inserts an
    axis, so that the values are laid along the face axis of each row. *)
Definition lookup_assign_batch (nfaces : nat) (iel_lookup : list (list Z))
    (batch : InterpolationBatch F) : Outcome F (list (list Z)) :=
  let from_idx := from_element_indices batch in
  let to_idx := to_element_indices batch in
  match to_element_face batch with
  | Some face =>
      table_assign iel_lookup from_idx
        (replicate (length from_idx) (Z.of_nat face)) to_idx
  | None =>
      if decide (length to_idx = nfaces ∨ length to_idx = 1)
      then for_each from_idx
             (λ tbl r,
                i ← norm_index (length tbl) r;
                Ok (<[i := if decide (length to_idx = 1)
                           then replicate nfaces (to_idx !!! 0)
                           else to_idx]> tbl))
             iel_lookup
      else Raise ValueError
  end.

(** Given a volume-to-boundary connection, a table of shape
    (from_nelements, nfaces) to look up the element number of the boundary
    element for that face. *)
Definition _make_bdry_el_lookup_table (connection : DirectDiscretizationConnection F)
    (igrp : nat) : Outcome F (list (list Z)) :=
  from_grp ← getnat (discr_groups (from_discr connection)) igrp;
  from_mesh_grp ← getnat (mesh_groups (discr_mesh (from_discr connection))) igrp;
  let from_nelements := grp_nelements from_grp in
  let from_nfaces := nfaces from_mesh_grp in
  let iel_lookup := replicate from_nelements (replicate from_nfaces (-1)%Z) in
  conn_grp ← getnat (groups connection) igrp;
  for_each (batches conn_grp) (lookup_assign_batch from_nfaces) iel_lookup.
End index_arrays.

(** ** [make_opposite_face_connection] *)

Section opposite_face_builder.
Context {F : Type} `{Dtype F} `{Linalg F}.

(** [groups[i].extend(new_batches)] *)
Definition extend_group {A} (grps : list (list A)) (i : nat)
    (new_batches : list A) : Outcome F (list (list A)) :=
  old ← getnat grps i;
  Ok (<[i := old ++ new_batches]> grps).

(** [ary[used]] where [used] is [slice(None)] ([None]) or an index array. *)
Definition subscript {A} (ary : list A) (used : option (list nat))
    : Outcome F (list A) :=
  match used with
  | None => Ok ary
  | Some idx => mapM (getnat ary) idx
  end.

(** The assertions that the input is a volume-to-boundary connection. *)
Definition check_is_restriction (volume_to_bdry_conn : DirectDiscretizationConnection F)
    : Outcome F unit :=
  for_each (imap pair (groups volume_to_bdry_conn))
    (λ _ '(i_tgrp, conn_grp),
       for_each (batches conn_grp)
         (λ _ batch,
            _ ← py_assert (bool_decide (from_group_index batch = i_tgrp));
            py_assert (bool_decide (to_element_face batch ≠ None)))
         ())
    ().

(** The index wrangling of the innermost loop, for one adjacency group and
    one face, up to [tgt_bdry_element_indices]; [None] when the adjacency
    group has no element on this face ([continue]). *)
Definition opposite_face_tgt_elements
    (volume_to_bdry_conn : DirectDiscretizationConnection F) (i_tgt_grp : nat)
    (adj : InteriorAdjacencyGroup F) (i_face_tgt : nat)
    : Outcome F (option (list Z)) :=
  conn_grp ← getnat (groups volume_to_bdry_conn) i_tgt_grp;
  let vbc_tgt_grp_batches := batches conn_grp in
  vbc_tgt_grp_face_batch ← _find_ibatch_for_face vbc_tgt_grp_batches i_face_tgt;
  let adj_tgt_flags :=
    (λ f, bool_decide (f = Z.of_nat i_face_tgt)) <$> element_faces adj in
  adj_els ← mask_select (elements adj) adj_tgt_flags;
  if decide (length adj_els = 0) then Ok None else
  let vbc_els := from_element_indices vbc_tgt_grp_face_batch in
  vbc_used_els ←
    (if decide (length adj_els = length vbc_els)
     then (* Same length: assert (below) that the two use the same ordering. *)
       Ok None
     else (* Genuine subset: figure out an index mapping. *)
       let vbc_els_sort_idx := argsort vbc_els in
       Some <$> mapM (λ v, getnat vbc_els_sort_idx (searchsorted vbc_els v))
                     adj_els);
  used ← subscript vbc_els vbc_used_els;
  _ ← py_assert (bool_decide (used = adj_els));
  (* find tgt_bdry_element_indices *)
  tgt_bdry_element_indices ←
    subscript (to_element_indices vbc_tgt_grp_face_batch) vbc_used_els;
  Ok (Some tgt_bdry_element_indices).

(** The body of the innermost loop, for one adjacency group and one face. *)
Definition opposite_face_step (volume_to_bdry_conn : DirectDiscretizationConnection F)
    (src_grp_el_lookup : list (list Z)) (i_src_grp i_tgt_grp : nat)
    (adj : InteriorAdjacencyGroup F)
    (grps : list (list (InterpolationBatch F))) (i_face_tgt : nat)
    : Outcome F (list (list (InterpolationBatch F))) :=
  let bdry_discr := to_discr volume_to_bdry_conn in
  selected ← opposite_face_tgt_elements volume_to_bdry_conn i_tgt_grp adj i_face_tgt;
  match selected with
  | None => Ok grps
  | Some tgt_bdry_element_indices =>
      (* find src_bdry_element_indices *)
      let adj_tgt_flags :=
        (λ f, bool_decide (f = Z.of_nat i_face_tgt)) <$> element_faces adj in
      src_vol_element_indices ← mask_select (neighbors adj) adj_tgt_flags;
      src_element_faces ← mask_select (neighbor_faces adj) adj_tgt_flags;
      src_bdry_element_indices ←
        table_take src_grp_el_lookup src_vol_element_indices src_element_faces;
      new_batches ← _make_cross_face_batches bdry_discr bdry_discr
                       i_tgt_grp i_src_grp
                       tgt_bdry_element_indices src_bdry_element_indices
                       (aff_map adj) None;
      extend_group grps i_tgt_grp new_batches
  end.

(** The interior adjacency groups of target group [i_tgt_grp] whose
    neighbor group is [i_src_grp]. *)
Definition interior_adj_grps (vol_mesh : Mesh F) (i_tgt_grp i_src_grp : nat)
    : Outcome F (list (InteriorAdjacencyGroup F)) :=
  fagrps ← getnat (facial_adjacency_groups vol_mesh) i_tgt_grp;
  Ok (omap (M:=list) (λ fagrp,
        match fagrp with
        | Interior adj =>
            if decide (ineighbor_group adj = i_src_grp) then Some adj else None
        | NonInterior => None
        end) fagrps).

Definition make_opposite_face_connection
    (volume_to_bdry_conn : DirectDiscretizationConnection F)
    : Outcome F (DirectDiscretizationConnection F) :=
  let vol_discr := from_discr volume_to_bdry_conn in
  let vol_mesh := discr_mesh vol_discr in
  let bdry_discr := to_discr volume_to_bdry_conn in
  (* make sure we were handed a volume-to-boundary connection *)
  _ ← check_is_restriction volume_to_bdry_conn;
  let ngrps := length (groups volume_to_bdry_conn) in
  _ ← py_assert (bool_decide (ngrps = length (discr_groups vol_discr)));
  _ ← py_assert (bool_decide (ngrps = length (discr_groups bdry_discr)));
  (* a list of batches for each group *)
  grps ←
    for_each (seq 0 ngrps)
      (λ grps i_src_grp,
         src_grp_el_lookup ← _make_bdry_el_lookup_table volume_to_bdry_conn i_src_grp;
         for_each (seq 0 ngrps)
           (λ grps i_tgt_grp,
              adj_grps ← interior_adj_grps vol_mesh i_tgt_grp i_src_grp;
              for_each adj_grps
                (λ grps adj,
                   tgt_mesh_grp ← getnat (mesh_groups vol_mesh) i_tgt_grp;
                   for_each (seq 0 (nfaces tgt_mesh_grp))
                     (opposite_face_step volume_to_bdry_conn src_grp_el_lookup
                        i_src_grp i_tgt_grp adj)
                     grps)
                grps)
           grps)
      (replicate ngrps []);
  Ok {| from_discr := bdry_discr;
        to_discr := bdry_discr;
        groups := (λ bs, {| batches := bs |}) <$> grps;
        is_surjective := true |}.

End opposite_face_builder.

(** ** [make_partition_connection] *)

Section partition_builder.
Context {F : Type} `{Dtype F} `{Linalg F}.

(** Modelled from the spec: [find_group_indices] of [meshmode.mesh.processing]
    is not part of the sources at hand.  It resolves mesh-wide element
    numbers to the index of the group they fall in: the number of group
    boundaries (running totals of [nelements]) at or below the element. *)
Definition find_group_indices (local_vol_groups : list (MeshGroup F))
    (meshwide_elems : list Z) : list nat :=
  let boundaries : list Z :=
    (λ k, Z.of_nat (sum_list (mgrp_nelements <$> take (S k) local_vol_groups)))
      <$> seq 0 (length local_vol_groups) in
  (λ el, length (filter (λ b, (b ≤ el)%Z) boundaries)) <$> meshwide_elems.

(** [remote_vol_to_bdry] *)
Definition make_remote_vol_to_bdry (rgi : RemoteGroupInfo F)
    : Outcome F (list (list Z)) :=
  max_el ← np_max_Z (vol_elem_indices rgi);
  max_face ← np_max_Z (bdry_faces rgi);
  let remote_approx_vol_nelements := (max_el + 1)%Z in
  let remote_approx_nfaces := (max_face + 1)%Z in
  if decide (remote_approx_vol_nelements < 0 ∨ remote_approx_nfaces < 0)%Z
  then Raise ValueError else
  table_assign
    (replicate (Z.to_nat remote_approx_vol_nelements)
       (replicate (Z.to_nat remote_approx_nfaces) (-1)%Z))
    (vol_elem_indices rgi) (bdry_faces rgi) (bdry_elem_indices rgi).

(** The body of the loop over [np.unique(i_local_grps)]. *)
Definition partition_step (local_bdry_conn : DirectDiscretizationConnection F)
    (remote_bdry_discr : Discretization F)
    (rem_ipag : InterPartAdjacencyGroup F)
    (i_local_grps : list nat) (remote_vol_to_bdry : list (list Z))
    (part_batches : list (list (InterpolationBatch F))) (i_local_grp : nat)
    : Outcome F (list (list (InterpolationBatch F))) :=
  let local_vol_mesh := discr_mesh (from_discr local_bdry_conn) in
  (* come up with matched_{local,remote}_bdry_el_indices *)
  local_vol_to_bdry ← _make_bdry_el_lookup_table local_bdry_conn i_local_grp;
  let local_indices :=
    np_where ((λ g, bool_decide (g = i_local_grp)) <$> i_local_grps) in
  neighbors_sel ← mapM (getnat (ipag_neighbors rem_ipag)) local_indices;
  base ← getnat (base_element_nrs local_vol_mesh) i_local_grp;
  let local_grp_vol_elems := (λ n, (n - base)%Z) <$> neighbors_sel in
  (* These are group-local. *)
  remote_grp_vol_elems ← mapM (getnat (ipag_elements rem_ipag)) local_indices;
  neighbor_faces_sel ← mapM (getnat (ipag_neighbor_faces rem_ipag)) local_indices;
  matched_local_bdry_el_indices ←
    table_take local_vol_to_bdry local_grp_vol_elems neighbor_faces_sel;
  _ ← py_assert (forallb (λ i, (0 <=? i)%Z) matched_local_bdry_el_indices);
  element_faces_sel ← mapM (getnat (ipag_element_faces rem_ipag)) local_indices;
  matched_remote_bdry_el_indices ←
    table_take remote_vol_to_bdry remote_grp_vol_elems element_faces_sel;
  _ ← py_assert (forallb (λ i, (0 <=? i)%Z) matched_remote_bdry_el_indices);
  grp_batches ← _make_cross_face_batches
                   (to_discr local_bdry_conn) remote_bdry_discr
                   i_local_grp (ipag_igroup rem_ipag)
                   matched_local_bdry_el_indices
                   matched_remote_bdry_el_indices
                   None (ipag_aff_map rem_ipag);
  extend_group part_batches i_local_grp grp_batches.

Definition make_partition_connection
    (local_bdry_conn : DirectDiscretizationConnection F)
    (remote_bdry_discr : Discretization F)
    (remote_group_infos : list (RemoteGroupInfo F))
    : Outcome F (DirectDiscretizationConnection F) :=
  let local_vol_mesh := discr_mesh (from_discr local_bdry_conn) in
  let local_vol_groups := mesh_groups local_vol_mesh in
  let part_batches : list (list (InterpolationBatch F)) :=
    replicate (length local_vol_groups) [] in
  _ ← py_assert (bool_decide
         (length local_vol_groups
          = length (discr_groups (to_discr local_bdry_conn))));
  part_batches ←
    for_each remote_group_infos
      (λ part_batches rgi,
         for_each (inter_part_adj_groups rgi)
           (λ part_batches rem_ipag,
              let i_local_grps :=
                find_group_indices local_vol_groups (ipag_neighbors rem_ipag) in
              (* make remote_vol_to_bdry *)
              remote_vol_to_bdry ← make_remote_vol_to_bdry rgi;
              for_each
                (Z.to_nat <$> np_unique (Z.of_nat <$> i_local_grps))
                (partition_step local_bdry_conn remote_bdry_discr rem_ipag
                   i_local_grps remote_vol_to_bdry)
                part_batches)
           part_batches)
      part_batches;
  Ok {| from_discr := remote_bdry_discr;
        to_discr := to_discr local_bdry_conn;
        groups := (λ grp_batches, {| batches := grp_batches |}) <$> part_batches;
        is_surjective := true |}.

End partition_builder.

(** ** [L2ProjectionInverseDiscretizationConnection] *)

Section projection.
Context {F : Type}.

(** What can be handed to the constructor, and what it hands back.
    Modelled from the spec: [ChainedDiscretizationConnection] lives in
    [chained.py], which is not part of the sources at hand; it is the
    sequential composition of its links, kept here as their list. *)
Inductive Connection : Type :=
  | Direct (conn : DirectDiscretizationConnection F)
  | Chained (connections : list Connection)
  (* an instance of the class itself: [self.conn] and the three fields
     that [__init__] hands to the base class *)
  | L2ProjectionInverse (conn : DirectDiscretizationConnection F)
      (l2_from_discr l2_to_discr : Discretization F) (l2_is_surjective : bool).

(** [__init__], which Python runs on the fresh instance that [__new__]
    returns for a direct connection. *)
Definition L2_init (conn : DirectDiscretizationConnection F) (is_surjective : bool)
    : Outcome F Connection :=
  if decide (discr_dim (from_discr conn) ≠ discr_dim (to_discr conn))
  then Raise (RuntimeError CannotTransportFaceToElement)
  else if negb (forallb is_orthonormal_basis (discr_groups (to_discr conn)))
  then Raise (RuntimeError ToDiscrNotOrthonormal)
  else Ok (L2ProjectionInverse conn (to_discr conn) (from_discr conn) is_surjective).

(** [for cnx in reversed(connections): conns.append(f(cnx))] *)
Definition collect_reversed {A B} (f : A → Outcome F B) : list A → Outcome F (list B) :=
  fix go l :=
    match l with
    | [] => Ok []
    | cnx :: l' => conns ← go l'; c ← f cnx; Ok (conns ++ [c])
    end.

(** Calling the class: [__new__], and [__init__] when [__new__] returned an
    instance of the class. *)
Fixpoint L2_new (connections : Connection) (is_surjective : bool)
    : Outcome F Connection :=
  match connections with
  | Direct conn => L2_init conn is_surjective
  | Chained links =>
      match links with
      | [] => Ok connections
      | _ :: _ =>
          (* cls(connections.connections, ...), which takes the last branch *)
          conns ← collect_reversed (λ cnx, L2_new cnx is_surjective) links;
          Ok (Chained conns)
      end
  | L2ProjectionInverse _ _ _ _ =>
      (* neither direct nor chained: [reversed] refuses it *)
      Raise TypeError
  end.

Section batch_weights.
(** The quadrature arithmetic of one batch ([det(jac) * weights]), which
    rests on modepy and pymbolic. *)
Variable scaled_weights : ElementGroup F → InterpolationBatch F → Outcome F (list F).

(** [_batch_weights]: a dictionary with keys (group_id, batch_id), here as
    the list of its items in insertion order.  [self] is given by
    [self.conn] and [self.to_discr]. *)
Definition _batch_weights (conn : DirectDiscretizationConnection F)
    (self_to_discr : Discretization F)
    : Outcome F (list (nat * nat * list F)) :=
  for_each (imap pair (discr_groups self_to_discr))
    (λ weights '(igrp, grp),
       if negb (is_interpolatory grp) then Raise ValueError else
       conn_grp ← getnat (groups conn) igrp;
       for_each (imap pair (batches conn_grp))
         (λ weights '(ibatch, batch),
            w ← scaled_weights grp batch;
            Ok (weights ++ [(igrp, ibatch, w)]))
         weights)
    [].
End batch_weights.
End projection.
Arguments Connection F : clear implicits.

(** * [meshmode.array_context]: applying the iname transformations *)

Global Instance string_eq_dec : EqDecision String.string := String.string_dec.

Section loopy_transform.
Context {F : Type}.

(** loopy's translation unit and the two transformations that are called on
    it are not part of the sources at hand; they are taken as given:
    [lp.split_iname(t_unit, name, 32, inner_tag="l.0")] and
    [lp.tag_inames(t_unit, {name: "g.0"})], either of which may raise. *)
Variable TranslationUnit : Type.
Variable split_iname : TranslationUnit → String.string → Outcome F TranslationUnit.
Variable tag_inames : TranslationUnit → String.string → Outcome F TranslationUnit.

(** [sorted(names)] on a list of [str]: lexicographic by code point. *)
Definition py_sorted (names : list String.string) : list String.string :=
  merge_sort (λ a b, Is_true (String.leb a b)) names.

Definition _transform_with_element_and_dof_inames (t_unit : TranslationUnit)
    (el_inames dof_inames : list String.string) : Outcome F TranslationUnit :=
  (* set(el_inames) & set(dof_inames) *)
  if bool_decide (list_intersection el_inames dof_inames ≠ [])
  then Raise ValueError else
  (* Sorting ensures the same order of transformations is used every time *)
  t_unit ← for_each (py_sorted dof_inames) split_iname t_unit;
  for_each (py_sorted el_inames) tag_inames t_unit.
End loopy_transform.

(** * Concrete inputs in float64 *)

Module Examples.
Import PrimFloat Float64.
Local Open Scope float_scope.

(** [tol = 1e4 * np.finfo(np.float64).eps], about 2.22e-12. *)
Definition tol : float := fmul f1e4 feps.

(** Reference coordinates of three elements with two nodes each on a
    one-dimensional source element: the second and third element sit
    2^-39 (about 1.82e-12) to either side of the first. *)
Definition nodes_near : list (list (list float)) :=
  [[[0; 0.5]; [0x1p-39; 0.5]; [-0x1p-39; 0.5]]].

(** Two elements with the same three-node pattern. *)
Definition nodes_same : list (list (list float)) :=
  [[[-1; 0; 1]; [-1; 0; 1]]].

(** The one batch they make. *)
Definition batch_same : InterpolationBatch float := {|
  from_group_index := 0;
  from_element_indices := [7; 8]%Z;
  to_element_indices := [3; 4]%Z;
  result_unit_nodes := [[-1; 0; 1]];
  to_element_face := None |}.

(** *** An interval mesh of two elements and its 0-dimensional boundary *)

(** The volume group: line elements of order 1 with the monomial basis. *)
Definition line_grp : ElementGroup float := {|
  grp_dim := 1;
  grp_nelements := 2;
  unit_nodes := [[-1; 1]];
  basis_functions := [λ _, 1; λ x, x !!! 0%nat];
  basis_gradients := [λ _, [0]; λ _, [1]];
  is_orthonormal_basis := false;
  is_interpolatory := true |}.

Definition line_mesh_grp : MeshGroup float := {|
  vertex_unit_coordinates := [[-1]; [1]];
  nfaces := 2;
  mgrp_nelements := 2 |}.

(** Elements [0, 1/2] and [1/2, 1]: face 1 of element 0 meets face 0 of
    element 1; the two outer faces have no neighbor. *)
Definition interval_mesh : Mesh float := {|
  mesh_groups := [line_mesh_grp];
  facial_adjacency_groups :=
    [[Interior {| ineighbor_group := 0;
                  elements := [0; 1]%Z;
                  element_faces := [1; 0]%Z;
                  neighbors := [1; 0]%Z;
                  neighbor_faces := [0; 1]%Z;
                  aff_map := Some AffineMap_default |};
      NonInterior]];
  base_element_nrs := [0%Z] |}.

Definition interval_discr : Discretization float := {|
  discr_dim := 1;
  discr_groups := [line_grp];
  discr_nodes := [[[[0; 0.5]; [0.5; 1]]]];
  discr_mesh := interval_mesh |}.

(** The boundary group: four points, one node each, no reference axis. *)
Definition point_grp : ElementGroup float := {|
  grp_dim := 0;
  grp_nelements := 4;
  unit_nodes := [];
  basis_functions := [λ _, 1];
  basis_gradients := [λ _, []];
  is_orthonormal_basis := true;
  is_interpolatory := true |}.

Definition point_mesh : Mesh float := {|
  mesh_groups := [{| vertex_unit_coordinates := [[]]; nfaces := 0;
                     mgrp_nelements := 4 |}];
  facial_adjacency_groups := [[]];
  base_element_nrs := [0%Z] |}.

Definition interval_bdry_discr : Discretization float := {|
  discr_dim := 0;
  discr_groups := [point_grp];
  discr_nodes := [[[[0]; [0.5]; [0.5]; [1]]]];
  discr_mesh := point_mesh |}.

(** The restriction to all faces: one batch per face, boundary elements
    0, 1 on face 0 and 2, 3 on face 1. *)
Definition interval_restriction : DirectDiscretizationConnection float := {|
  from_discr := interval_discr;
  to_discr := interval_bdry_discr;
  groups :=
    [{| batches :=
          [{| from_group_index := 0;
              from_element_indices := [0; 1]%Z;
              to_element_indices := [0; 1]%Z;
              result_unit_nodes := [[-1]];
              to_element_face := Some 0%nat |};
           {| from_group_index := 0;
              from_element_indices := [0; 1]%Z;
              to_element_indices := [2; 3]%Z;
              result_unit_nodes := [[1]];
              to_element_face := Some 1%nat |}] |}];
  is_surjective := true |}.

(** *** The interval split into two parts *)

(** The local part holds the element [0, 1/2]; its boundary towards the
    remote part is the point 1/2, face 1 of its element. *)
Definition local_mesh : Mesh float := {|
  mesh_groups := [{| vertex_unit_coordinates := [[-1]; [1]]; nfaces := 2;
                     mgrp_nelements := 1 |}];
  facial_adjacency_groups := [[NonInterior]];
  base_element_nrs := [0%Z] |}.

Definition local_discr : Discretization float := {|
  discr_dim := 1;
  discr_groups := [{| grp_dim := 1; grp_nelements := 1;
                      unit_nodes := [[-1; 1]];
                      basis_functions := [λ _, 1; λ x, x !!! 0%nat];
                      basis_gradients := [λ _, [0]; λ _, [1]];
                      is_orthonormal_basis := false;
                      is_interpolatory := true |}];
  discr_nodes := [[[[0; 0.5]]]];
  discr_mesh := local_mesh |}.

Definition part_point_grp : ElementGroup float := {|
  grp_dim := 0;
  grp_nelements := 1;
  unit_nodes := [];
  basis_functions := [λ _, 1];
  basis_gradients := [λ _, []];
  is_orthonormal_basis := true;
  is_interpolatory := true |}.

Definition part_point_mesh : Mesh float := {|
  mesh_groups := [{| vertex_unit_coordinates := [[]]; nfaces := 0;
                     mgrp_nelements := 1 |}];
  facial_adjacency_groups := [[]];
  base_element_nrs := [0%Z] |}.

Definition part_bdry_discr : Discretization float := {|
  discr_dim := 0;
  discr_groups := [part_point_grp];
  discr_nodes := [[[[0.5]]]];
  discr_mesh := part_point_mesh |}.

Definition local_bdry_conn : DirectDiscretizationConnection float := {|
  from_discr := local_discr;
  to_discr := part_bdry_discr;
  groups :=
    [{| batches :=
          [{| from_group_index := 0;
              from_element_indices := [0%Z];
              to_element_indices := [0%Z];
              result_unit_nodes := [[1]];
              to_element_face := Some 1%nat |}] |}];
  is_surjective := true |}.

(** The remote part holds [1/2, 1] and meets the local part with face 0 of
    its element 0; the local element has the mesh-wide number 0. *)
Definition remote_group_info : RemoteGroupInfo float := {|
  inter_part_adj_groups :=
    [{| ipag_igroup := 0;
        ipag_elements := [0%Z];
        ipag_element_faces := [0%Z];
        ipag_neighbors := [0%Z];
        ipag_neighbor_faces := [1%Z];
        ipag_aff_map := None |}];
  vol_elem_indices := [0%Z];
  bdry_elem_indices := [0%Z];
  bdry_faces := [0%Z] |}.

(** *** A straight face and targets for the Newton solve *)

(** The source face: one element with the nodes (0, 0) and (1, 0). *)
Definition face_src_nodes : list (list (list float)) :=
  [[[0; 1]]; [[0; 0]]].

(** Targets on the face, at a quarter and three quarters of it. *)
Definition face_tgt_nodes : list (list (list float)) :=
  [[[0.25; 0.75]]; [[0; 0]]].

(** Targets of which the first lies off the face, one unit above it. *)
Definition lifted_tgt_nodes : list (list (list float)) :=
  [[[0.25; 0.75]]; [[1; 0]]].

(** Targets of which the first lies 2^60 along the axis of the face. *)
Definition far_tgt_nodes : list (list (list float)) :=
  [[[0x1p60; 0.75]]; [[0; 0]]].

(** The inverse transpose Vandermonde matrix of [line_grp]. *)
Definition line_inv_t_vdm : list (list float) := [[0.5; -0.5]; [0.5; 0.5]].

(** The initial guess for one element with two target nodes. *)
Definition line_initial : list (list (list float)) := [[[0; 0]]].

(** *** Connections for the projection *)

(** A group with an orthonormal basis that is not interpolatory. *)
Definition modal_grp : ElementGroup float := {|
  grp_dim := 1;
  grp_nelements := 2;
  unit_nodes := [[-1; 1]];
  basis_functions := [λ _, 1; λ x, x !!! 0%nat];
  basis_gradients := [λ _, [0]; λ _, [1]];
  is_orthonormal_basis := true;
  is_interpolatory := false |}.

Definition modal_discr : Discretization float := {|
  discr_dim := 1;
  discr_groups := [modal_grp];
  discr_nodes := [[[[0; 0.5]; [0.5; 1]]]];
  discr_mesh := interval_mesh |}.

(** The identity connection on [modal_discr]. *)
Definition modal_conn : DirectDiscretizationConnection float := {|
  from_discr := modal_discr;
  to_discr := modal_discr;
  groups :=
    [{| batches :=
          [{| from_group_index := 0;
              from_element_indices := [0; 1]%Z;
              to_element_indices := [0; 1]%Z;
              result_unit_nodes := [[-1; 1]];
              to_element_face := None |}] |}];
  is_surjective := true |}.
(** *** A boundary of straight faces in the plane *)

Definition face_grp : ElementGroup float := {|
  grp_dim := 1;
  grp_nelements := 3;
  unit_nodes := [[-1; 1]];
  basis_functions := [λ _, 1; λ x, x !!! 0%nat];
  basis_gradients := [λ _, [0]; λ _, [1]];
  is_orthonormal_basis := false;
  is_interpolatory := true |}.

Definition face_mesh_grp : MeshGroup float := {|
  vertex_unit_coordinates := [[-1]; [1]];
  nfaces := 2;
  mgrp_nelements := 3 |}.

Definition face_mesh : Mesh float := {|
  mesh_groups := [face_mesh_grp];
  facial_adjacency_groups := [[]];
  base_element_nrs := [0%Z] |}.

(** Three face elements over the segment from (0, 0) to (1, 0): element 0
    with its nodes at the end points, element 1 the same face seen from the
    other side, element 2 with its nodes at a quarter and three quarters. *)
Definition face_discr : Discretization float := {|
  discr_dim := 1;
  discr_groups := [face_grp];
  discr_nodes := [[[[0; 1]; [1; 0]; [0.25; 0.75]]];
                  [[[0; 0]; [0; 0]; [0; 0]]]];
  discr_mesh := face_mesh |}.

(** The nodes of element 1: the end points in the opposite order. *)
Definition flipped_tgt_nodes : list (list (list float)) :=
  [[[1; 0]]; [[0; 0]]].

(** Two target nodes that both sit on the end point (0, 0). *)
Definition coincident_tgt_nodes : list (list (list float)) :=
  [[[0; 0]]; [[0; 0]]].
(** The interior adjacency of the interval mesh, on its own. *)
Definition interval_adj : InteriorAdjacencyGroup float := {|
  ineighbor_group := 0;
  elements := [0; 1]%Z;
  element_faces := [1; 0]%Z;
  neighbors := [1; 0]%Z;
  neighbor_faces := [0; 1]%Z;
  aff_map := Some AffineMap_default |}.

(** The batch of the interval restriction for face 1. *)
Definition interval_face1_batch : InterpolationBatch float := {|
  from_group_index := 0;
  from_element_indices := [0; 1]%Z;
  to_element_indices := [2; 3]%Z;
  result_unit_nodes := [[1]];
  to_element_face := Some 1%nat |}.

(** *** Two triangles that share an edge *)









(** *** The two triangles as two parts *)






(** The one group of the interval restriction. *)
Definition interval_conn_grp : DiscretizationConnectionElementGroup float := {|
  batches :=
    [{| from_group_index := 0;
        from_element_indices := [0; 1]%Z;
        to_element_indices := [0; 1]%Z;
        result_unit_nodes := [[-1]];
        to_element_face := Some 0%nat |};
     interval_face1_batch] |}.

(** The interval restriction read backwards, from the volume side. *)
Definition interval_volume_conn : DirectDiscretizationConnection float := {|
  from_discr := interval_bdry_discr;
  to_discr := interval_discr;
  groups := groups interval_restriction;
  is_surjective := false |}.
End Examples.

(** * Facts *)

(** ** The outcome monad *)

Section outcome_facts.
Context {F : Type}.

Lemma bind_Ok {A B} (m : Outcome F A) (f : A → Outcome F B) (b : B) :
  m ≫= f = Ok b ↔ ∃ a, m = Ok a ∧ f a = Ok b.
Proof.
  destruct m as [a| |]; simpl; split.
  - intros Hf. by exists a.
  - by intros (a' & [= <-] & Hf).
  - done.
  - by intros (? & ? & ?).
  - done.
  - by intros (? & ? & ?).
Qed.

Lemma fmap_Ok {A B} (m : Outcome F A) (f : A → B) (b : B) :
  f <$> m = Ok b ↔ ∃ a, m = Ok a ∧ b = f a.
Proof.
  destruct m as [a| |]; simpl; split; try done.
  - intros [= <-]. by exists a.
  - by intros (a' & [= <-] & ->).
  - by intros (? & ? & ?).
  - by intros (? & ? & ?).
Qed.

Lemma bind_Raise {A B} (m : Outcome F A) (f : A → Outcome F B) (e : Exn F) :
  m ≫= f = Raise e → m = Raise e ∨ ∃ a, m = Ok a ∧ f a = Raise e.
Proof. destruct m as [a|e'|]; simpl; intros Hm; [right; by exists a|left; by injection Hm as ->|done]. Qed.

Lemma bind_Hang {A B} (m : Outcome F A) (f : A → Outcome F B) :
  m ≫= f = Hang → m = Hang ∨ ∃ a, m = Ok a ∧ f a = Hang.
Proof. destruct m as [a|e'|]; simpl; intros Hm; [right; by exists a|done|by left]. Qed.

Lemma py_assert_Ok (cond : bool) (u : unit) :
  py_assert (F:=F) cond = Ok u ↔ cond = true.
Proof. destruct cond, u; simpl; split; done. Qed.

Lemma py_assert_Raise (cond : bool) (e : Exn F) :
  py_assert (F:=F) cond = Raise e → cond = false ∧ e = AssertionError.
Proof. destruct cond; simpl; [done|]. by intros [= <-]. Qed.

Lemma getnat_Ok {A} (l : list A) (i : nat) (x : A) :
  getnat (F:=F) l i = Ok x ↔ l !! i = Some x.
Proof. unfold getnat. destruct (l !! i); split; congruence. Qed.

Lemma mapM_Ok {A B} (f : A → Outcome F B) (l : list A) (k : list B) :
  mapM f l = Ok k ↔ Forall2 (λ x y, f x = Ok y) l k.
Proof.
  revert k. induction l as [|x l IH]; intros k; simpl.
  - split; [intros [= <-]; constructor | by inversion 1].
  - rewrite bind_Ok. split.
    + intros (y & Hy & Hrest). apply bind_Ok in Hrest as (k' & Hk' & [= <-]).
      constructor; [done|]. by apply IH.
    + inversion 1 as [|? y ? k' Hy Hk']; subst. exists y. split; [done|].
      apply bind_Ok. exists k'. split; [by apply IH|done].
Qed.

Lemma mapM_Ok_length {A B} (f : A → Outcome F B) (l : list A) (k : list B) :
  mapM f l = Ok k → length k = length l.
Proof. rewrite mapM_Ok. intros Hk. symmetry. by eapply Forall2_length. Qed.

Lemma mapM_app {A B} (f : A → Outcome F B) (l1 l2 : list A) :
  mapM f (l1 ++ l2) = k1 ← mapM f l1; k2 ← mapM f l2; Ok (k1 ++ k2).
Proof.
  induction l1 as [|x l1 IH]; simpl.
  - by destruct (mapM f l2).
  - destruct (f x) as [y| |]; simpl; [|done..].
    rewrite IH. destruct (mapM f l1) as [k1| |]; simpl; [|done..].
    by destruct (mapM f l2).
Qed.

(** The loop rule: an invariant that every pass keeps holds at the end. *)
Lemma for_each_invariant {A S} (P : S → Prop) (l : list A)
    (body : S → A → Outcome F S) (s s' : S) :
  (∀ s x s', x ∈ l → P s → body s x = Ok s' → P s') →
  P s → for_each l body s = Ok s' → P s'.
Proof.
  revert s. induction l as [|x l IH]; simpl; intros s Hbody Hs Hrun.
  - by injection Hrun as <-.
  - apply bind_Ok in Hrun as (s1 & H1 & Hrun).
    apply (IH s1); [|eauto using list_elem_of_here|done].
    intros ????. apply Hbody. by apply list_elem_of_further.
Qed.

(** Every item of a loop that ran to its end passed through the body. *)
Lemma for_each_items {A S} (Q : A → Prop) (l : list A)
    (body : S → A → Outcome F S) (s s' : S) :
  (∀ s x s', x ∈ l → body s x = Ok s' → Q x) →
  for_each l body s = Ok s' → ∀ x, x ∈ l → Q x.
Proof.
  revert s. induction l as [|x l IH]; simpl; intros s Hbody Hrun y Hy.
  - by apply elem_of_nil in Hy.
  - apply bind_Ok in Hrun as (s1 & H1 & Hrun).
    apply elem_of_cons in Hy as [->|Hy].
    + eapply Hbody; [left|done].
    + eapply (IH s1); [|done..]. intros ????. apply Hbody. by right.
Qed.
End outcome_facts.

Tactic Notation "case_decide" "as" ident(Hd) :=
  match goal with
  | |- context [@decide ?P ?dec] => destruct (@decide P dec) as [Hd|Hd]
  end.

Tactic Notation "case_decide" "in" hyp(H) "as" ident(Hd) :=
  match type of H with
  | context [@decide ?P ?dec] => destruct (@decide P dec) as [Hd|Hd]
  end.

(** Splits a hypothesis that a sequence of monadic steps ended in [Ok]. *)
Ltac inv_bind H :=
  repeat match type of H with
  | _ ≫= _ = Ok _ =>
      let x := fresh "x" in let Hx := fresh "H" x in
      apply bind_Ok in H as (x & Hx & H)
  end.

(** ** [np.where] and the [done_elements] flags *)

Lemma elem_of_where_from (i e : nat) (row : list bool) :
  e ∈ where_from i row ↔ ∃ j, e = i + j ∧ row !! j = Some true.
Proof.
  revert i. induction row as [|b row IH]; intros i; simpl.
  - split; [by intros ?%elem_of_nil | by intros (? & ? & ?)].
  - destruct b.
    + rewrite elem_of_cons, IH. split.
      * intros [->|(j & -> & Hj)]; [exists 0|exists (S j)]; split; auto with lia.
      * intros ([|j] & -> & Hj); [left; lia|right]. exists j. split; [lia|done].
    + rewrite IH. split.
      * intros (j & -> & Hj). exists (S j). split; [lia|done].
      * intros ([|j] & -> & Hj); [done|]. exists j. split; [lia|done].
Qed.

Lemma elem_of_np_where (e : nat) (row : list bool) :
  e ∈ np_where row ↔ row !! e = Some true.
Proof.
  unfold np_where. rewrite elem_of_where_from. split.
  - by intros (j & -> & Hj).
  - intros He. by exists e.
Qed.

Lemma NoDup_where_from (i : nat) (row : list bool) : NoDup (where_from i row).
Proof.
  revert i. induction row as [|b row IH]; intros i; simpl; [constructor|].
  destruct b; [|done]. constructor; [|done].
  rewrite elem_of_where_from. intros (j & ? & _). lia.
Qed.

Lemma length_mark_done (done_elements : list bool) (c : list nat) :
  length (mark_done done_elements c) = length done_elements.
Proof.
  unfold mark_done. induction c as [|e c IH]; simpl; [done|].
  by rewrite length_insert.
Qed.

Lemma lookup_mark_done (done_elements : list bool) (c : list nat) (e : nat) :
  mark_done done_elements c !! e
  = if decide (e ∈ c ∧ e < length done_elements) then Some true
    else done_elements !! e.
Proof.
  induction c as [|x c IH].
  - change (mark_done done_elements []) with done_elements.
    case_decide as Hd; [|done]. by destruct Hd as [?%elem_of_nil _].
  - change (mark_done done_elements (x :: c))
      with (<[x:=true]> (mark_done done_elements c)).
    destruct (decide (x = e)) as [->|Hne].
    + destruct (decide (e < length done_elements)) as [Hlt|Hge].
      * rewrite list_lookup_insert_eq by (by rewrite length_mark_done).
        rewrite decide_True; [done|]. split; [left|done].
      * rewrite list_insert_ge by (rewrite length_mark_done; lia).
        rewrite IH. rewrite !decide_False by (intros [_ ?]; lia). done.
    + rewrite list_lookup_insert_ne by done. rewrite IH.
      case_decide as Hn1; case_decide as Hn2; try done.
      * exfalso. apply Hn2. destruct Hn1. split; [by right|done].
      * exfalso. destruct Hn2 as [Hc ?].
        apply elem_of_cons in Hc as [?|?]; [done|]. tauto.
Qed.

Lemma todo_split (done_elements : list bool) (c : list nat) :
  NoDup c → c ⊆ np_where (negb <$> done_elements) →
  c ++ np_where (negb <$> mark_done done_elements c)
  ≡ₚ np_where (negb <$> done_elements).
Proof.
  intros Hnd Hsub.
  assert (∀ e, e ∈ np_where (negb <$> mark_done done_elements c)
               ↔ (e ∉ c) ∧ e ∈ np_where (negb <$> done_elements)) as Hin.
  { intros e. rewrite !elem_of_np_where, !list_lookup_fmap, lookup_mark_done.
    case_decide as Hd.
    - split; [done|]. intros [Hn _]. by destruct Hd.
    - split; [|tauto]. intros He. split; [|done]. intros Hc. apply Hd.
      split; [done|]. apply lookup_lt_is_Some.
      destruct (done_elements !! e); [eauto|done]. }
  apply NoDup_Permutation.
  - apply NoDup_app. split_and!; [done| |apply NoDup_where_from].
    intros e He He'. apply Hin in He'. tauto.
  - apply NoDup_where_from.
  - intros e. rewrite elem_of_app, Hin. split.
    + intros [He|[_ He]]; [by apply Hsub|done].
    + intros He. destruct (decide (e ∈ c)); tauto.
Qed.

(** ** The batch partitioner *)

Section batches_facts.
Context {F : Type} `{Dtype F}.

Local Abbreviation T3 := (list (list (list F))).

Lemma close_els_spec {A} (f : nat → Outcome F A) (P : A → bool)
    (todo : list nat) (dist : list A) :
  Forall2 (λ e r, f e = Ok r) todo dist → NoDup todo →
  let c := fst <$> filter (λ p, P p.2 = true) (zip todo dist) in
  NoDup c ∧ ∀ e, e ∈ c ↔ e ∈ todo ∧ ∃ r, f e = Ok r ∧ P r = true.
Proof.
  induction 1 as [|e r todo dist Her Hrest IH]; intros Hnd; simpl.
  - split; [constructor|]. intros e. rewrite elem_of_nil. naive_solver.
  - apply NoDup_cons in Hnd as [Hnotin Hnd]. destruct (IH Hnd) as [IHnd IHin].
    rewrite filter_cons. simpl. destruct (decide (P r = true)) as [HP|HP]; simpl.
    + split.
      * constructor; [|done]. rewrite IHin. tauto.
      * intros e'. rewrite !elem_of_cons, IHin. split; [|naive_solver].
        intros [->|[? ?]]; [|tauto]. split; [by left|eauto].
    + split; [done|]. intros e'. rewrite elem_of_cons, IHin. split; [tauto|].
      intros [[->|?] (r' & Hr' & HP')]; [|eauto]. congruence.
Qed.

Lemma batches_loop_Ok (u : T3) (i_src_grp : nat) (tgt src : list Z) (tol : F)
    (fuel : nat) (done_elements : list bool) (bs : list (InterpolationBatch F)) :
  batches_loop u i_src_grp tgt src tol fuel done_elements = Ok bs →
  ∃ gs : list (list nat),
    concat gs ≡ₚ np_where (negb <$> done_elements)
    ∧ Forall2 (λ g b, g ≠ [] ∧ ∃ e0, e0 < length done_elements
                 ∧ (close_to u tol e0 e0 → e0 ∈ g)
                 ∧ batch_of_positions u i_src_grp tgt src tol e0 g b) gs bs.
Proof.
  revert done_elements bs. induction fuel as [|fuel IH]; intros dn bs; simpl; [done|].
  destruct (np_where (negb <$> dn)) as [|first rest] eqn:Htodo.
  { intros [= <-]. exists []. split; [done|constructor]. }
  intros Hrun. inv_bind Hrun. rename x into dist, x0 into from_idx, x1 into to_idx.
  set (c := fst <$> filter (λ p, flt p.2 tol = true) (zip (first :: rest) dist)) in *.
  apply mapM_Ok in Hx.
  destruct (close_els_spec _ (λ r, flt r tol) _ _ Hx) as [Hcnd Hcin].
  { rewrite <-Htodo. apply NoDup_where_from. }
  fold c in Hcnd, Hcin.
  destruct c as [|c0 c'] eqn:Hc; [done|]. rewrite <-Hc in *.
  inv_bind Hrun. injection Hrun as <-. rename x into bs'.
  edestruct IH as (gs & Hperm & Hall); [eassumption|].
  assert (first < length dn) as Hfirst.
  { assert (first ∈ np_where (negb <$> dn)) as Hin by (rewrite Htodo; left).
    apply elem_of_np_where in Hin. rewrite list_lookup_fmap in Hin.
    apply lookup_lt_is_Some. destruct (dn !! first); [eauto|done]. }
  exists (c :: gs). split.
  - simpl. rewrite Hperm, <-Htodo. apply todo_split; [done|].
    intros e He. rewrite Htodo. by apply Hcin.
  - constructor.
    + split; [by rewrite Hc|]. exists first. split; [done|]. split.
      { intros Hself. apply Hcin. split; [left|exact Hself]. }
      split_and!; try done. intros e He. apply Hcin in He as [_ Hr]. exact Hr.
    + eapply Forall2_impl; [exact Hall|]. intros g b [Hg (e0 & He0 & Hb)].
      split; [done|]. exists e0. by rewrite length_mark_done in He0.
Qed.

Lemma mapM_total {A B} (f : A → Outcome F B) (l : list A) :
  Forall (λ x, ∃ y, f x = Ok y) l → ∃ k, mapM f l = Ok k.
Proof.
  induction 1 as [|x l [y Hy] _ [k Hk]]; simpl; [by eexists|].
  exists (y :: k). by rewrite Hy, Hk.
Qed.

Lemma np_max_Ok (v : list F) : v ≠ [] → ∃ r, np_max v = Ok r.
Proof. destruct v; [done|]. intros _. by eexists. Qed.

Lemma has_shape3_lookup (d n m : nat) (u : T3) (plane : list (list F)) (e : nat) :
  has_shape3 d n m u → plane ∈ u → e < n → length (plane !!! e) = m.
Proof.
  intros [_ Hu] Hin He. rewrite Forall_forall in Hu.
  destruct (Hu _ Hin) as [Hlen Hrows].
  destruct (lookup_lt_is_Some_2 plane e) as [row Hrow]; [lia|].
  rewrite (list_lookup_total_correct _ _ _ Hrow).
  rewrite Forall_forall in Hrows. apply Hrows.
  by eapply list_elem_of_lookup_2.
Qed.

Lemma unit_node_dist_of_Ok (d n m : nat) (u : T3) (e0 e : nat) :
  has_shape3 d n m u → 0 < d → 0 < m → e0 < n → e < n →
  ∃ r, unit_node_dist_of u (element_nodes u e0) e = Ok r.
Proof.
  intros Hu Hd Hm He0 He. unfold unit_node_dist_of.
  destruct (mapM_total
    (λ '(plane, trow), np_max (fabs <$> zip_with fsub (plane !!! e) trow))
    (zip u (element_nodes u e0))) as [per_axis Hper].
  { apply Forall_forall. intros [plane trow] Hin.
    apply np_max_Ok. intros Hnil.
    apply (f_equal length) in Hnil. rewrite length_fmap, length_zip_with in Hnil.
    pose proof (elem_of_zip_l _ _ _ _ Hin) as Hp.
    pose proof (elem_of_zip_r _ _ _ _ Hin) as Ht.
    unfold element_nodes in Ht. apply list_elem_of_fmap in Ht as (p' & -> & Hp').
    rewrite (has_shape3_lookup d n m u plane e) in Hnil by done.
    rewrite (has_shape3_lookup d n m u p' e0) in Hnil by done.
    simpl in Hnil. lia. }
  rewrite Hper. simpl. apply np_max_Ok.
  apply mapM_Ok_length in Hper. intros ->.
  rewrite length_zip in Hper. unfold element_nodes in Hper.
  rewrite length_fmap in Hper. destruct Hu as [Hlen _]. simpl in Hper. lia.
Qed.

Lemma batches_loop_total (d n m : nat) (u : T3) (i_src_grp : nat)
    (tgt src : list Z) (tol : F) (fuel : nat) (done_elements : list bool) :
  has_shape3 d n m u → 0 < d → 0 < m →
  length done_elements = n → n ≤ length tgt → n ≤ length src →
  (∀ e, e < n → close_to u tol e e) →
  length (np_where (negb <$> done_elements)) < fuel →
  ∃ bs, batches_loop u i_src_grp tgt src tol fuel done_elements = Ok bs.
Proof.
  intros Hu Hd Hm. revert done_elements.
  induction fuel as [|fuel IH]; intros dn Hdn Htgt Hsrc Hself Hfuel; [lia|].
  simpl. destruct (np_where (negb <$> dn)) as [|first rest] eqn:Htodo.
  { by eexists. }
  assert (∀ e, e ∈ first :: rest → e < n) as Hlt.
  { intros e He. rewrite <-Htodo in He. apply elem_of_np_where in He.
    rewrite list_lookup_fmap in He. rewrite <-Hdn. apply lookup_lt_is_Some.
    destruct (dn !! e); [eauto|done]. }
  assert (first < n) as Hfirst by (apply Hlt; left).
  destruct (mapM_total (unit_node_dist_of u (element_nodes u first))
              (first :: rest)) as [dist Hdist].
  { apply Forall_forall. intros e He.
    eapply unit_node_dist_of_Ok; eauto. }
  rewrite Hdist. cbn [mbind Outcome_bind].
  set (c := fst <$> filter (λ p, flt p.2 tol = true) (zip (first :: rest) dist)).
  pose proof Hdist as Hx. apply mapM_Ok in Hx.
  destruct (close_els_spec _ (λ r, flt r tol) _ _ Hx) as [Hcnd Hcin].
  { rewrite <-Htodo. apply NoDup_where_from. }
  fold c in Hcnd, Hcin.
  assert (first ∈ c) as Hfc.
  { apply Hcin. split; [left|]. apply Hself, Hfirst. }
  destruct (mapM_total (getnat (F:=F) src) c) as [from_idx ->].
  { apply Forall_forall. intros e He. apply Hcin in He as [He _].
    destruct (lookup_lt_is_Some_2 src e) as [z Hz]; [specialize (Hlt e He); lia|].
    exists z. by apply getnat_Ok. }
  destruct (mapM_total (getnat (F:=F) tgt) c) as [to_idx ->].
  { apply Forall_forall. intros e He. apply Hcin in He as [He _].
    destruct (lookup_lt_is_Some_2 tgt e) as [z Hz]; [specialize (Hlt e He); lia|].
    exists z. by apply getnat_Ok. }
  cbn [mbind Outcome_bind].
  destruct c as [|c0 c'] eqn:Hc; [by apply elem_of_nil in Hfc|]. rewrite <-Hc in *.
  destruct (IH (mark_done dn c)) as [bs' Hbs']; try done.
  { by rewrite length_mark_done. }
  { assert (length (c ++ np_where (negb <$> mark_done dn c))
            = length (first :: rest)) as Hlen.
    { rewrite <-Htodo. apply Permutation_length, todo_split; [done|].
      intros e He. rewrite Htodo. by apply Hcin. }
    assert (0 < length c) by (rewrite Hc; simpl; lia).
    rewrite length_app in Hlen. simpl in Hlen, Hfuel. lia. }
  rewrite Hbs'. by eexists.
Qed.
End batches_facts.

(** ** Claims about the batch partitioner *)

Section batches_claims.
Context {F : Type} `{Dtype F}.

Local Abbreviation T3 := (list (list (list F))).

Lemma np_where_not_done_initial (n : nat) :
  np_where (negb <$> replicate n false) ≡ₚ seq 0 n.
Proof.
  apply NoDup_Permutation; [apply NoDup_where_from|apply NoDup_seq|].
  intros e. rewrite elem_of_np_where, list_lookup_fmap, elem_of_seq.
  destruct (decide (e < n)) as [Hlt|Hge].
  - rewrite lookup_replicate_2 by done. simpl. split; [lia|done].
  - rewrite (proj1 (lookup_replicate_None n false e)) by lia. simpl.
    split; [done|lia].
Qed.

Lemma shape3_of_has_shape3 (d n m : nat) (u : T3) :
  has_shape3 d n m u → 0 < d → (shape3 u).1 = (d, n).
Proof.
  intros [Hlen Hu] Hd. unfold shape3. simpl. rewrite Hlen. f_equal.
  destruct u as [|plane u]; [simpl in Hlen; lia|]. simpl.
  apply Forall_cons in Hu as [[Hp _] _]. done.
Qed.

(** C5, as amended.  When every element is within [tol] of itself (true of
    finite coordinates and a positive [tol]), the partitioner returns, and
    its batches partition the elements: the position lists [gs] of the
    batches are a rearrangement of [0 .. n-1], every batch holds the
    elements at its positions, its template [e0] is one of them, and every
    element of the batch is within [tol] of the template in max-norm. *)
Theorem batches_partition_close_to_template (d n m : nat) (u : T3)
    (i_src_grp : nat) (tgt src : list Z) (tol : F) :
  has_shape3 d n m u → 0 < d → 0 < m →
  length tgt = n → length src = n →
  (∀ e, e < n → close_to u tol e e) →
  ∃ (bs : list (InterpolationBatch F)) (gs : list (list nat)),
    _find_src_unit_nodes_batches u i_src_grp tgt src tol = Ok bs
    ∧ concat gs ≡ₚ seq 0 n
    ∧ Forall2 (λ g b, ∃ e0, e0 ∈ g
                 ∧ batch_of_positions u i_src_grp tgt src tol e0 g b) gs bs.
Proof.
  intros Hu Hd Hm Htgt Hsrc Hself.
  unfold _find_src_unit_nodes_batches.
  pose proof (shape3_of_has_shape3 _ _ _ _ Hu Hd) as Hshape.
  destruct (shape3 u) as [[d' n'] m']. simpl in Hshape. injection Hshape as -> ->.
  rewrite decide_False by lia.
  destruct (batches_loop_total d n m u i_src_grp tgt src tol (S n)
              (replicate n false)) as [bs Hbs]; try done; try lia.
  { by rewrite length_replicate. }
  { rewrite np_where_not_done_initial, length_seq. lia. }
  exists bs. destruct (batches_loop_Ok _ _ _ _ _ _ _ _ Hbs) as (gs & Hperm & Hall).
  exists gs. split_and!; [done|by rewrite Hperm, np_where_not_done_initial|].
  eapply Forall2_impl; [exact Hall|]. intros g b (_ & e0 & He0 & Hin & Hb).
  exists e0. split; [|done]. apply Hin, Hself.
  by rewrite length_replicate in He0.
Qed.

(** C3, as amended.  In every batch that the partitioner yields the two
    index arrays have one length, and [result_unit_nodes] is the
    two-dimensional pattern of the template, of shape (dim, n_target_nodes). *)
Theorem batch_index_lengths_and_pattern_shape (d n m : nat) (u : T3)
    (i_src_grp : nat) (tgt src : list Z) (tol : F)
    (bs : list (InterpolationBatch F)) :
  has_shape3 d n m u →
  _find_src_unit_nodes_batches u i_src_grp tgt src tol = Ok bs →
  ∀ b, b ∈ bs →
    length (from_element_indices b) = length (to_element_indices b)
    ∧ has_shape2 d m (result_unit_nodes b).
Proof.
  intros Hu. unfold _find_src_unit_nodes_batches.
  destruct (shape3 u) as [[d' n'] m'] eqn:Hshape.
  case_decide as Hd0; [done|]. intros Hrun b Hb.
  assert (d' = length u) as -> by (unfold shape3 in Hshape; congruence).
  assert (0 < d) as Hd by (destruct Hu as [<- _]; lia).
  pose proof (shape3_of_has_shape3 _ _ _ _ Hu Hd) as Hs.
  rewrite Hshape in Hs. simpl in Hs. injection Hs as Hlen ->.
  destruct (batches_loop_Ok _ _ _ _ _ _ _ _ Hrun) as (gs & _ & Hall).
  apply (Forall2_Forall_r _ (λ b, length (from_element_indices b)
                                   = length (to_element_indices b)
                                   ∧ has_shape2 d m (result_unit_nodes b))) in Hall.
  { rewrite Forall_forall in Hall. by apply Hall. }
  apply Forall_forall. intros g _ b' (_ & e0 & He0 & _ & Hb').
  destruct Hb' as (_ & _ & Hres & Hfrom & Hto & _).
  apply mapM_Ok_length in Hfrom, Hto. split; [congruence|].
  rewrite Hres. unfold element_nodes. split.
  - rewrite length_fmap. by destruct Hu.
  - apply Forall_fmap, Forall_forall. intros plane Hplane. simpl.
    rewrite length_replicate in He0.
    by eapply has_shape3_lookup.
Qed.
End batches_claims.

Section batches_examples.
Import PrimFloat Float64 Examples.

(** The premises of the amended C5 hold of the three nearby elements. *)
Lemma batches_partition_close_to_template_witness :
  ∃ (bs : list (InterpolationBatch float)) (gs : list (list nat)),
    _find_src_unit_nodes_batches nodes_near 0 [10; 11; 12]%Z [20; 21; 22]%Z tol
    = Ok bs
    ∧ concat gs ≡ₚ seq 0 3
    ∧ Forall2 (λ g b, ∃ e0, e0 ∈ g
        ∧ batch_of_positions nodes_near 0 [10; 11; 12]%Z [20; 21; 22]%Z tol
            e0 g b) gs bs.
Proof.
  apply (batches_partition_close_to_template 1 3 2).
  - split; [done|]. repeat constructor.
  - lia.
  - lia.
  - done.
  - done.
  - intros e He. unfold close_to.
    destruct e as [|[|[|e]]]; [| | |lia]; eexists; split;
      vm_compute; reflexivity.
Defined.

(** C5 as stated fails: the three elements land in one batch, yet the
    second and the third differ by 2^-38, which is not below [tol]. *)
Lemma same_batch_pair_not_within_tol :
  ∃ b r,
    _find_src_unit_nodes_batches nodes_near 0 [0; 1; 2]%Z [0; 1; 2]%Z tol = Ok [b]
    ∧ to_element_indices b = [0; 1; 2]%Z
    ∧ unit_node_dist_of nodes_near (element_nodes nodes_near 1) 2 = Ok r
    ∧ flt r tol = false.
Proof.
  eexists _, _. split_and!; vm_compute; reflexivity.
Qed.

Lemma batch_index_lengths_and_pattern_shape_witness :
  has_shape3 1 2 3 nodes_same
  ∧ _find_src_unit_nodes_batches nodes_same 0 [3; 4]%Z [7; 8]%Z tol
    = Ok [batch_same]
  ∧ length (from_element_indices batch_same)
    = length (to_element_indices batch_same)
  ∧ has_shape2 1 3 (result_unit_nodes batch_same).
Proof.
  assert (has_shape3 1 2 3 nodes_same) as Hshape.
  { split; [done|]. repeat constructor. }
  assert (_find_src_unit_nodes_batches nodes_same 0 [3; 4]%Z [7; 8]%Z tol
          = Ok [batch_same]) as Hrun by (vm_compute; reflexivity).
  split; [exact Hshape|]. split; [exact Hrun|].
  apply (batch_index_lengths_and_pattern_shape 1 2 3 nodes_same 0
           [3; 4]%Z [7; 8]%Z tol [batch_same] Hshape Hrun).
  left.
Defined.

(** C3 as stated fails: a batch of two elements whose pattern has three
    nodes, so that [result_unit_nodes.shape[1]] is 3 and not 2. *)
Lemma batch_length_differs_from_pattern_extent :
  ∃ b,
    _find_src_unit_nodes_batches nodes_same 0 [3; 4]%Z [7; 8]%Z tol = Ok [b]
    ∧ length (from_element_indices b) = 2
    ∧ length (to_element_indices b) = 2
    ∧ (shape2 (result_unit_nodes b)).2 = 3.
Proof.
  eexists. split_and!; vm_compute; reflexivity.
Qed.
End batches_examples.

(** ** The L2 projection *)

Section projection_claims.
Context {F : Type}.

Lemma collect_reversed_mapM {A B} (f : A → Outcome F B) (l : list A) :
  collect_reversed f l = mapM f (rev l).
Proof.
  induction l as [|x l IH]; [done|].
  change (collect_reversed f (x :: l))
    with (conns ← collect_reversed f l; c ← f x; Ok (conns ++ [c])).
  change (rev (x :: l)) with (rev l ++ [x]).
  rewrite mapM_app, IH. destruct (mapM f (rev l)) as [k| |]; simpl; [|done..].
  by destruct (f x).
Qed.

(** C8.  The projection of a chain with links is the chain of the
    projections of its links, taken in reversed order (and built in that
    order, so that the first link to fail decides the error); an empty
    chain comes back as it is. *)
Theorem L2_new_chained (links : list (Connection F)) (is_surjective : bool) :
  L2_new (F:=F) (Chained []) is_surjective = Ok (Chained [])
  ∧ (links ≠ [] →
     L2_new (Chained links) is_surjective
     = conns ← mapM (λ cnx, L2_new cnx is_surjective) (rev links);
       Ok (Chained conns)).
Proof.
  split; [done|]. intros Hne. destruct links as [|cnx links]; [done|].
  change (L2_new (Chained (cnx :: links)) is_surjective)
    with (conns ← collect_reversed (λ cnx, L2_new cnx is_surjective) (cnx :: links);
          Ok (Chained conns)).
  by rewrite collect_reversed_mapM.
Qed.

(** C7, as amended.  Constructing the projection of a direct connection
    raises exactly when the dimensions of its two discretizations differ or
    a group of its [to_discr] has no orthonormal basis; otherwise it
    succeeds, whatever the kind of the element groups, and swaps the two
    discretizations.  The interpolatory check sits in [_batch_weights],
    which runs when the projection is applied: it does not return weights
    when a group of the projection's [to_discr] is not interpolatory. *)
Theorem L2_new_direct (conn : DirectDiscretizationConnection F)
    (is_surjective : bool) :
  (L2_new (Direct conn) is_surjective
     = Raise (RuntimeError CannotTransportFaceToElement)
   ↔ discr_dim (from_discr conn) ≠ discr_dim (to_discr conn))
  ∧ (L2_new (Direct conn) is_surjective = Raise (RuntimeError ToDiscrNotOrthonormal)
     ↔ discr_dim (from_discr conn) = discr_dim (to_discr conn)
       ∧ ∃ g, g ∈ discr_groups (to_discr conn) ∧ is_orthonormal_basis g = false)
  ∧ (L2_new (Direct conn) is_surjective
       = Ok (L2ProjectionInverse conn (to_discr conn) (from_discr conn) is_surjective)
     ↔ discr_dim (from_discr conn) = discr_dim (to_discr conn)
       ∧ ∀ g, g ∈ discr_groups (to_discr conn) → is_orthonormal_basis g = true)
  ∧ (∀ e, L2_new (Direct conn) is_surjective = Raise e →
       e = RuntimeError CannotTransportFaceToElement
       ∨ e = RuntimeError ToDiscrNotOrthonormal)
  ∧ L2_new (Direct conn) is_surjective ≠ Hang
  ∧ (∀ scaled_weights weights,
       _batch_weights scaled_weights conn (from_discr conn) = Ok weights →
       ∀ g, g ∈ discr_groups (from_discr conn) → is_interpolatory g = true).
Proof.
  change (L2_new (Direct conn) is_surjective) with (L2_init conn is_surjective).
  unfold L2_init.
  assert (forallb is_orthonormal_basis (discr_groups (to_discr conn)) = false
          ↔ ∃ g, g ∈ discr_groups (to_discr conn) ∧ is_orthonormal_basis g = false)
    as Hex.
  { induction (discr_groups (to_discr conn)) as [|g gs IH]; simpl.
    - split; [done|]. by intros (g & ?%elem_of_nil & _).
    - rewrite andb_false_iff, IH. split.
      + intros [Hg|(g' & Hin & Hg')]; [exists g|exists g']; split;
          auto using list_elem_of_here, list_elem_of_further.
      + intros (g' & [->|Hin]%elem_of_cons & Hg'); eauto. }
  assert (forallb is_orthonormal_basis (discr_groups (to_discr conn)) = true
          ↔ ∀ g, g ∈ discr_groups (to_discr conn) → is_orthonormal_basis g = true)
    as Hall.
  { rewrite forallb_forall. split; intros Hg g Hin; apply Hg;
      by apply list_elem_of_In. }
  split_and!.
  - case_decide as Hdim; [done|]. split; [|done].
    by destruct (forallb _ _).
  - case_decide as Hdim; [split; [done|tauto]|].
    destruct (forallb _ _) eqn:Hb; simpl.
    + split; [done|]. intros [_ Hg]. apply Hex in Hg. congruence.
    + split; [|done]. intros _. split; [|by apply Hex].
      destruct (decide (discr_dim (from_discr conn) = discr_dim (to_discr conn)));
        tauto.
  - case_decide as Hdim; [split; [done|tauto]|].
    destruct (forallb _ _) eqn:Hb; simpl.
    + split; [|done]. intros _. split; [|by apply Hall].
      destruct (decide (discr_dim (from_discr conn) = discr_dim (to_discr conn)));
        tauto.
    + split; [done|]. intros [_ Hg]. apply Hall in Hg. congruence.
  - intros e. case_decide as Hdim; [intros [= <-]; by left|].
    destruct (forallb _ _); simpl; [done|]. intros [= <-]. by right.
  - case_decide as Hdim; [done|]. by destruct (forallb _ _).
  - intros scaled_weights weights Hrun g Hg.
    unfold _batch_weights in Hrun.
    apply list_elem_of_lookup in Hg as [i Hi].
    assert ((i, g) ∈ imap pair (discr_groups (from_discr conn))) as Hin.
    { apply list_elem_of_lookup. exists i. by rewrite list_lookup_imap, Hi. }
    refine (for_each_items (λ p, is_interpolatory p.2 = true) _ _ _ _ _
              Hrun (i, g) Hin).
    intros w [j g'] w' _ Hbody. simpl in *. by destruct (is_interpolatory g').
Qed.
End projection_claims.

Section projection_examples.
Import PrimFloat Float64 Examples.

Lemma L2_new_chained_witness :
  [Direct modal_conn; Chained []] ≠ []
  ∧ L2_new (Chained [Direct modal_conn; Chained []]) false
    = Ok (Chained [Chained [];
                   L2ProjectionInverse modal_conn modal_discr modal_discr false]).
Proof.
  split; [done|].
  rewrite (proj2 (L2_new_chained [Direct modal_conn; Chained []] false)) by done.
  reflexivity.
Defined.

(** C7 as stated fails: every group of [modal_conn] is non-interpolatory,
    and yet the construction succeeds; only [_batch_weights] refuses. *)
Lemma L2_new_accepts_non_interpolatory :
  (∃ g, g ∈ discr_groups (from_discr modal_conn) ∧ is_interpolatory g = false)
  ∧ (∃ g, g ∈ discr_groups (to_discr modal_conn) ∧ is_interpolatory g = false)
  ∧ L2_new (Direct modal_conn) false
    = Ok (L2ProjectionInverse modal_conn modal_discr modal_discr false)
  ∧ _batch_weights (λ _ _, Ok []) modal_conn (from_discr modal_conn)
    = Raise ValueError.
Proof.
  split_and!; [exists modal_grp; split; [left|done]..|done|done].
Qed.
End projection_examples.

(** ** What the batches of one call carry *)

Section cross_face_facts.
Context {F : Type} `{Dtype F} `{Linalg F}.

Local Abbreviation T3 := (list (list (list F))).

Lemma mapM_Permutation {A B} (f : A → Outcome F B) (l l' : list A) (k : list B) :
  l ≡ₚ l' → mapM f l = Ok k → ∃ k', mapM f l' = Ok k' ∧ k ≡ₚ k'.
Proof.
  intros Hperm. revert k.
  induction Hperm as [|x l l' _ IH|x y l|l1 l2 l3 _ IH1 _ IH2]; intros k Hk.
  - by exists k.
  - simpl in Hk. apply bind_Ok in Hk as (y & Hy & Hk).
    apply bind_Ok in Hk as (k1 & Hk1 & [= <-]).
    destruct (IH _ Hk1) as (k' & Hk' & Hp). exists (y :: k'). simpl.
    rewrite Hy, Hk'. split; [done|]. by constructor.
  - simpl in Hk. apply bind_Ok in Hk as (y1 & Hy1 & Hk).
    apply bind_Ok in Hk as (k1 & Hk1 & [= <-]).
    apply bind_Ok in Hk1 as (y2 & Hy2 & Hk1).
    apply bind_Ok in Hk1 as (k2 & Hk2 & [= <-]).
    exists (y2 :: y1 :: k2). simpl.
    rewrite Hy2, Hy1. simpl. rewrite Hk2. split; [done|]. constructor.
  - destruct (IH1 _ Hk) as (k2 & Hk2 & Hp2).
    destruct (IH2 _ Hk2) as (k3 & Hk3 & Hp3). exists k3. split; [done|].
    by etrans.
Qed.

Lemma mapM_getnat_seq {A} (l : list A) :
  mapM (getnat (F:=F) l) (seq 0 (length l)) = Ok l.
Proof.
  apply mapM_Ok. apply Forall2_same_length_lookup. split.
  - by rewrite length_seq.
  - intros i j x Hj Hx. apply lookup_seq in Hj as [-> _]. by apply getnat_Ok.
Qed.

Lemma mapM_concat {A B} (f : A → Outcome F B) (ls : list (list A))
    (ks : list (list B)) :
  Forall2 (λ l k, mapM f l = Ok k) ls ks → mapM f (concat ls) = Ok (concat ks).
Proof.
  induction 1 as [|l k ls ks Hl _ IH]; [done|]. simpl.
  by rewrite mapM_app, Hl, IH.
Qed.

(** The batches of one run of the partitioner carry every target element
    once. *)
Lemma batches_cover_targets (u : T3) (i_src_grp : nat) (tgt src : list Z)
    (tol : F) (bs : list (InterpolationBatch F)) :
  _find_src_unit_nodes_batches u i_src_grp tgt src tol = Ok bs →
  (shape3 u).1.2 = length tgt →
  concat (to_element_indices <$> bs) ≡ₚ tgt.
Proof.
  unfold _find_src_unit_nodes_batches.
  destruct (shape3 u) as [[d n] m]. case_decide as Hd; [done|].
  intros Hrun Hlen. cbn [fst snd] in Hlen. subst n.
  destruct (batches_loop_Ok _ _ _ _ _ _ _ _ Hrun) as (gs & Hperm & Hall).
  rewrite np_where_not_done_initial in Hperm.
  assert (mapM (getnat (F:=F) tgt) (concat gs)
          = Ok (concat (to_element_indices <$> bs))) as Hto.
  { apply mapM_concat. apply Forall2_fmap_r.
    eapply Forall2_impl; [exact Hall|]. intros g b (_ & e0 & _ & _ & Hb).
    apply Hb. }
  destruct (mapM_Permutation _ _ _ _ Hperm Hto) as (k' & Hk' & Hp).
  rewrite mapM_getnat_seq in Hk'. injection Hk' as <-. done.
Qed.

Lemma batches_no_face (u : T3) (i_src_grp : nat) (tgt src : list Z)
    (tol : F) (bs : list (InterpolationBatch F)) :
  _find_src_unit_nodes_batches u i_src_grp tgt src tol = Ok bs →
  ∀ b, b ∈ bs → to_element_face b = None.
Proof.
  unfold _find_src_unit_nodes_batches.
  destruct (shape3 u) as [[d n] m]. case_decide as Hd; [done|].
  intros Hrun.
  destruct (batches_loop_Ok _ _ _ _ _ _ _ _ Hrun) as (gs & _ & Hall).
  apply Forall2_Forall_r with (Q := λ b, to_element_face b = None) in Hall.
  { by rewrite Forall_forall in Hall. }
  apply Forall_forall. intros g _ b (_ & e0 & _ & _ & Hb). apply Hb.
Qed.

Lemma batches_same_lengths (u : T3) (i_src_grp : nat) (tgt src : list Z)
    (tol : F) (bs : list (InterpolationBatch F)) :
  _find_src_unit_nodes_batches u i_src_grp tgt src tol = Ok bs →
  ∀ b, b ∈ bs →
    length (from_element_indices b) = length (to_element_indices b).
Proof.
  unfold _find_src_unit_nodes_batches.
  destruct (shape3 u) as [[d n] m]. case_decide as Hd; [done|].
  intros Hrun.
  destruct (batches_loop_Ok _ _ _ _ _ _ _ _ Hrun) as (gs & _ & Hall).
  apply Forall2_Forall_r
    with (Q := λ b, length (from_element_indices b)
                    = length (to_element_indices b)) in Hall.
  { by rewrite Forall_forall in Hall. }
  apply Forall_forall. intros g _ b (_ & e0 & _ & _ & Hb).
  destruct Hb as (_ & _ & _ & Hfrom & Hto & _).
  apply mapM_Ok_length in Hfrom, Hto. congruence.
Qed.

(** *** Extents along the element axis *)

(** The extent of the second axis, as [shape3] reads it. *)
Definition nelements_of (a : T3) : nat := (shape3 a).1.2.

(** [dim] planes with [nel] rows each. *)
Definition regular (dim nel : nat) (u : T3) : Prop :=
  length u = dim ∧ Forall (λ plane, length plane = nel) u.

Lemma length_tabulate {B} (n : nat) (f : nat → B) : length (tabulate n f) = n.
Proof. unfold tabulate. by rewrite length_fmap, length_seq. Qed.

Lemma regular_tabulate (dim nel : nat) (f : nat → list (list F)) :
  (∀ r, length (f r) = nel) → regular dim nel (tabulate dim f).
Proof.
  intros Hf. split; [apply length_tabulate|].
  unfold tabulate. apply Forall_fmap, Forall_forall. intros r _. apply Hf.
Qed.

Lemma regular_zip_with3 (dim nel : nat) (f : F → F → F) (a b : T3) :
  regular dim nel a → regular dim nel b → regular dim nel (zip_with3 f a b).
Proof.
  intros [Ha1 Ha2] [Hb1 Hb2]. unfold zip_with3. split.
  - rewrite length_zip_with. lia.
  - clear Ha1 Hb1. revert b Hb2.
    induction Ha2 as [|p a Hp _ IH]; intros b Hb2; [constructor|].
    destruct Hb2 as [|q b Hq Hb2]; [constructor|]. simpl. constructor.
    + rewrite length_zip_with. lia.
    + by apply IH.
Qed.

Lemma regular_nelements (dim nel : nat) (u : T3) :
  regular dim nel u → dim ≠ 0 → nelements_of u = nel.
Proof.
  intros [Hlen Hu] Hdim. unfold nelements_of, shape3. simpl.
  destruct u as [|plane u]; [simpl in Hlen; lia|]. simpl.
  by apply Forall_cons in Hu as [? _].
Qed.

Lemma solve_df_inv_resid_regular (tgt src : T3) (grp : ElementGroup F)
    (df : list T3) (resid s : T3) :
  solve_df_inv_resid tgt src grp df resid = Ok s →
  regular (grp_dim grp) (nelements_of tgt) s.
Proof.
  unfold solve_df_inv_resid, nelements_of.
  destruct (grp_dim grp) as [|[|[|dim]]] eqn:Hdim.
  - intros Hs. apply bind_Ok in Hs as (sols & _ & [= <-]).
    split; [done|constructor].
  - intros [= <-]. split; [done|]. repeat constructor. apply length_tabulate.
  - intros [= <-]. split; [done|]. repeat constructor; apply length_tabulate.
  - intros Hs. apply bind_Ok in Hs as (sols & Hsols & [= <-]).
    apply mapM_Ok_length in Hsols. rewrite length_seq in Hsols.
    apply regular_tabulate. intros r. by rewrite length_fmap.
Qed.

Lemma newton_step_regular (tgt src : T3) (grp : ElementGroup F) (tol : F)
    (inv_t_vdm : list (list F)) (u u' : T3) (r : F) :
  newton_step tgt src grp tol inv_t_vdm u = Ok (r, u') →
  regular (grp_dim grp) (nelements_of tgt) u →
  regular (grp_dim grp) (nelements_of tgt) u' ∧ grp_dim grp ≠ 0.
Proof.
  unfold newton_step. intros Hstep Hu.
  apply bind_Ok in Hstep as (mapped & Hmap & Hstep).
  apply bind_Ok in Hstep as (s & Hs & Hstep).
  apply bind_Ok in Hstep as (mr & _ & [= _ <-]).
  split.
  - apply regular_zip_with3; [done|]. by eapply solve_df_inv_resid_regular.
  - unfold apply_map in Hmap. cbv zeta in Hmap.
    by destruct (decide (grp_dim grp = 0)).
Qed.

Lemma newton_loop_regular (tgt src : T3) (grp : ElementGroup F) (tol : F)
    (inv_t_vdm : list (list F)) (fuel niter : nat) (u u' : T3) :
  newton_loop tgt src grp tol inv_t_vdm fuel niter u = Ok u' →
  regular (grp_dim grp) (nelements_of tgt) u →
  regular (grp_dim grp) (nelements_of tgt) u' ∧ grp_dim grp ≠ 0.
Proof.
  revert niter u. induction fuel as [|fuel IH]; intros niter u; simpl; [done|].
  intros Hrun Hu. apply bind_Ok in Hrun as ([r u1] & Hstep & Hrun).
  destruct (newton_step_regular _ _ _ _ _ _ _ _ Hstep Hu) as [Hu1 Hdim].
  destruct (flt r tol); [by injection Hrun as <-|].
  destruct (10 <? S niter); [done|]. by eapply IH.
Qed.

Lemma gauss_newton_nelements (tgt src : T3) (grp : ElementGroup F)
    (mgrp : MeshGroup F) (tol : F) (u : T3) :
  _find_src_unit_nodes_via_gauss_newton tgt src grp mgrp tol = Ok u →
  nelements_of u = nelements_of tgt.
Proof.
  unfold _find_src_unit_nodes_via_gauss_newton. intros Hrun.
  apply bind_Ok in Hrun as (u0 & Hu0 & Hrun).
  destruct (la_inv _) as [inv_t_vdm|]; [|done].
  assert (regular (grp_dim grp) (nelements_of tgt) u0) as Hreg.
  { unfold initial_src_unit_nodes in Hu0. case_decide in Hu0 as Hd; [|done].
    injection Hu0 as <-. apply regular_tabulate. intros r.
    apply length_tabulate. }
  destruct (newton_loop_regular _ _ _ _ _ _ _ _ _ Hrun Hreg) as [Hu Hdim].
  by eapply regular_nelements.
Qed.

Lemma matching_nelements (tgt src : T3) (grp : ElementGroup F) (tol : F)
    (u : T3) :
  _find_src_unit_nodes_by_matching tgt src grp tol = Ok (Some u) →
  u = [] ∨ nelements_of u = nelements_of tgt.
Proof.
  unfold _find_src_unit_nodes_by_matching, nelements_of.
  destruct (shape3 tgt) as [[ambient_dim nelements] ntgt]. simpl.
  case_decide as Hk; [done|].
  destruct (negb _); [done|]. intros Hrun.
  apply bind_Ok in Hrun as (source_indices & Hsi & Hrun).
  apply bind_Ok in Hrun as (? & _ & Hrun).
  apply bind_Ok in Hrun as (r & Hr & [= <-]).
  unfold reshape2 in Hsi. case_decide in Hsi as Hlen; [|done].
  injection Hsi as <-.
  apply mapM_Ok in Hr. destruct Hr as [|urow plane rows planes Hplane _]; [by left|].
  right. simpl. apply mapM_Ok_length in Hplane.
  rewrite Hplane. apply length_tabulate.
Qed.

Lemma matching_returns_nonempty (tgt src : T3) (grp : ElementGroup F) (tol : F)
    (r : option T3) :
  _find_src_unit_nodes_by_matching tgt src grp tol = Ok r →
  nelements_of tgt ≠ 0 ∧ tgt ≠ [].
Proof.
  unfold _find_src_unit_nodes_by_matching, nelements_of.
  destruct (shape3 tgt) as [[a n] m] eqn:Hs. cbn [fst snd].
  case_decide as Hk; [done|]. intros _. split.
  - intros ->. apply Hk. left. lia.
  - intros ->. apply Hk. left. unfold shape3 in Hs. simpl in Hs.
    by injection Hs as <- _ _.
Qed.

Lemma AffineMap_call_nelements (aff : AffineMap F) (vecs : T3) :
  AffineMap_call aff vecs = [] ∨
  nelements_of (AffineMap_call aff vecs) = nelements_of vecs.
Proof.
  unfold AffineMap_call, nelements_of.
  destruct (shape3 vecs) as [[a n] m] eqn:Hshape.
  assert (n = (shape3 vecs).1.2) as Hn by (by rewrite Hshape).
  set (mapped := match aff_matrix aff with Some _ => _ | None => vecs end).
  assert (mapped = [] ∨ (shape3 mapped).1.2 = n) as Hmapped.
  { subst mapped. destruct (aff_matrix aff) as [mat|]; [|by right].
    destruct mat as [|row mat]; [by left|]. right.
    unfold shape3, tabulate. simpl. by rewrite length_fmap, length_seq. }
  clearbody mapped. cbn [fst snd].
  destruct (aff_offset aff) as [off|]; [|done].
  destruct Hmapped as [->|Hm]; [by left|]. right.
  rewrite <-Hm. destruct mapped as [|plane mapped]; [done|].
  unfold shape3. simpl. by rewrite length_fmap.
Qed.

Lemma bdry_nodes_of_nelements (discr : Discretization F) (i_grp : nat)
    (idx : list Z) (aff : option (AffineMap F)) (nodes : T3) :
  bdry_nodes_of discr i_grp idx aff = Ok nodes →
  nodes = [] ∨ nelements_of nodes = 0 ∨ nelements_of nodes = length idx.
Proof.
  unfold bdry_nodes_of. intros Hrun.
  apply bind_Ok in Hrun as (vecs & Hvecs & [= <-]).
  destruct (AffineMap_call_nelements (default AffineMap_default aff) vecs)
    as [-> | ->]; [by left|]. right.
  apply mapM_Ok in Hvecs. destruct Hvecs as [|ary plane arys planes Hplane _].
  - by left.
  - right. apply bind_Ok in Hplane as (grp_ary & _ & Hplane).
    apply mapM_Ok_length in Hplane. done.
Qed.

(** The batches of one call of [_make_cross_face_batches] carry every target
    element once. *)
Lemma cross_face_batches_cover_targets (tgt_discr src_discr : Discretization F)
    (i_tgt_grp i_src_grp : nat) (tgt_idx src_idx : list Z)
    (tgt_aff src_aff : option (AffineMap F))
    (bs : list (InterpolationBatch F)) :
  _make_cross_face_batches tgt_discr src_discr i_tgt_grp i_src_grp
    tgt_idx src_idx tgt_aff src_aff = Ok bs →
  concat (to_element_indices <$> bs) ≡ₚ tgt_idx.
Proof.
  unfold _make_cross_face_batches. case_decide as Hdim.
  { intros Hrun. apply bind_Ok in Hrun as (src_grp & _ & [= <-]). simpl.
    by rewrite app_nil_r. }
  intros Hrun.
  apply bind_Ok in Hrun as (tgt_nodes & Htgt & Hrun).
  apply bind_Ok in Hrun as (src_nodes & Hsrc & Hrun).
  apply bind_Ok in Hrun as (src_mesh_grp & _ & Hrun).
  apply bind_Ok in Hrun as (src_grp & _ & Hrun).
  apply bind_Ok in Hrun as (matched & Hmatched & Hrun).
  apply bind_Ok in Hrun as (u & Hu & Hrun).
  assert (u = [] ∨ nelements_of u = nelements_of tgt_nodes) as Hnel.
  { destruct matched as [u'|].
    - injection Hu as <-. by eapply matching_nelements.
    - right. by eapply gauss_newton_nelements. }
  destruct Hnel as [->|Hnel]; [done|].
  destruct (matching_returns_nonempty _ _ _ _ _ Hmatched) as [Hn0 Hne].
  eapply batches_cover_targets; [exact Hrun|].
  fold (nelements_of u). rewrite Hnel.
  by destruct (bdry_nodes_of_nelements _ _ _ _ _ Htgt) as [?|[?|?]].
Qed.

Lemma cross_face_batches_no_face (tgt_discr src_discr : Discretization F)
    (i_tgt_grp i_src_grp : nat) (tgt_idx src_idx : list Z)
    (tgt_aff src_aff : option (AffineMap F))
    (bs : list (InterpolationBatch F)) :
  _make_cross_face_batches tgt_discr src_discr i_tgt_grp i_src_grp
    tgt_idx src_idx tgt_aff src_aff = Ok bs →
  ∀ b, b ∈ bs → to_element_face b = None.
Proof.
  unfold _make_cross_face_batches. case_decide as Hdim.
  { intros Hrun. apply bind_Ok in Hrun as (src_grp & _ & [= <-]).
    by intros b ->%list_elem_of_singleton. }
  intros Hrun.
  apply bind_Ok in Hrun as (tgt_nodes & Htgt & Hrun).
  apply bind_Ok in Hrun as (src_nodes & Hsrc & Hrun).
  apply bind_Ok in Hrun as (src_mesh_grp & _ & Hrun).
  apply bind_Ok in Hrun as (src_grp & _ & Hrun).
  apply bind_Ok in Hrun as (matched & Hmatched & Hrun).
  apply bind_Ok in Hrun as (u & Hu & Hrun).
  by eapply batches_no_face.
Qed.
End cross_face_facts.

(** ** The two builders *)

Section builder_facts.
Context {F : Type} `{Dtype F} `{Linalg F}.

(** Lists of batches, one per group, all of whose batches satisfy a
    property that may depend on the group. *)
Definition all_batches (n : nat) (Q : nat → InterpolationBatch F → Prop)
    (grps : list (list (InterpolationBatch F))) : Prop :=
  length grps = n ∧ ∀ i bs b, grps !! i = Some bs → b ∈ bs → Q i b.

Lemma all_batches_initial (n : nat) (Q : nat → InterpolationBatch F → Prop) :
  all_batches n Q (replicate n []).
Proof.
  split; [by rewrite length_replicate|].
  intros i bs b [-> _]%lookup_replicate Hb. by apply elem_of_nil in Hb.
Qed.

Lemma all_batches_extend (n : nat) (Q : nat → InterpolationBatch F → Prop)
    (grps grps' : list (list (InterpolationBatch F))) (i : nat)
    (new_batches : list (InterpolationBatch F)) :
  all_batches n Q grps →
  extend_group (F:=F) grps i new_batches = Ok grps' →
  (∀ b, b ∈ new_batches → Q i b) →
  all_batches n Q grps'.
Proof.
  intros [Hlen HQ] Hext Hnew. unfold extend_group in Hext.
  apply bind_Ok in Hext as (old & Hold%getnat_Ok & [= <-]).
  split; [by rewrite length_insert|].
  intros j bs b Hj Hb. apply list_lookup_insert_Some in Hj
    as [(<- & <- & _)|[Hne Hj]]; [|by eapply HQ].
  apply elem_of_app in Hb as [Hb|Hb]; [by eapply HQ|by apply Hnew].
Qed.

Lemma all_batches_groups (n : nat) (Q : nat → InterpolationBatch F → Prop)
    (grps : list (list (InterpolationBatch F))) :
  all_batches n Q grps →
  length ((λ bs, {| batches := bs |}) <$> grps) = n
  ∧ ∀ i g b, ((λ bs, {| batches := bs |}) <$> grps) !! i = Some g →
      b ∈ batches g → Q i b.
Proof.
  intros [Hlen HQ]. split; [by rewrite length_fmap|].
  intros i g b Hg Hb. rewrite list_lookup_fmap in Hg.
  destruct (grps !! i) as [bs|] eqn:Hbs; [|done].
  injection Hg as <-. by eapply HQ.
Qed.

(** No batch that the loops of [make_opposite_face_connection] collect
    names a face. *)
Lemma opposite_face_loops_no_face (conn : DirectDiscretizationConnection F)
    (grps : list (list (InterpolationBatch F))) :
  let vol_mesh := discr_mesh (from_discr conn) in
  let ngrps := length (groups conn) in
  for_each (seq 0 ngrps)
    (λ grps i_src_grp,
       src_grp_el_lookup ← _make_bdry_el_lookup_table conn i_src_grp;
       for_each (seq 0 ngrps)
         (λ grps i_tgt_grp,
            adj_grps ← interior_adj_grps vol_mesh i_tgt_grp i_src_grp;
            for_each adj_grps
              (λ grps adj,
                 tgt_mesh_grp ← getnat (mesh_groups vol_mesh) i_tgt_grp;
                 for_each (seq 0 (nfaces tgt_mesh_grp))
                   (opposite_face_step conn src_grp_el_lookup
                      i_src_grp i_tgt_grp adj)
                   grps)
              grps)
         grps)
    (replicate ngrps []) = Ok grps →
  all_batches ngrps (λ _ b, to_element_face b = None) grps.
Proof.
  intros vol_mesh ngrps Hrun.
  set (P := all_batches ngrps (λ _ b, to_element_face b = None)).
  eapply (for_each_invariant P); [|apply all_batches_initial|exact Hrun].
  clear Hrun grps. intros grps i_src_grp grps' _ HP Hrun.
  apply bind_Ok in Hrun as (lookup & _ & Hrun).
  eapply (for_each_invariant P); [|exact HP|exact Hrun].
  clear Hrun HP grps grps'. intros grps i_tgt_grp grps' _ HP Hrun.
  apply bind_Ok in Hrun as (adj_grps & _ & Hrun).
  eapply (for_each_invariant P); [|exact HP|exact Hrun].
  clear Hrun HP grps grps'. intros grps adj grps' _ HP Hrun.
  apply bind_Ok in Hrun as (tgt_mesh_grp & _ & Hrun).
  eapply (for_each_invariant P); [|exact HP|exact Hrun].
  clear Hrun HP grps grps'. intros grps i_face_tgt grps' _ HP Hrun.
  unfold opposite_face_step in Hrun.
  apply bind_Ok in Hrun as (selected & _ & Hrun).
  destruct selected as [tgt_idx|]; [|by injection Hrun as <-].
  apply bind_Ok in Hrun as (src_vol & _ & Hrun).
  apply bind_Ok in Hrun as (src_faces & _ & Hrun).
  apply bind_Ok in Hrun as (src_idx & _ & Hrun).
  apply bind_Ok in Hrun as (new_batches & Hnew & Hrun).
  eapply all_batches_extend; [exact HP|exact Hrun|].
  by eapply cross_face_batches_no_face.
Qed.

(** Nor does any batch that the loops of [make_partition_connection]
    collect. *)
Lemma partition_loops_no_face (local_bdry_conn : DirectDiscretizationConnection F)
    (remote_bdry_discr : Discretization F)
    (remote_group_infos : list (RemoteGroupInfo F))
    (grps : list (list (InterpolationBatch F))) :
  let local_vol_mesh := discr_mesh (from_discr local_bdry_conn) in
  let local_vol_groups := mesh_groups local_vol_mesh in
  for_each remote_group_infos
    (λ part_batches rgi,
       for_each (inter_part_adj_groups rgi)
         (λ part_batches rem_ipag,
            let i_local_grps :=
              find_group_indices local_vol_groups (ipag_neighbors rem_ipag) in
            remote_vol_to_bdry ← make_remote_vol_to_bdry rgi;
            for_each
              (Z.to_nat <$> np_unique (Z.of_nat <$> i_local_grps))
              (partition_step local_bdry_conn remote_bdry_discr rem_ipag
                 i_local_grps remote_vol_to_bdry)
              part_batches)
         part_batches)
    (replicate (length local_vol_groups) []) = Ok grps →
  all_batches (length local_vol_groups) (λ _ b, to_element_face b = None) grps.
Proof.
  intros local_vol_mesh local_vol_groups Hrun.
  set (P := all_batches (length local_vol_groups)
              (λ _ b, to_element_face b = None)).
  eapply (for_each_invariant P); [|apply all_batches_initial|exact Hrun].
  clear Hrun grps. intros grps rgi grps' _ HP Hrun.
  eapply (for_each_invariant P); [|exact HP|exact Hrun].
  clear Hrun HP grps grps'. intros grps rem_ipag grps' _ HP Hrun.
  cbv zeta in Hrun. apply bind_Ok in Hrun as (remote_tbl & _ & Hrun).
  eapply (for_each_invariant P); [|exact HP|exact Hrun].
  clear Hrun HP grps grps'. intros grps i_local_grp grps' _ HP Hrun.
  unfold partition_step in Hrun.
  apply bind_Ok in Hrun as (local_tbl & _ & Hrun).
  apply bind_Ok in Hrun as (neighbors_sel & _ & Hrun).
  apply bind_Ok in Hrun as (base & _ & Hrun).
  apply bind_Ok in Hrun as (remote_els & _ & Hrun).
  apply bind_Ok in Hrun as (neighbor_faces_sel & _ & Hrun).
  apply bind_Ok in Hrun as (matched_local & _ & Hrun).
  apply bind_Ok in Hrun as (? & _ & Hrun).
  apply bind_Ok in Hrun as (element_faces_sel & _ & Hrun).
  apply bind_Ok in Hrun as (matched_remote & _ & Hrun).
  apply bind_Ok in Hrun as (? & _ & Hrun).
  apply bind_Ok in Hrun as (grp_batches & Hnew & Hrun).
  eapply all_batches_extend; [exact HP|exact Hrun|].
  by eapply cross_face_batches_no_face.
Qed.
End builder_facts.

(** ** Claims about the two builders *)

Section builder_claims.
Context {F : Type} `{Dtype F} `{Linalg F}.

(** A loop whose passes either go on or raise [e], and one of whose items
    always raises [e], raises [e]. *)
Lemma for_each_raises {A S} (e : Exn F) (l : list A)
    (body : S → A → Outcome F S) (x0 : A) (s : S) :
  (∀ s x, x ∈ l → (∃ s', body s x = Ok s') ∨ body s x = Raise e) →
  x0 ∈ l → (∀ s, body s x0 = Raise e) →
  for_each l body s = Raise e.
Proof.
  revert s. induction l as [|x l IH]; intros s Hbody Hin Hx0.
  - by apply elem_of_nil in Hin.
  - simpl. destruct (Hbody s x) as [[s' Hs']|Hr]; [left| |by rewrite Hr].
    rewrite Hs'. simpl. apply elem_of_cons in Hin as [->|Hin].
    + rewrite Hx0 in Hs'. done.
    + apply IH; [|done..]. intros ???. apply Hbody. by right.
Qed.

Lemma check_is_restriction_Ok (conn : DirectDiscretizationConnection F) :
  check_is_restriction conn = Ok () →
  ∀ g b, g ∈ groups conn → b ∈ batches g → to_element_face b ≠ None.
Proof.
  unfold check_is_restriction. intros Hrun g b Hg Hb.
  apply list_elem_of_lookup in Hg as [i Hi].
  assert ((i, g) ∈ imap pair (groups conn)) as Hin.
  { apply list_elem_of_lookup. exists i. by rewrite list_lookup_imap, Hi. }
  refine (for_each_items
            (λ p, ∀ b, b ∈ batches p.2 → to_element_face b ≠ None)
            _ _ _ _ _ Hrun (i, g) Hin b Hb).
  clear. intros [] [j g'] [] _ Hbody b Hb. simpl in *.
  refine (for_each_items (λ b, to_element_face b ≠ None) _ _ _ _ _ Hbody b Hb).
  clear. intros [] b [] _ Hb.
  apply bind_Ok in Hb as ([] & _ & Hb). apply py_assert_Ok in Hb.
  by apply bool_decide_eq_true in Hb.
Qed.

Lemma check_is_restriction_raises (conn : DirectDiscretizationConnection F)
    (g : DiscretizationConnectionElementGroup F) (b : InterpolationBatch F) :
  g ∈ groups conn → b ∈ batches g → to_element_face b = None →
  check_is_restriction conn = Raise AssertionError.
Proof.
  intros Hg Hb Hface. unfold check_is_restriction.
  apply list_elem_of_lookup in Hg as [i Hi].
  assert (∀ (i : nat) (bs : list (InterpolationBatch F)) (u : unit),
            (∃ u', for_each bs
               (λ _ batch,
                  _ ← py_assert (F:=F) (bool_decide (from_group_index batch = i));
                  py_assert (bool_decide (to_element_face batch ≠ None))) u
               = Ok u')
            ∨ for_each bs
               (λ _ batch,
                  _ ← py_assert (F:=F) (bool_decide (from_group_index batch = i));
                  py_assert (bool_decide (to_element_face batch ≠ None))) u
              = Raise AssertionError) as Hinner.
  { intros j bs. induction bs as [|b' bs IH]; intros u; simpl; [left; eauto|].
    destruct (bool_decide (from_group_index b' = j)); simpl; [|by right].
    destruct (bool_decide (to_element_face b' ≠ None)); simpl; [|by right].
    apply IH. }
  apply (for_each_raises _ _ _ (i, g)).
  - intros [] [j g'] _. apply Hinner.
  - apply list_elem_of_lookup. exists i. by rewrite list_lookup_imap, Hi.
  - intros []. apply (for_each_raises _ _ _ b); [|done|].
    + intros [] b' _. destruct (bool_decide (from_group_index b' = i)); simpl;
        [|by right].
      destruct (bool_decide (to_element_face b' ≠ None)); simpl; [|by right].
      left. by eexists.
    + intros []. destruct (bool_decide (from_group_index b = i)); simpl; [|done].
      rewrite bool_decide_eq_false_2; [done|]. by intros ?.
Qed.

(** What a returned opposite-face connection is made of. *)
Lemma opposite_face_connection_Ok (conn out : DirectDiscretizationConnection F) :
  make_opposite_face_connection conn = Ok out →
  check_is_restriction conn = Ok ()
  ∧ is_surjective out = true
  ∧ from_discr out = to_discr conn
  ∧ to_discr out = to_discr conn
  ∧ length (groups conn) = length (discr_groups (to_discr conn))
  ∧ length (groups out) = length (groups conn)
  ∧ ∀ g b, g ∈ groups out → b ∈ batches g → to_element_face b = None.
Proof.
  unfold make_opposite_face_connection. intros Hrun.
  apply bind_Ok in Hrun as ([] & Hcheck & Hrun).
  apply bind_Ok in Hrun as ([] & _ & Hrun).
  apply bind_Ok in Hrun as ([] & Hlen%py_assert_Ok & Hrun).
  apply bool_decide_eq_true in Hlen.
  apply bind_Ok in Hrun as (grps & Hloops & [= <-]). simpl.
  apply opposite_face_loops_no_face, all_batches_groups in Hloops
    as [Hn Hfaces].
  split_and!; try done.
  intros g b [i Hi]%list_elem_of_lookup_1 Hb. by eapply Hfaces.
Qed.

(** What a returned partition connection is made of. *)
Lemma partition_connection_Ok (local_bdry_conn : DirectDiscretizationConnection F)
    (remote_bdry_discr : Discretization F)
    (remote_group_infos : list (RemoteGroupInfo F))
    (out : DirectDiscretizationConnection F) :
  make_partition_connection local_bdry_conn remote_bdry_discr remote_group_infos
  = Ok out →
  is_surjective out = true
  ∧ from_discr out = remote_bdry_discr
  ∧ to_discr out = to_discr local_bdry_conn
  ∧ length (groups out) = length (discr_groups (to_discr local_bdry_conn))
  ∧ ∀ g b, g ∈ groups out → b ∈ batches g → to_element_face b = None.
Proof.
  unfold make_partition_connection. intros Hrun.
  apply bind_Ok in Hrun as ([] & Hlen%py_assert_Ok & Hrun).
  apply bool_decide_eq_true in Hlen.
  apply bind_Ok in Hrun as (grps & Hloops & [= <-]). simpl.
  apply partition_loops_no_face, all_batches_groups in Hloops as [Hn Hfaces].
  split_and!; try done; [congruence|].
  intros g b [i Hi]%list_elem_of_lookup_1 Hb. by eapply Hfaces.
Qed.

(** C10.  No batch of a connection returned by either builder names a
    target face.  The batches of the restriction that the opposite-face
    builder consumes all do: it asserts so, and raises when one does not. *)
Theorem produced_batches_name_no_face :
  (∀ conn out : DirectDiscretizationConnection F,
     make_opposite_face_connection conn = Ok out →
     (∀ g b, g ∈ groups out → b ∈ batches g → to_element_face b = None)
     ∧ (∀ g b, g ∈ groups conn → b ∈ batches g → to_element_face b ≠ None))
  ∧ (∀ (conn : DirectDiscretizationConnection F) g b,
       g ∈ groups conn → b ∈ batches g → to_element_face b = None →
       make_opposite_face_connection conn = Raise AssertionError)
  ∧ (∀ (local_bdry_conn : DirectDiscretizationConnection F)
       (remote_bdry_discr : Discretization F)
       (remote_group_infos : list (RemoteGroupInfo F))
       (out : DirectDiscretizationConnection F),
       make_partition_connection local_bdry_conn remote_bdry_discr
         remote_group_infos = Ok out →
       ∀ g b, g ∈ groups out → b ∈ batches g → to_element_face b = None).
Proof.
  split_and!.
  - intros conn out Hrun.
    destruct (opposite_face_connection_Ok _ _ Hrun)
      as (Hcheck & _ & _ & _ & _ & _ & Hfaces).
    split; [done|]. by apply check_is_restriction_Ok.
  - intros conn g b Hg Hb Hface. unfold make_opposite_face_connection.
    by rewrite (check_is_restriction_raises conn g b).
  - intros lc rd rgis out Hrun.
    by destruct (partition_connection_Ok _ _ _ _ Hrun) as (_ & _ & _ & _ & Hfaces).
Qed.

(** C9.  With a 0-dimensional target discretization,
    [_make_cross_face_batches] returns the one batch that pairs the given
    elements in their order, with the unit nodes of the source group and no
    face, whatever the node coordinates, bases and affine maps are. *)
Theorem cross_face_batches_dim0 (tgt_bdry_discr src_bdry_discr : Discretization F)
    (i_tgt_grp i_src_grp : nat) (tgt_idx src_idx : list Z)
    (tgt_aff_map src_aff_map : option (AffineMap F)) (src_grp : ElementGroup F) :
  discr_dim tgt_bdry_discr = 0 →
  discr_groups src_bdry_discr !! i_src_grp = Some src_grp →
  _make_cross_face_batches tgt_bdry_discr src_bdry_discr i_tgt_grp i_src_grp
    tgt_idx src_idx tgt_aff_map src_aff_map
  = Ok [ {| from_group_index := i_src_grp;
            from_element_indices := src_idx;
            to_element_indices := tgt_idx;
            result_unit_nodes := unit_nodes src_grp;
            to_element_face := None |} ].
Proof.
  intros Hdim Hgrp. unfold _make_cross_face_batches.
  rewrite decide_True by done.
  by rewrite (proj2 (getnat_Ok _ _ _) Hgrp).
Qed.
End builder_claims.

Section builder_examples.
Import PrimFloat Float64 Examples.

Lemma cross_face_batches_dim0_witness :
  discr_dim interval_bdry_discr = 0
  ∧ discr_groups interval_bdry_discr !! 0 = Some point_grp
  ∧ _make_cross_face_batches interval_bdry_discr interval_bdry_discr 0 0
      [1]%Z [2]%Z (Some AffineMap_default) None
    = Ok [ {| from_group_index := 0;
              from_element_indices := [2]%Z;
              to_element_indices := [1]%Z;
              result_unit_nodes := [];
              to_element_face := None |} ].
Proof.
  split; [done|]. split; [done|].
  by apply (cross_face_batches_dim0 interval_bdry_discr interval_bdry_discr
              0 0 [1]%Z [2]%Z (Some AffineMap_default) None point_grp).
Defined.

Lemma produced_batches_name_no_face_witness :
  ∃ out,
    make_partition_connection local_bdry_conn part_bdry_discr
      [remote_group_info] = Ok out
    ∧ groups out ≠ []
    ∧ ∀ g b, g ∈ groups out → b ∈ batches g → to_element_face b = None.
Proof.
  destruct (make_partition_connection local_bdry_conn part_bdry_discr
              [remote_group_info]) as [out| |] eqn:Hrun;
    [|by vm_compute in Hrun..].
  exists out. split; [done|]. split.
  - vm_compute in Hrun. injection Hrun as <-. done.
  - exact (proj2 (proj2 produced_batches_name_no_face) _ _ _ _ Hrun).
Defined.
End builder_examples.

(** ** The Gauss-Newton solve *)

Section gauss_newton_facts.
Context {F : Type} `{Dtype F} `{Linalg F}.

Local Abbreviation T3 := (list (list (list F))).

(** What [mapM] raises, one of its calls raised; and it hangs only when
    one of its calls does. *)
Lemma mapM_Raise {A B} (f : A → Outcome F B) (l : list A) (e : Exn F) :
  mapM f l = Raise e → ∃ x, x ∈ l ∧ f x = Raise e.
Proof.
  induction l as [|x l IH]; simpl; [done|].
  destruct (f x) as [y|e1|] eqn:Hfx; simpl;
    [|intros [= <-]; exists x; split; [left|done]|done].
  destruct (mapM f l) as [k|e2|]; simpl; [done| |done].
  intros [= <-]. destruct IH as (x' & Hin & Hx'); [done|]. exists x'.
  split; [by right|done].
Qed.

Lemma mapM_Hang {A B} (f : A → Outcome F B) (l : list A) :
  mapM f l = Hang → ∃ x, x ∈ l ∧ f x = Hang.
Proof.
  induction l as [|x l IH]; simpl; [done|].
  destruct (f x) as [y|e1|] eqn:Hfx; simpl;
    [|done|intros _; exists x; split; [left|done]].
  destruct (mapM f l) as [k| |]; simpl; [done|done|].
  intros _. destruct IH as (x' & Hin & Hx'); [done|]. exists x'.
  split; [by right|done].
Qed.

Section with_inputs.
Variables (tgt src : T3) (grp : ElementGroup F) (tol : F).
Variable inv_t_vdm : list (list F).

Local Abbreviation step := (newton_step tgt src grp tol inv_t_vdm).
Local Abbreviation loop := (newton_loop tgt src grp tol inv_t_vdm).
Local Abbreviation iterate := (newton_iterate tgt src grp tol inv_t_vdm).

Lemma apply_map_exits (u : T3) :
  apply_map tgt src grp tol inv_t_vdm u ≠ Hang
  ∧ ∀ e, apply_map tgt src grp tol inv_t_vdm u = Raise e →
      e = AssertionError ∨ e = ValueError.
Proof.
  unfold apply_map. cbv zeta. case_decide as Hd.
  { split; [done|]. intros e [= <-]. by right. }
  destruct (forallb _ _); simpl.
  - destruct (bool_decide _); simpl; split; try done.
    intros e [= <-]. by left.
  - split; [done|]. intros e [= <-]. by left.
Qed.

Lemma solve_df_inv_resid_exits (df : list T3) (resid : T3) :
  solve_df_inv_resid tgt src grp df resid ≠ Hang
  ∧ ∀ e, solve_df_inv_resid tgt src grp df resid = Raise e → e = LinAlgError.
Proof.
  unfold solve_df_inv_resid.
  destruct (grp_dim grp) as [|[|[|dim]]]; try (split; done).
  all: split;
    [ intros Hh; apply bind_Hang in Hh as [Hh|(? & _ & ?)]; [|done];
      apply mapM_Hang in Hh as (e1 & _ & He1);
      apply mapM_Hang in He1 as (t1 & _ & Ht1);
      by destruct (la_lstsq _ _)
    | intros exn He; apply bind_Raise in He as [He|(? & _ & ?)]; [|done];
      apply mapM_Raise in He as (e1 & _ & He1);
      apply mapM_Raise in He1 as (t1 & _ & Ht1);
      destruct (la_lstsq _ _); [done|]; by injection Ht1 as <- ].
Qed.

(** A pass raises nothing but what its helpers raise, and returns. *)
Lemma newton_step_exits (u : T3) :
  step u ≠ Hang
  ∧ ∀ e, step u = Raise e →
      e = AssertionError ∨ e = ValueError ∨ e = LinAlgError.
Proof.
  unfold newton_step. split.
  - intros Hh.
    apply bind_Hang in Hh as [Hh|(mapped & _ & Hh)];
      [by apply apply_map_exits in Hh|].
    apply bind_Hang in Hh as [Hh|(s & _ & Hh)];
      [by apply solve_df_inv_resid_exits in Hh|].
    apply bind_Hang in Hh as [Hh|(r & _ & Hh)]; [|done].
    by destruct (fabs <$> _).
  - intros e He.
    apply bind_Raise in He as [He|(mapped & _ & He)].
    { apply apply_map_exits in He as [->| ->]; auto. }
    apply bind_Raise in He as [He|(s & _ & He)].
    { apply solve_df_inv_resid_exits in He as ->. auto. }
    apply bind_Raise in He as [He|(r & _ & He)]; [|done].
    destruct (fabs <$> _); [|done]. injection He as <-. auto.
Qed.

Lemma newton_iterate_S (k : nat) (u u1 : T3) (r : F) :
  step u = Ok (r, u1) → flt r tol = false →
  iterate (S k) u = iterate k u1.
Proof. intros Hs Hr. simpl. by rewrite Hs, Hr. Qed.

Lemma newton_loop_Ok (fuel niter : nat) (u u' : T3) :
  niter + fuel = 11 →
  loop fuel niter u = Ok u'
  ↔ ∃ k uk r, k < fuel ∧ iterate k u = Some uk
      ∧ step uk = Ok (r, u') ∧ flt r tol = true.
Proof.
  revert niter u. induction fuel as [|fuel IH]; intros niter u Hfuel.
  { simpl. split; [done|]. intros (k & _ & _ & ? & _). lia. }
  simpl. destruct (step u) as [[r u1]| |] eqn:Hstep; simpl.
  - destruct (flt r tol) eqn:Hr.
    + split.
      * intros [= <-]. exists 0, u, r. split_and!; [lia|done..].
      * intros ([|k] & uk & r' & _ & Hit & Hs & Hr').
        -- injection Hit as <-. congruence.
        -- simpl in Hit. by rewrite Hstep, Hr in Hit.
    + destruct (10 <? S niter) eqn:Hn.
      * split; [done|]. apply Nat.ltb_lt in Hn.
        intros ([|k] & uk & r' & Hk & Hit & Hs & Hr'); [|lia].
        injection Hit as <-. congruence.
      * apply Nat.ltb_ge in Hn. rewrite (IH (S niter) u1) by lia. split.
        -- intros (k & uk & r' & Hk & Hit & Hs & Hr').
           exists (S k), uk, r'. split_and!; [lia| |done..].
           by rewrite (newton_iterate_S k u u1 r).
        -- intros ([|k] & uk & r' & Hk & Hit & Hs & Hr').
           ++ injection Hit as <-. congruence.
           ++ exists k, uk, r'. split_and!; [lia| |done..].
              by rewrite <-(newton_iterate_S k u u1 r).
  - split; [done|]. intros ([|k] & uk & r' & _ & Hit & Hs & _).
    + injection Hit as <-. congruence.
    + simpl in Hit. by rewrite Hstep in Hit.
  - split; [done|]. intros ([|k] & uk & r' & _ & Hit & Hs & _).
    + injection Hit as <-. congruence.
    + simpl in Hit. by rewrite Hstep in Hit.
Qed.

Lemma newton_loop_not_converged (fuel niter : nat) (u : T3) (r : F) :
  niter + fuel = 11 →
  loop fuel niter u = Raise (RuntimeError (DidNotConverge r))
  ↔ ∃ k uk u', S k = fuel ∧ iterate k u = Some uk
      ∧ step uk = Ok (r, u') ∧ flt r tol = false.
Proof.
  revert niter u. induction fuel as [|fuel IH]; intros niter u Hfuel.
  { simpl. split; [done|]. by intros (k & _ & _ & ? & _). }
  simpl. destruct (step u) as [[r1 u1]|e|] eqn:Hstep; simpl.
  - destruct (flt r1 tol) eqn:Hr.
    + split; [done|]. intros ([|k] & uk & u' & _ & Hit & Hs & Hr').
      * injection Hit as <-. congruence.
      * simpl in Hit. by rewrite Hstep, Hr in Hit.
    + destruct (10 <? S niter) eqn:Hn.
      * apply Nat.ltb_lt in Hn. assert (fuel = 0) as -> by lia. split.
        -- intros [= <-]. exists 0, u, u1. done.
        -- intros ([|k] & uk & u' & Hk & Hit & Hs & Hr'); [|lia].
           injection Hit as <-. congruence.
      * apply Nat.ltb_ge in Hn. rewrite (IH (S niter) u1) by lia. split.
        -- intros (k & uk & u' & Hk & Hit & Hs & Hr').
           exists (S k), uk, u'. split_and!; [lia| |done..].
           by rewrite (newton_iterate_S k u u1 r1).
        -- intros ([|k] & uk & u' & Hk & Hit & Hs & Hr').
           ++ injection Hit as <-. assert (fuel = 0) as -> by lia. lia.
           ++ exists k, uk, u'. split_and!; [lia| |done..].
              by rewrite <-(newton_iterate_S k u u1 r1).
  - split.
    + intros [= ->]. destruct (proj2 (newton_step_exits u) _ Hstep)
        as [?|[?|?]]; done.
    + intros ([|k] & uk & u' & _ & Hit & Hs & _).
      * injection Hit as <-. congruence.
      * simpl in Hit. by rewrite Hstep in Hit.
  - split; [done|]. intros ([|k] & uk & u' & _ & Hit & Hs & _).
    + injection Hit as <-. congruence.
    + simpl in Hit. by rewrite Hstep in Hit.
Qed.

(** An exception of a pass that is reached leaves the loop as it is. *)
Lemma newton_loop_propagates (fuel niter k : nat) (u uk : T3) (e : Exn F) :
  niter + fuel = 11 →
  k < fuel → iterate k u = Some uk → step uk = Raise e →
  loop fuel niter u = Raise e.
Proof.
  revert fuel niter u. induction k as [|k IH]; intros fuel niter u Hf Hk Hit Hs.
  - injection Hit as <-. destruct fuel as [|fuel]; [lia|]. simpl.
    by rewrite Hs.
  - destruct fuel as [|fuel]; [lia|]. simpl in *.
    destruct (step u) as [[r u1]| |]; [|done..]. simpl.
    destruct (flt r tol); [done|].
    rewrite (proj2 (Nat.ltb_ge 10 (S niter))) by lia.
    apply IH; [lia|lia|done..].
Qed.

Lemma newton_loop_Raise (fuel niter : nat) (u : T3) (e : Exn F) :
  niter + fuel = 11 →
  loop fuel niter u = Raise e →
  (∃ r, e = RuntimeError (DidNotConverge r))
  ∨ ∃ k uk, k < fuel ∧ iterate k u = Some uk ∧ step uk = Raise e.
Proof.
  revert niter u. induction fuel as [|fuel IH]; intros niter u Hf; [done|].
  simpl. destruct (step u) as [[r u1]|e'|] eqn:Hstep; simpl; [| |done].
  - destruct (flt r tol) eqn:Hr; [done|].
    destruct (10 <? S niter) eqn:Hn.
    + intros [= <-]. left. by exists r.
    + apply Nat.ltb_ge in Hn. intros Hrun.
      destruct (IH (S niter) u1) as [?|(k & uk & Hk & Hit & Hs)];
        [lia|done|by left|].
      right. exists (S k), uk. split_and!; [lia| |done].
      by rewrite (newton_iterate_S k u u1 r).
  - intros [= <-]. right. exists 0, u. split_and!; [lia|done..].
Qed.

Lemma newton_loop_returns (fuel niter : nat) (u : T3) :
  niter + fuel = 11 → 0 < fuel → loop fuel niter u ≠ Hang.
Proof.
  revert niter u. induction fuel as [|fuel IH]; intros niter u Hf Hpos; [lia|].
  simpl. destruct (step u) as [[r u1]|e'|] eqn:Hstep; simpl; [|done|].
  - destruct (flt r tol); [done|].
    destruct (10 <? S niter) eqn:Hn; [done|]. apply Nat.ltb_ge in Hn.
    apply IH; lia.
  - by apply newton_step_exits in Hstep.
Qed.

Lemma forallb_tabulate2 {B} (P : B → bool) (n m : nat) (f : nat → nat → B) :
  forallb (forallb P) (tabulate n (λ e, tabulate m (f e))) = true
  ↔ ∀ e t, e < n → t < m → P (f e t) = true.
Proof.
  unfold tabulate. rewrite forallb_forall. split.
  - intros Hall e t He Ht.
    specialize (Hall (f e <$> seq 0 m)). rewrite forallb_forall in Hall.
    apply Hall.
    + apply list_elem_of_In, list_elem_of_fmap. exists e. split; [done|].
      apply elem_of_seq. lia.
    + apply list_elem_of_In, list_elem_of_fmap. exists t. split; [done|].
      apply elem_of_seq. lia.
  - intros Hall row Hrow. apply list_elem_of_In, list_elem_of_fmap in Hrow
      as (e & -> & He). apply elem_of_seq in He.
    apply forallb_forall. intros x Hx.
    apply list_elem_of_In, list_elem_of_fmap in Hx as (t & -> & Ht).
    apply elem_of_seq in Ht. apply Hall; lia.
Qed.

(** What the assertion on the interpolation coefficients decides. *)
Lemma apply_map_checks_partition_of_unity (u : T3) :
  (∀ mapped, apply_map tgt src grp tol inv_t_vdm u = Ok mapped →
     ∀ e t, e < (shape3 tgt).1.2 → t < (shape3 tgt).2 →
       flt (one_deviation_at (intp_coeffs_of tgt grp inv_t_vdm u) e t) tol = true)
  ∧ (∀ e t, grp_dim grp ≠ 0 → e < (shape3 tgt).1.2 → t < (shape3 tgt).2 →
       flt (one_deviation_at (intp_coeffs_of tgt grp inv_t_vdm u) e t) tol = false →
       apply_map tgt src grp tol inv_t_vdm u = Raise AssertionError).
Proof.
  unfold apply_map, one_deviation_of. cbv zeta.
  destruct (forallb _ _) eqn:Hall.
  - rewrite (forallb_tabulate2 (λ d, flt d tol)) in Hall. split.
    + intros mapped _ e t He Ht. by apply Hall.
    + intros e t _ He Ht Hdev. rewrite (Hall e t He Ht) in Hdev. done.
  - split.
    + case_decide as Hd; [done|]. done.
    + intros e t Hdim _ _ _. by rewrite decide_False.
Qed.

(** C2, as amended.  The loop returns exactly when one of its first eleven
    passes finds the largest absolute residual below [tol], and hands back
    the nodes as updated in that pass; it raises the non-convergence error,
    with the residual of the eleventh pass, exactly when eleven passes ran
    through without that; every other exit is an exception raised inside a
    pass by the helpers (the assertions of [apply_map], the least-squares
    solver, [np.max]); and it always returns or raises. *)
Theorem gauss_newton_exits (u0 : T3) :
  (∀ u', loop 11 0 u0 = Ok u'
     ↔ ∃ k uk r, k ≤ 10 ∧ iterate k u0 = Some uk
         ∧ step uk = Ok (r, u') ∧ flt r tol = true)
  ∧ (∀ r, loop 11 0 u0 = Raise (RuntimeError (DidNotConverge r))
     ↔ ∃ uk u', iterate 10 u0 = Some uk
         ∧ step uk = Ok (r, u') ∧ flt r tol = false)
  ∧ (∀ e, loop 11 0 u0 = Raise e →
       (∃ r, e = RuntimeError (DidNotConverge r))
       ∨ (e = AssertionError ∨ e = ValueError ∨ e = LinAlgError)
         ∧ ∃ k uk, k ≤ 10 ∧ iterate k u0 = Some uk ∧ step uk = Raise e)
  ∧ loop 11 0 u0 ≠ Hang
  ∧ (∀ u r u', step u = Ok (r, u') →
       ∃ mapped, apply_map tgt src grp tol inv_t_vdm u = Ok mapped
         ∧ np_max (fabs <$> flatten3 (zip_with3 fsub mapped tgt)) = Ok r).
Proof.
  split_and!.
  - intros u'. rewrite (newton_loop_Ok 11 0) by done. split.
    + intros (k & uk & r & Hk & ?). exists k, uk, r. split; [lia|done].
    + intros (k & uk & r & Hk & ?). exists k, uk, r. split; [lia|done].
  - intros r. rewrite (newton_loop_not_converged 11 0) by done. split.
    + intros (k & uk & u' & [= <-] & ?). by exists uk, u'.
    + intros (uk & u' & ?). by exists 10, uk, u'.
  - intros e Hrun.
    destruct (newton_loop_Raise 11 0 u0 e) as [?|(k & uk & Hk & Hit & Hs)];
      [done..|by left|].
    right. split; [by eapply newton_step_exits|].
    exists k, uk. split; [lia|done].
  - apply newton_loop_returns; lia.
  - intros u r u' Hs. unfold newton_step in Hs.
    apply bind_Ok in Hs as (mapped & Hmap & Hs).
    apply bind_Ok in Hs as (s & _ & Hs).
    apply bind_Ok in Hs as (r' & Hr & [= -> _]).
    by exists mapped.
Qed.

(** C4.  A pass whose [apply_map] returns has found the interpolation
    coefficients of every node of every element to sum to 1 within [tol];
    a node where they do not makes [apply_map] raise an assertion error;
    and that error in any pass that the loop reaches ends the loop with it.
    So when the loop returns, or gives up for non-convergence, every pass
    it made satisfied the partition of unity. *)
Theorem partition_of_unity_enforced (u0 : T3) :
  (∀ u mapped, apply_map tgt src grp tol inv_t_vdm u = Ok mapped →
     ∀ e t, e < (shape3 tgt).1.2 → t < (shape3 tgt).2 →
       flt (one_deviation_at (intp_coeffs_of tgt grp inv_t_vdm u) e t) tol = true)
  ∧ (∀ u e t, grp_dim grp ≠ 0 → e < (shape3 tgt).1.2 → t < (shape3 tgt).2 →
       flt (one_deviation_at (intp_coeffs_of tgt grp inv_t_vdm u) e t) tol = false →
       apply_map tgt src grp tol inv_t_vdm u = Raise AssertionError)
  ∧ (∀ k uk, k ≤ 10 → iterate k u0 = Some uk →
       apply_map tgt src grp tol inv_t_vdm uk = Raise AssertionError →
       loop 11 0 u0 = Raise AssertionError)
  ∧ (∀ k uk, k ≤ 10 → iterate k u0 = Some uk →
       (∃ u', loop 11 0 u0 = Ok u')
       ∨ (∃ r, loop 11 0 u0 = Raise (RuntimeError (DidNotConverge r))) →
       ∀ e t, e < (shape3 tgt).1.2 → t < (shape3 tgt).2 →
         flt (one_deviation_at (intp_coeffs_of tgt grp inv_t_vdm uk) e t) tol
         = true).
Proof.
  split_and!.
  - intros u. apply apply_map_checks_partition_of_unity.
  - intros u. apply apply_map_checks_partition_of_unity.
  - intros k uk Hk Hit Hmap.
    apply (newton_loop_propagates 11 0 k u0 uk); [done|lia|done|].
    unfold newton_step. by rewrite Hmap.
  - intros k uk Hk Hit Hend e t He Ht.
    destruct (apply_map tgt src grp tol inv_t_vdm uk) as [mapped|exn|] eqn:Hmap.
    + by eapply apply_map_checks_partition_of_unity.
    + assert (loop 11 0 u0 = Raise exn) as Hrun.
      { apply (newton_loop_propagates 11 0 k u0 uk); [done|lia|done|].
        unfold newton_step. by rewrite Hmap. }
      rewrite Hrun in Hend.
      destruct Hend as [[u' [=]]|[r [= ->]]].
      by destruct (proj2 (apply_map_exits uk) _ Hmap).
    + by apply apply_map_exits in Hmap.
Qed.
End with_inputs.
End gauss_newton_facts.

Section gauss_newton_examples.
Import PrimFloat Float64 Examples.

(** The solve on targets that lie on the face: the second pass finds the
    residual at zero. *)
Lemma gauss_newton_exits_witness :
  newton_loop face_tgt_nodes face_src_nodes line_grp tol line_inv_t_vdm
    11 0 line_initial = Ok [[[(-0.5)%float; 0.5%float]]]
  ∧ ∃ k uk r, k ≤ 10
      ∧ newton_iterate face_tgt_nodes face_src_nodes line_grp tol
          line_inv_t_vdm k line_initial = Some uk
      ∧ newton_step face_tgt_nodes face_src_nodes line_grp tol
          line_inv_t_vdm uk = Ok (r, [[[(-0.5)%float; 0.5%float]]])
      ∧ flt r tol = true.
Proof.
  assert (newton_loop face_tgt_nodes face_src_nodes line_grp tol line_inv_t_vdm
            11 0 line_initial = Ok [[[(-0.5)%float; 0.5%float]]]) as Hrun
    by (vm_compute; reflexivity).
  split; [exact Hrun|].
  exact (proj1 (proj1 (gauss_newton_exits face_tgt_nodes face_src_nodes
                         line_grp tol line_inv_t_vdm line_initial) _) Hrun).
Defined.

(** C2 as stated fails: there is a third exit.  With a target 2^60 away the
    first pass steps to a reference coordinate of about 2^61, where the
    interpolation coefficients -2^60 and 2^60 sum to 0 and not to 1, and
    the second pass leaves the loop with the assertion error of
    [apply_map]; the solve neither succeeds nor reports non-convergence. *)
Lemma gauss_newton_third_exit :
  _find_src_unit_nodes_via_gauss_newton far_tgt_nodes face_src_nodes
    line_grp line_mesh_grp tol = Raise AssertionError
  ∧ newton_loop far_tgt_nodes face_src_nodes line_grp tol line_inv_t_vdm
      11 0 line_initial = Raise AssertionError.
Proof.
  split; vm_compute; reflexivity.
Qed.

(** The non-convergence exit, for comparison: a target one unit off the
    face keeps the residual at 1. *)
Lemma gauss_newton_did_not_converge :
  _find_src_unit_nodes_via_gauss_newton lifted_tgt_nodes face_src_nodes
    line_grp line_mesh_grp tol = Raise (RuntimeError (DidNotConverge 1%float)).
Proof.
  vm_compute. reflexivity.
Qed.

Lemma partition_of_unity_enforced_witness :
  newton_iterate far_tgt_nodes face_src_nodes line_grp tol line_inv_t_vdm
    1 line_initial = Some [[[0x1p61%float; 0.5%float]]]
  ∧ apply_map far_tgt_nodes face_src_nodes line_grp tol line_inv_t_vdm
      [[[0x1p61%float; 0.5%float]]] = Raise AssertionError
  ∧ newton_loop far_tgt_nodes face_src_nodes line_grp tol line_inv_t_vdm
      11 0 line_initial = Raise AssertionError.
Proof.
  assert (newton_iterate far_tgt_nodes face_src_nodes line_grp tol
            line_inv_t_vdm 1 line_initial = Some [[[0x1p61%float; 0.5%float]]])
    as Hit by (vm_compute; reflexivity).
  assert (apply_map far_tgt_nodes face_src_nodes line_grp tol line_inv_t_vdm
            [[[0x1p61%float; 0.5%float]]] = Raise AssertionError)
    as Hmap by (vm_compute; reflexivity).
  split; [exact Hit|]. split; [exact Hmap|].
  apply (proj1 (proj2 (proj2 (partition_of_unity_enforced far_tgt_nodes
           face_src_nodes line_grp tol line_inv_t_vdm line_initial)))
           1 _ ltac:(lia) Hit Hmap).
Defined.
End gauss_newton_examples.

(** ** Matching by permutation *)

Section array_facts.
Context {A : Type}.

Lemma lookup_tabulate {B} (n : nat) (f : nat → B) (i : nat) :
  i < n → tabulate n f !! i = Some (f i).
Proof.
  intros Hi. unfold tabulate. rewrite list_lookup_fmap.
  by rewrite lookup_seq_lt.
Qed.

Lemma lookup_total_tabulate `{Inhabited B} (n : nat) (f : nat → B) (i : nat) :
  i < n → tabulate n f !!! i = f i.
Proof. intros Hi. apply list_lookup_total_correct. by apply lookup_tabulate. Qed.

Lemma tabulate_ext {B} (n : nat) (f g : nat → B) :
  (∀ i, i < n → f i = g i) → tabulate n f = tabulate n g.
Proof.
  intros Hfg. unfold tabulate. apply list_fmap_ext.
  intros i x Hx. apply lookup_seq in Hx as [-> ?]. apply Hfg. lia.
Qed.

Lemma tabulate_lookup_total `{Inhabited A} (l : list A) :
  tabulate (length l) (λ i, l !!! i) = l.
Proof.
  apply list_eq. intros i. destruct (decide (i < length l)) as [Hi|Hi].
  - rewrite lookup_tabulate by done. symmetry.
    by apply list_lookup_lookup_total_lt.
  - rewrite !lookup_ge_None_2; [done|lia|rewrite length_tabulate; lia].
Qed.

Lemma length_concat_rows (m : nat) (rows : list (list A)) :
  Forall (λ row, length row = m) rows → length (concat rows) = length rows * m.
Proof.
  induction 1 as [|row rows Hrow _ IH]; [done|]. simpl.
  rewrite length_app. lia.
Qed.

(** Cutting the concatenation of rows of one length gives the rows back. *)
Lemma chunk_concat (n m : nat) (rows : list (list A)) :
  length rows = n → Forall (λ row, length row = m) rows →
  chunk n m (concat rows) = rows.
Proof.
  intros <- Hrows. unfold chunk.
  apply list_eq. intros i. destruct (decide (i < length rows)) as [Hi|Hi].
  - rewrite lookup_tabulate by done.
    destruct (lookup_lt_is_Some_2 rows i Hi) as [row Hrow]. rewrite Hrow. f_equal.
    rewrite <-(take_drop_middle rows i row Hrow) at 1.
    rewrite concat_app. simpl.
    assert (length (concat (take i rows)) = i * m) as Hlen.
    { rewrite (length_concat_rows m).
      - rewrite length_take. f_equal. lia.
      - by apply Forall_take. }
    rewrite drop_app_length' by done.
    rewrite take_app_length'; [done|]. symmetry.
    rewrite Forall_forall in Hrows. apply Hrows.
    by eapply list_elem_of_lookup_2.
  - rewrite !lookup_ge_None_2; [done|lia|rewrite length_tabulate; lia].
Qed.

Lemma concat_concat_fmap (x : list (list (list A))) :
  concat (concat x) = concat ((λ plane, concat plane) <$> x).
Proof.
  induction x as [|plane x IH]; [done|]. simpl.
  by rewrite concat_app, IH.
Qed.

(** Reshaping a rectangular array to its own shape changes nothing. *)
Lemma chunk3_flatten3 (d n m : nat) (x : list (list (list A))) :
  has_shape3 d n m x → chunk3 d n m (flatten3 x) = x.
Proof.
  intros [Hlen Hx]. unfold chunk3, flatten3.
  rewrite concat_concat_fmap.
  rewrite chunk_concat.
  - rewrite <-list_fmap_compose. rewrite <-(list_fmap_id x) at 2.
    apply Forall_fmap_ext_1. eapply Forall_impl; [exact Hx|].
    intros plane [Hp Hrows]. simpl. by apply chunk_concat.
  - by rewrite length_fmap.
  - apply Forall_fmap. eapply Forall_impl; [exact Hx|].
    intros plane [Hp Hrows]. simpl. rewrite (length_concat_rows m) by done.
    by rewrite Hp.
Qed.

Lemma length_flatten3 (d n m : nat) (x : list (list (list A))) :
  has_shape3 d n m x → length (flatten3 x) = d * n * m.
Proof.
  intros [Hlen Hx]. unfold flatten3. rewrite concat_concat_fmap.
  rewrite (length_concat_rows (n * m)).
  - rewrite length_fmap, Hlen. lia.
  - apply Forall_fmap. eapply Forall_impl; [exact Hx|].
    intros plane [Hp Hrows]. simpl. rewrite (length_concat_rows m) by done.
    by rewrite Hp.
Qed.

Lemma shape3_has_shape3 (d n m : nat) (x : list (list (list A))) :
  has_shape3 d n m x → 0 < d → 0 < n → shape3 x = (d, n, m).
Proof.
  intros [Hlen Hx] Hd Hn. unfold shape3.
  destruct x as [|plane x]; [simpl in Hlen; lia|].
  apply Forall_cons in Hx as [[Hp Hrows] _]. simpl.
  destruct plane as [|row plane]; [simpl in Hp; lia|].
  apply Forall_cons in Hrows as [Hrow _]. simpl in *. by rewrite Hlen, Hp, Hrow.
Qed.
End array_facts.

Section where_facts.

Lemma length_where_from (i : nat) (row : list bool) :
  length (where_from i row) = count_true row.
Proof.
  revert i. unfold count_true. induction row as [|b row IH]; intros i; [done|].
  destruct b.
  - rewrite filter_cons_True by done. simpl. by rewrite IH.
  - rewrite filter_cons_False by done. simpl. apply IH.
Qed.

(** A row with one [True] entry: [np.where] gives its position alone. *)
Lemma count_true_one (row : list bool) :
  count_true row = 1
  ↔ ∃ s, row !! s = Some true ∧ ∀ s', row !! s' = Some true → s' = s.
Proof.
  rewrite <-(length_where_from 0). fold (np_where row). split.
  - intros Hlen. destruct (np_where row) as [|s [|? ?]] eqn:Hw; try done.
    exists s. split.
    + apply elem_of_np_where. rewrite Hw. left.
    + intros s' Hs'. apply elem_of_np_where in Hs'. rewrite Hw in Hs'.
      by apply list_elem_of_singleton in Hs'.
  - intros (s & Hs & Huniq).
    pose proof (NoDup_where_from 0 row) as Hnd. fold (np_where row) in Hnd.
    apply elem_of_np_where in Hs.
    destruct (np_where row) as [|s1 [|s2 rest]] eqn:Hw.
    + by apply elem_of_nil in Hs.
    + done.
    + exfalso. apply NoDup_cons in Hnd as [Hnotin _]. apply Hnotin.
      assert (s1 = s) as ->.
      { apply Huniq, elem_of_np_where. rewrite Hw. left. }
      assert (s2 = s) as ->.
      { apply Huniq, elem_of_np_where. rewrite Hw. right. left. }
      left.
Qed.

Lemma np_where_one (row : list bool) :
  count_true row = 1 → np_where row = [default 0 (head (np_where row))].
Proof.
  rewrite <-(length_where_from 0). fold (np_where row).
  by destruct (np_where row) as [|s [|? ?]].
Qed.
End where_facts.

Section matching_facts.
Context {F : Type} `{Dtype F}.

Local Abbreviation T3 := (list (list (list F))).

Lemma fmap_tabulate {B C} (g : B → C) (n : nat) (f : nat → B) :
  g <$> tabulate n f = tabulate n (λ i, g (f i)).
Proof. unfold tabulate. by rewrite <-list_fmap_compose. Qed.

Lemma concat_singletons {B C} (g : B → list C) (h : B → C) (l : list B) :
  (∀ x, x ∈ l → g x = [h x]) → concat (g <$> l) = h <$> l.
Proof.
  induction l as [|x l IH]; intros Hg; [done|]. simpl.
  rewrite (Hg x) by left. simpl. f_equal. apply IH.
  intros y Hy. apply Hg. by right.
Qed.

Lemma fmap_concat_rows {B C} (h : B → C) (rows : list (list B)) :
  h <$> concat rows = concat (fmap (M:=list) (fmap (M:=list) h) rows).
Proof.
  induction rows as [|row rows IH]; [done|]. simpl.
  by rewrite fmap_app, IH.
Qed.

Lemma elem_of_concat_tabulate2 {B} (n m : nat) (f : nat → nat → B) (x : B) :
  x ∈ concat (tabulate n (λ e, tabulate m (f e)))
  ↔ ∃ e t, e < n ∧ t < m ∧ x = f e t.
Proof.
  rewrite list_elem_of_In, in_concat. unfold tabulate. split.
  - intros (row & Hrow%list_elem_of_In & Hx%list_elem_of_In).
    apply list_elem_of_fmap in Hrow as (e & -> & He).
    apply list_elem_of_fmap in Hx as (t & -> & Ht).
    apply elem_of_seq in He, Ht. exists e, t. split_and!; [lia..|done].
  - intros (e & t & He & Ht & ->). exists (f e <$> seq 0 m). split.
    + apply list_elem_of_In, list_elem_of_fmap. exists e. split; [done|].
      apply elem_of_seq. lia.
    + apply list_elem_of_In, list_elem_of_fmap. exists t. split; [done|].
      apply elem_of_seq. lia.
Qed.

Lemma mapM_tabulate {B C} (f : B → Outcome F C) (n : nat) (g : nat → B)
    (h : nat → C) :
  (∀ i, i < n → f (g i) = Ok (h i)) →
  mapM f (tabulate n g) = Ok (tabulate n h).
Proof.
  intros Hf. apply mapM_Ok. unfold tabulate.
  apply Forall2_fmap. apply Forall_Forall2_diag, Forall_forall.
  intros i Hi. apply elem_of_seq in Hi. apply Hf. lia.
Qed.

Section with_arrays.
Variables (d n m : nat) (tgt src : T3) (grp : ElementGroup F) (tol : F).
Local Abbreviation close := (is_close_at tgt src tol).
Local Abbreviation index := (matched_index tgt src tol m).

Lemma row_lookup_true (e t s : nat) :
  tabulate m (close e t) !! s = Some true ↔ s < m ∧ close e t s = true.
Proof using Type.
  destruct (decide (s < m)) as [Hs|Hs].
  - rewrite lookup_tabulate by done. split; [intros [= ->]; done|].
    by intros [_ ->].
  - rewrite lookup_ge_None_2 by (rewrite length_tabulate; lia).
    split; [done|]. intros [? _]. lia.
Qed.

Lemma count_true_row (e t : nat) :
  count_true (tabulate m (close e t)) = 1 ↔ has_unique_close tgt src tol m e t.
Proof using Type.
  rewrite count_true_one. unfold has_unique_close. split.
  - intros (s & Hs & Huniq). apply row_lookup_true in Hs as [Hs Hc].
    exists s. split_and!; [done..|]. intros s' Hs' Hc'.
    apply Huniq, row_lookup_true. done.
  - intros (s & Hs & Hc & Huniq). exists s. split; [by apply row_lookup_true|].
    intros s' [Hs' Hc']%row_lookup_true. by apply Huniq.
Qed.

Lemma matched_index_close (e t : nat) :
  has_unique_close tgt src tol m e t →
  np_where (tabulate m (close e t)) = [index e t]
  ∧ index e t < m ∧ close e t (index e t) = true.
Proof using Type.
  intros Hu. apply count_true_row in Hu.
  pose proof (np_where_one _ Hu) as Hw. split; [exact Hw|].
  apply row_lookup_true, elem_of_np_where. rewrite Hw. left.
Qed.

(** The checks of the matcher, reduced to their verdicts. *)
Lemma matching_all_unique_decided :
  forallb (forallb (λ c, c =? 1))
    (fmap (M:=list) (fmap (M:=list) count_true)
       (tabulate n (λ e, tabulate m (λ t, tabulate m (λ s, close e t s))))) = true
  ↔ ∀ e t, e < n → t < m → has_unique_close tgt src tol m e t.
Proof using Type.
  rewrite fmap_tabulate.
  rewrite (tabulate_ext n _ (λ e, tabulate m (λ t,
             count_true (tabulate m (λ s, close e t s)))))
    by (intros; apply fmap_tabulate).
  rewrite (forallb_tabulate2 (λ c, c =? 1)). split.
  - intros Hall e t He Ht. apply count_true_row, Nat.eqb_eq. by apply Hall.
  - intros Hall e t He Ht. apply Nat.eqb_eq, count_true_row. by apply Hall.
Qed.

Lemma matching_source_indices :
  (∀ e t, e < n → t < m → has_unique_close tgt src tol m e t) →
  reshape2 (F:=F) n m
    (concat (fmap (M:=list) np_where
       (concat (tabulate n (λ e, tabulate m (λ t, tabulate m (λ s, close e t s)))))))
  = Ok (tabulate n (λ e, tabulate m (index e))).
Proof using Type.
  intros Hall.
  rewrite (concat_singletons np_where (λ row, default 0 (head (np_where row)))).
  2:{ intros row (e & t & He & Ht & ->)%elem_of_concat_tabulate2.
      apply np_where_one, count_true_row. by apply Hall. }
  rewrite fmap_concat_rows, fmap_tabulate.
  rewrite (tabulate_ext n _ (λ e, tabulate m (index e)))
    by (intros e _;
        exact (fmap_tabulate (λ row, default 0 (head (np_where row))) m
                 (λ t, tabulate m (λ s, close e t s)))).
  unfold reshape2. rewrite decide_True.
  - f_equal. apply chunk_concat; [apply length_tabulate|].
    unfold tabulate at 1. apply Forall_fmap, Forall_forall. intros e _. simpl.
    apply length_tabulate.
  - rewrite (length_concat_rows m).
    + by rewrite length_tabulate.
    + unfold tabulate at 1. apply Forall_fmap, Forall_forall. intros e _. simpl.
      apply length_tabulate.
Qed.

Lemma matched_node_at (e t : nat) :
  e < n → t < m →
  node_at
    (fmap (M:=list) (λ plane : list (list F),
       imap (λ e (row : list nat),
               fmap (M:=list) (λ s, (plane !!! e) !!! s) row)
            (tabulate n (λ e, tabulate m (index e)))) src) e t
  = node_at src e (index e t).
Proof using Type.
  intros He Ht. unfold node_at. rewrite <-list_fmap_compose.
  apply list_fmap_ext. intros i plane _. simpl.
  rewrite (list_lookup_total_correct _ e
             (fmap (M:=list) (λ s, (plane !!! e) !!! s) (tabulate m (index e))))
    by (by rewrite list_lookup_imap, lookup_tabulate).
  rewrite fmap_tabulate. by rewrite lookup_total_tabulate.
Qed.

Lemma matching_reindex (urow : list F) :
  length urow = m →
  (∀ e t, e < n → t < m → index e t < m) →
  mapM (mapM (getnat (F:=F) urow)) (tabulate n (λ e, tabulate m (index e)))
  = Ok (tabulate n (λ e, tabulate m (λ t, urow !!! index e t))).
Proof using Type.
  intros Hlen Hidx. apply mapM_tabulate. intros e He.
  apply mapM_tabulate. intros t Ht. apply getnat_Ok.
  apply list_lookup_lookup_total_lt. rewrite Hlen. by apply Hidx.
Qed.

Hypothesis Htgt : has_shape3 d n m tgt.
Hypothesis Hsrc : has_shape3 d n m src.
Hypothesis Hd : 0 < d.
Hypothesis Hn : 0 < n.

(** The matcher on arrays of one shape. *)
Lemma matching_decided :
  Forall (λ urow, length urow = m) (unit_nodes grp) →
  _find_src_unit_nodes_by_matching tgt src grp tol
  = if forallb (forallb (λ c, c =? 1))
         (fmap (M:=list) (fmap (M:=list) count_true)
            (tabulate n (λ e, tabulate m (λ t, tabulate m (λ s, close e t s)))))
    then Ok (Some (reindexed (unit_nodes grp) index n m))
    else Ok None.
Proof using Htgt Hsrc Hd Hn.
  intros Hunit. unfold _find_src_unit_nodes_by_matching.
  rewrite (shape3_has_shape3 d n m tgt) by done.
  rewrite (length_flatten3 d n m src) by done.
  assert (d * n ≠ 0) as Hk by lia.
  rewrite decide_False.
  2:{ intros [?|Hmod]; [lia|]. apply Hmod.
      rewrite (Nat.mul_comm (d * n) m). by apply Nat.Div0.mod_mul. }
  assert ((d * n * m) `div` (d * n) = m) as ->.
  { rewrite (Nat.mul_comm (d * n) m). by apply Nat.div_mul. }
  rewrite (chunk3_flatten3 d n m src) by done.
  destruct (forallb _ _) eqn:Hall; simpl; [|done].
  pose proof (proj1 matching_all_unique_decided Hall) as Huniq.
  clear Hall. rename Huniq into Hall.
  rewrite (matching_source_indices Hall). cbn [mbind Outcome_bind].
  assert (forallb (forallb id)
            (tabulate n (λ e, tabulate m (λ t,
               flt (la_norm (zip_with fsub (node_at tgt e t)
                  (node_at
                     (fmap (M:=list) (λ plane : list (list F),
                        imap (λ e (row : list nat),
                                fmap (M:=list) (λ s, (plane !!! e) !!! s) row)
                             (tabulate n (λ e, tabulate m (index e)))) src)
                     e t))) tol))) = true) as ->.
  { apply (forallb_tabulate2 id). intros e t He Ht. simpl.
    rewrite matched_node_at by done.
    by apply (matched_index_close e t), Hall. }
  cbn [py_assert mbind Outcome_bind].
  assert (mapM (λ urow : list F,
             mapM (mapM (getnat urow)) (tabulate n (λ e, tabulate m (index e))))
            (unit_nodes grp)
          = Ok (reindexed (unit_nodes grp) index n m)) as ->; [|done].
  apply mapM_Ok. unfold reindexed. apply Forall2_fmap_r.
  apply Forall_Forall2_diag. eapply Forall_impl; [exact Hunit|].
  intros urow Hlen. simpl. apply matching_reindex; [done|].
  intros e t He Ht. by apply (matched_index_close e t), Hall.
Qed.
End with_arrays.
End matching_facts.

Section matching_claims.
Context {F : Type} `{Dtype F} `{Linalg F}.

Local Abbreviation T3 := (list (list (list F))).

(** A row of [m] indices below [m] is a rearrangement of [0 .. m-1] exactly
    when no index occurs twice. *)
Lemma index_row_permutation (m : nat) (f : nat → nat) :
  (∀ t, t < m → f t < m) →
  f <$> seq 0 m ≡ₚ seq 0 m
  ↔ ∀ t t', t < m → t' < m → f t = f t' → t = t'.
Proof.
  intros Hf.
  assert (∀ t, t < m → (f <$> seq 0 m) !! t = Some (f t)) as Hrow.
  { intros t Ht. by rewrite list_lookup_fmap, lookup_seq_lt. }
  split.
  - intros Hperm t t' Ht Ht' Heq.
    assert (NoDup (f <$> seq 0 m)) as Hnd by (rewrite Hperm; apply NoDup_seq).
    apply (proj1 (NoDup_alt _) Hnd t t' (f t)); [by apply Hrow|].
    rewrite Heq. by apply Hrow.
  - intros Hinj. apply submseteq_length_Permutation.
    + apply NoDup_submseteq.
      * apply NoDup_alt. intros i j x Hi Hj.
        assert (i < m) as Hi'
          by (apply lookup_lt_Some in Hi; by rewrite length_fmap, length_seq in Hi).
        assert (j < m) as Hj'
          by (apply lookup_lt_Some in Hj; by rewrite length_fmap, length_seq in Hj).
        rewrite Hrow in Hi, Hj by done. apply Hinj; congruence.
      * intros x (t & -> & Ht%elem_of_seq)%list_elem_of_fmap.
        apply elem_of_seq. specialize (Hf t). lia.
    + by rewrite length_fmap.
Qed.

(** C1, as amended.  The face matcher on target and source boundary nodes
    of one shape (ambient_dim, nelements, nnodes), with at least one axis
    and one element and a source group that has [nnodes] unit nodes.  The
    matching tier succeeds exactly when every target node of every element
    has exactly one source node of that element within [tol]; on success it
    returns the unit nodes of the source group reindexed by the index map
    that sends each target node to that source node, which is in range and
    within [tol]; otherwise it returns [None].  The index map of an element
    is a permutation of its node indices exactly when no source node of the
    element is within [tol] of two of its target nodes, which the matcher
    does not look at.  [_make_cross_face_batches] calls it with
    [tol = 1e4 * eps], hands a successful match to the batch partitioner,
    and on [None] runs the Gauss-Newton tier on the same arrays instead. *)
Theorem matching_succeeds_iff_unique_close
    (d n m : nat) (tgt src : T3) (grp : ElementGroup F) (tol : F) :
  has_shape3 d n m tgt → has_shape3 d n m src → 0 < d → 0 < n →
  Forall (λ urow, length urow = m) (unit_nodes grp) →
  let unique := ∀ e t, e < n → t < m → has_unique_close tgt src tol m e t in
  let index := matched_index tgt src tol m in
  ((∃ r, _find_src_unit_nodes_by_matching tgt src grp tol = Ok (Some r))
   ↔ unique)
  ∧ (unique →
       _find_src_unit_nodes_by_matching tgt src grp tol
       = Ok (Some (reindexed (unit_nodes grp) index n m))
       ∧ ∀ e t, e < n → t < m →
           index e t < m ∧ is_close_at tgt src tol e t (index e t) = true)
  ∧ (unique → ∀ e, e < n →
       index e <$> seq 0 m ≡ₚ seq 0 m
       ↔ ∀ t t' s, t < m → t' < m → s < m →
           is_close_at tgt src tol e t s = true →
           is_close_at tgt src tol e t' s = true → t = t')
  ∧ (¬ unique → _find_src_unit_nodes_by_matching tgt src grp tol = Ok None)
  ∧ ∀ (tgt_discr src_discr : Discretization F) (i_tgt_grp i_src_grp : nat)
      (tgt_idx src_idx : list Z) (tgt_aff src_aff : option (AffineMap F))
      (src_mesh_grp : MeshGroup F),
      tol = fmul f1e4 feps →
      discr_dim tgt_discr ≠ 0 →
      bdry_nodes_of tgt_discr i_tgt_grp tgt_idx tgt_aff = Ok tgt →
      bdry_nodes_of src_discr i_src_grp src_idx src_aff = Ok src →
      getnat (F:=F) (mesh_groups (discr_mesh src_discr)) i_src_grp
      = Ok src_mesh_grp →
      getnat (F:=F) (discr_groups src_discr) i_src_grp = Ok grp →
      (unique →
         _make_cross_face_batches tgt_discr src_discr i_tgt_grp i_src_grp
           tgt_idx src_idx tgt_aff src_aff
         = _find_src_unit_nodes_batches
             (reindexed (unit_nodes grp) index n m) i_src_grp
             tgt_idx src_idx tol)
      ∧ (¬ unique →
         _make_cross_face_batches tgt_discr src_discr i_tgt_grp i_src_grp
           tgt_idx src_idx tgt_aff src_aff
         = u ← _find_src_unit_nodes_via_gauss_newton tgt src grp
                 src_mesh_grp tol;
           _find_src_unit_nodes_batches u i_src_grp tgt_idx src_idx tol).
Proof.
  intros Htgt Hsrc Hd Hn Hunit unique index.
  pose proof (matching_decided d n m tgt src grp tol Htgt Hsrc Hd Hn Hunit)
    as Hrun.
  pose proof (matching_all_unique_decided n m tgt src tol) as Hdec.
  fold unique in Hdec. fold index in Hrun.
  destruct (forallb _ _) eqn:Hall in Hrun.
  - (* every count is 1 *)
    rewrite Hall in Hdec. assert unique as Hu by by apply Hdec.
    split_and!.
    + split; [done|]. intros _. by eexists.
    + intros _. split; [done|]. intros e t He Ht.
      by apply (matched_index_close m tgt src tol e t), Hu.
    + intros _ e He.
      assert (∀ t, t < m → index e t < m
                ∧ is_close_at tgt src tol e t (index e t) = true) as Hidx.
      { intros t Ht. by apply (matched_index_close m tgt src tol e t), Hu. }
      rewrite (index_row_permutation m (index e))
        by (intros t Ht; by apply Hidx).
      split.
      * intros Hinj t t' s Ht Ht' Hs Hc Hc'. apply Hinj; [done..|].
        destruct (Hu e t He Ht) as (s0 & _ & _ & Hs0).
        destruct (Hu e t' He Ht') as (s1 & _ & _ & Hs1).
        destruct (Hidx t Ht) as [Hlt Hcl]. destruct (Hidx t' Ht') as [Hlt' Hcl'].
        rewrite (Hs0 _ Hlt Hcl), (Hs1 _ Hlt' Hcl').
        rewrite <-(Hs0 s Hs Hc). by apply Hs1.
      * intros Hshare t t' Ht Ht' Heq.
        destruct (Hidx t Ht) as [Hlt Hcl]. destruct (Hidx t' Ht') as [_ Hcl'].
        apply (Hshare t t' (index e t)); [done..|]. by rewrite Heq.
    + done.
    + intros tgt_discr src_discr i_tgt_grp i_src_grp tgt_idx src_idx
        tgt_aff src_aff src_mesh_grp -> Hdim Htn Hsn Hmg Hg.
      split; [intros _|done].
      unfold _make_cross_face_batches. rewrite decide_False by done.
      rewrite Htn, Hsn. cbn [mbind Outcome_bind].
      rewrite Hmg, Hg. cbn [mbind Outcome_bind].
      by rewrite Hrun.
  - (* some count differs from 1 *)
    rewrite Hall in Hdec. assert (¬ unique) as Hu.
    { intros Hu. by apply Hdec in Hu. }
    split_and!.
    + split; [|done]. intros [r Hr]. by rewrite Hrun in Hr.
    + done.
    + done.
    + done.
    + intros tgt_discr src_discr i_tgt_grp i_src_grp tgt_idx src_idx
        tgt_aff src_aff src_mesh_grp -> Hdim Htn Hsn Hmg Hg.
      split; [done|intros _].
      unfold _make_cross_face_batches. rewrite decide_False by done.
      rewrite Htn, Hsn. cbn [mbind Outcome_bind].
      rewrite Hmg, Hg. cbn [mbind Outcome_bind].
      by rewrite Hrun.
Qed.
End matching_claims.

Section matching_examples.
Import PrimFloat Float64 Examples.

(** The face seen from the other side: each target node has one source node
    on it, and the unit nodes come back in the opposite order. *)
Lemma matching_succeeds_iff_unique_close_witness :
  _find_src_unit_nodes_by_matching flipped_tgt_nodes face_src_nodes face_grp tol
  = Ok (Some [[[1%float; (-1)%float]]])
  ∧ (∀ e t, e < 1 → t < 2 →
       has_unique_close flipped_tgt_nodes face_src_nodes tol 2 e t)
  ∧ matched_index flipped_tgt_nodes face_src_nodes tol 2 0 <$> seq 0 2
    ≡ₚ seq 0 2
  ∧ _make_cross_face_batches face_discr face_discr 0 0 [1%Z] [0%Z] None None
    = _find_src_unit_nodes_batches [[[1%float; (-1)%float]]] 0
        [1%Z] [0%Z] tol.
Proof.
  assert (has_shape3 2 1 2 flipped_tgt_nodes) as Htgt by repeat constructor.
  assert (has_shape3 2 1 2 face_src_nodes) as Hsrc by repeat constructor.
  assert (Forall (λ urow : list float, length urow = 2) (unit_nodes face_grp))
    as Hunit by repeat constructor.
  destruct (matching_succeeds_iff_unique_close 2 1 2 flipped_tgt_nodes
              face_src_nodes face_grp tol Htgt Hsrc ltac:(lia) ltac:(lia) Hunit)
    as (Hiff & Hsucc & Hperm & _ & Hcross).
  assert (_find_src_unit_nodes_by_matching flipped_tgt_nodes face_src_nodes
            face_grp tol = Ok (Some [[[1%float; (-1)%float]]])) as Hrun
    by (vm_compute; reflexivity).
  assert (∀ e t, e < 1 → t < 2 →
            has_unique_close flipped_tgt_nodes face_src_nodes tol 2 e t) as Hu.
  { apply Hiff. eexists. exact Hrun. }
  split; [exact Hrun|]. split; [exact Hu|]. split.
  { apply (Hperm Hu 0); [lia|]. intros t t' s Ht Ht' Hs Hc Hc'.
    destruct t as [|[|t]]; [| |lia];
      (destruct t' as [|[|t']]; [| |lia]);
      (destruct s as [|[|s]]; [| |lia]);
      first [reflexivity
            |vm_compute in Hc; discriminate Hc
            |vm_compute in Hc'; discriminate Hc']. }
  destruct (Hcross face_discr face_discr 0 0 [1%Z] [0%Z] None None
              face_mesh_grp eq_refl) as [Hmatched _];
    [done|vm_compute; reflexivity..|].
  etransitivity; [exact (Hmatched Hu)|]. vm_compute. reflexivity.
Defined.

(** C1 as stated fails: a successful match need not be a permutation.  Two
    target nodes on the end point (0, 0) of the face each have exactly one
    source node within [tol], the same one; the tier succeeds, the index map
    of the element is (0, 0), and the unit node -1 comes back twice. *)
Lemma matching_not_a_permutation :
  has_shape3 2 1 2 coincident_tgt_nodes ∧ has_shape3 2 1 2 face_src_nodes
  ∧ Forall (λ urow : list float, length urow = 2) (unit_nodes face_grp)
  ∧ (∀ e t, e < 1 → t < 2 →
       has_unique_close coincident_tgt_nodes face_src_nodes tol 2 e t)
  ∧ _find_src_unit_nodes_by_matching coincident_tgt_nodes face_src_nodes
      face_grp tol = Ok (Some [[[(-1)%float; (-1)%float]]])
  ∧ matched_index coincident_tgt_nodes face_src_nodes tol 2 0 <$> seq 0 2
    = [0; 0]
  ∧ ¬ (matched_index coincident_tgt_nodes face_src_nodes tol 2 0 <$> seq 0 2
       ≡ₚ seq 0 2).
Proof.
  split_and!; [repeat constructor..| | | |].
  - apply (matching_all_unique_decided 1 2). vm_compute. reflexivity.
  - vm_compute. reflexivity.
  - vm_compute. reflexivity.
  - assert (matched_index coincident_tgt_nodes face_src_nodes tol 2 0
            <$> seq 0 2 = [0; 0]) as -> by (vm_compute; reflexivity).
    intros Hperm.
    assert (1 ∈ [0; 0]) as Hin by (rewrite Hperm; apply elem_of_seq; lia).
    apply elem_of_cons in Hin as [?|Hin]; [done|].
    apply elem_of_cons in Hin as [?|Hin]; [done|].
    by apply elem_of_nil in Hin.
Qed.

(** Targets at a quarter and three quarters of the face have no source node
    on them: the matcher returns [None], and the batches are those of the
    Gauss-Newton tier. *)
Lemma matching_gives_way_to_gauss_newton :
  _find_src_unit_nodes_by_matching face_tgt_nodes face_src_nodes face_grp tol
  = Ok None
  ∧ _make_cross_face_batches face_discr face_discr 0 0 [2%Z] [0%Z] None None
    = (u ← _find_src_unit_nodes_via_gauss_newton face_tgt_nodes face_src_nodes
             face_grp face_mesh_grp tol;
       _find_src_unit_nodes_batches u 0 [2%Z] [0%Z] tol)
  ∧ _make_cross_face_batches face_discr face_discr 0 0 [2%Z] [0%Z] None None
    = Ok [ {| from_group_index := 0;
              from_element_indices := [0%Z];
              to_element_indices := [2%Z];
              result_unit_nodes := [[(-0.5)%float; 0.5%float]];
              to_element_face := None |} ].
Proof.
  split_and!; vm_compute; reflexivity.
Qed.
End matching_examples.

(** * Further properties of the code *)

(** ** [_find_ibatch_for_face] *)

Section face_batch_facts.
Context {F : Type}.

Lemma filter_singleton_unique {A} (P : A → Prop) `{!∀ x, Decision (P x)}
    (l : list A) (x : A) (i j : nat) (y z : A) :
  filter P l = [x] → l !! i = Some y → l !! j = Some z → P y → P z → i = j.
Proof.
  revert i j. induction l as [|a l IH]; intros i j Hf Hi Hj Hy Hz; [done|].
  destruct (decide (P a)) as [Ha|Ha].
  - rewrite filter_cons_True in Hf by done. injection Hf as -> Hnil.
    assert (∀ k w, l !! k = Some w → P w → False) as Hnone.
    { intros k w Hk Hw.
      assert (w ∈ filter P l) as Hin
        by (apply list_elem_of_filter; split; [done|by eapply list_elem_of_lookup_2]).
      rewrite Hnil in Hin. by apply elem_of_nil in Hin. }
    destruct i as [|i], j as [|j]; [done|..]; simpl in *.
    + by destruct (Hnone j z).
    + by destruct (Hnone i y).
    + by destruct (Hnone i y).
  - rewrite filter_cons_False in Hf by done.
    destruct i as [|i]; simpl in *; [by injection Hi as ->|].
    destruct j as [|j]; simpl in *; [by injection Hj as ->|].
    f_equal. by apply IH.
Qed.

(** The lookup of the batch of a face returns a batch exactly when one
    position of the list holds a batch of that face, and then returns the
    batch at that position; with no such batch, or with two of them, it
    fails its assertion.  It has no other outcome. *)
Theorem find_ibatch_for_face_unique (bs : list (InterpolationBatch F))
    (iface : nat) :
  (∀ b, _find_ibatch_for_face bs iface = Ok b
     ↔ ∃ i, bs !! i = Some b ∧ to_element_face b = Some iface
         ∧ ∀ j b', bs !! j = Some b' → to_element_face b' = Some iface → j = i)
  ∧ (_find_ibatch_for_face bs iface = Raise AssertionError
     ↔ (∀ b, b ∈ bs → to_element_face b ≠ Some iface)
       ∨ ∃ i j b1 b2, i ≠ j ∧ bs !! i = Some b1 ∧ bs !! j = Some b2
           ∧ to_element_face b1 = Some iface ∧ to_element_face b2 = Some iface)
  ∧ ((∃ b, _find_ibatch_for_face bs iface = Ok b)
     ∨ _find_ibatch_for_face bs iface = Raise AssertionError).
Proof.
  set (P := λ batch : InterpolationBatch F, to_element_face batch = Some iface).
  assert (∀ b i, bs !! i = Some b → P b →
            (∀ j b', bs !! j = Some b' → P b' → j = i) → filter P bs = [b])
    as Hone.
  { clear. induction bs as [|a l IH]; intros b i Hi Hb Huniq; [done|].
    destruct i as [|i]; simpl in Hi.
    - injection Hi as ->. rewrite filter_cons_True by done. f_equal.
      destruct (filter P l) as [|c ?] eqn:Hf; [done|].
      assert (c ∈ filter P l) as Hc by (rewrite Hf; left).
      apply list_elem_of_filter in Hc as [Hc [k Hk]%list_elem_of_lookup_1].
      by specialize (Huniq (S k) c Hk Hc).
    - destruct (decide (P a)) as [Ha|Ha].
      { by specialize (Huniq 0 a eq_refl Ha). }
      rewrite filter_cons_False by done. apply (IH b i); [done..|].
      intros j b' Hj Hb'. by specialize (Huniq (S j) b' Hj Hb') as [= ->]. }
  unfold _find_ibatch_for_face. fold P.
  destruct (filter P bs) as [|c1 [|c2 rest]] eqn:Hf.
  - (* no batch of this face *)
    assert (∀ b, b ∈ bs → ¬ P b) as Hnone.
    { intros b Hb Hp. assert (b ∈ filter P bs) as Hin
        by (by apply list_elem_of_filter).
      rewrite Hf in Hin. by apply elem_of_nil in Hin. }
    split_and!.
    + intros b. split; [done|]. intros (i & Hi & Hb & _).
      destruct (Hnone b); [by eapply list_elem_of_lookup_2|done].
    + split; [by left|done].
    + by right.
  - (* exactly one *)
    assert (c1 ∈ filter P bs) as Hc by (rewrite Hf; left).
    apply list_elem_of_filter in Hc as [Hc [i Hi]%list_elem_of_lookup_1].
    split_and!.
    + intros b. split.
      * intros [= <-]. exists i. split_and!; [done..|].
        intros j b' Hj Hb'.
        by eapply (filter_singleton_unique P bs c1 j i b' c1).
      * intros (k & Hk & Hb & Huniq). f_equal.
        pose proof (Hone b k Hk Hb Huniq) as Hf'. congruence.
    + split; [done|]. intros [Hnone|(k & j & b1 & b2 & Hkj & Hk & Hj & H1 & H2)].
      * destruct (Hnone c1); [by eapply list_elem_of_lookup_2|done].
      * destruct Hkj. by eapply (filter_singleton_unique P bs c1 k j b1 b2).
    + left. by eexists.
  - (* two or more *)
    split_and!.
    + intros b. split; [done|]. intros (i & Hi & Hb & Huniq).
      pose proof (Hone b i Hi Hb Huniq) as Hf'. congruence.
    + split; [|done]. intros _. right.
      assert (∃ pre mid post, bs = pre ++ c1 :: mid ++ c2 :: post
                ∧ P c1 ∧ P c2) as (pre & mid & post & -> & H1 & H2).
      { clear Hone. revert c1 c2 rest Hf.
        induction bs as [|a l IH]; intros c1 c2 rest Hf; [done|].
        destruct (decide (P a)) as [Ha|Ha].
        - rewrite filter_cons_True in Hf by done. injection Hf as -> Hf.
          assert (c2 ∈ filter P l) as Hc by (rewrite Hf; left).
          apply list_elem_of_filter in Hc as [Hc Hin].
          apply list_elem_of_split in Hin as (mid & post & ->).
          by exists [], mid, post.
        - rewrite filter_cons_False in Hf by done.
          destruct (IH _ _ _ Hf) as (pre & mid & post & -> & ? & ?).
          by exists (a :: pre), mid, post. }
      exists (length pre), (length pre + S (length mid)), c1, c2.
      split_and!; [lia| | |done..].
      * by rewrite lookup_app_r, Nat.sub_diag by lia.
      * rewrite lookup_app_r by lia.
        replace (length pre + S (length mid) - length pre)
          with (S (length mid)) by lia.
        simpl. by rewrite lookup_app_r, Nat.sub_diag by lia.
    + by right.
Qed.
End face_batch_facts.

(** ** [np.argsort] and [np.searchsorted] as the builder combines them *)

Section index_mapping_facts.

Lemma fmap_lookup_total_seq (vals : list Z) :
  (λ i, vals !!! i) <$> seq 0 (length vals) = vals.
Proof.
  apply list_eq. intros i. rewrite list_lookup_fmap.
  destruct (decide (i < length vals)) as [Hi|Hi].
  - rewrite lookup_seq_lt by done. simpl.
    by rewrite <-list_lookup_lookup_total_lt.
  - rewrite lookup_seq_ge by lia. simpl. symmetry. apply lookup_ge_None. lia.
Qed.

Lemma argsort_Permutation (vals : list Z) :
  argsort vals ≡ₚ seq 0 (length vals).
Proof. unfold argsort. apply merge_sort_Permutation. Qed.

Lemma argsort_values_Permutation (vals : list Z) :
  (λ i, vals !!! i) <$> argsort vals ≡ₚ vals.
Proof.
  rewrite argsort_Permutation. by rewrite fmap_lookup_total_seq.
Qed.

Lemma argsort_values_sorted (vals : list Z) :
  StronglySorted Z.le ((λ i, vals !!! i) <$> argsort vals).
Proof.
  assert (StronglySorted
            (λ i j : nat,
               (vals !!! i < vals !!! j)%Z ∨ (vals !!! i = vals !!! j ∧ i ≤ j))
            (argsort vals)) as Hs.
  { apply Sorted_StronglySorted.
    - intros i j k [Hij|[Hij ?]] [Hjk|[Hjk ?]]; [left; lia..|].
      right. split; [congruence|lia].
    - unfold argsort. apply Sorted_merge_sort.
      intros i j. destruct (Z.lt_trichotomy (vals !!! i) (vals !!! j))
        as [?|[?|?]]; [by left; left| |by right; left].
      destruct (Nat.le_ge_cases i j); [left|right]; right; split; done. }
  induction Hs as [|i l Hs IH Hall]; simpl; constructor; [done|].
  apply Forall_fmap. eapply Forall_impl; [exact Hall|].
  intros j [?|[? ?]]; simpl; lia.
Qed.

(** In a sorted array an entry that occurs sits at the position that counts
    the entries below it. *)
Lemma sorted_lookup_count_below (l : list Z) (v : Z) :
  StronglySorted Z.le l → v ∈ l →
  l !! length (filter (λ x, (x < v)%Z) l) = Some v.
Proof.
  induction 1 as [|x l Hs IH Hall]; intros Hv; [by apply elem_of_nil in Hv|].
  destruct (decide (x < v)%Z) as [Hx|Hx].
  - rewrite filter_cons_True by done. simpl. apply IH.
    apply elem_of_cons in Hv as [->|Hv]; [lia|done].
  - rewrite filter_cons_False by done.
    assert (v = x) as ->.
    { apply elem_of_cons in Hv as [->|Hv]; [done|].
      rewrite Forall_forall in Hall. specialize (Hall v Hv). lia. }
    assert (filter (λ y, (y < x)%Z) l = []) as ->; [|done].
    clear -Hall. induction Hall as [|y l Hy Hall IH]; [done|].
    rewrite filter_cons_False by lia. exact IH.
Qed.

(** [sort_idx[np.searchsorted(vals, v, sorter=sort_idx)]] is a position of
    [v] in [vals], whenever [v] occurs in [vals]. *)
Lemma argsort_searchsorted {F} (vals : list Z) (v : Z) :
  v ∈ vals →
  ∃ i, getnat (F:=F) (argsort vals) (searchsorted vals v) = Ok i
       ∧ vals !! i = Some v.
Proof.
  intros Hv.
  assert (searchsorted vals v
          = length (filter (λ x, (x < v)%Z) ((λ i, vals !!! i) <$> argsort vals)))
    as Hk.
  { unfold searchsorted. by rewrite argsort_values_Permutation. }
  pose proof (sorted_lookup_count_below _ v (argsort_values_sorted vals)) as Hs.
  rewrite <-Hk in Hs.
  assert (v ∈ (λ i, vals !!! i) <$> argsort vals) as Hv'
    by (by rewrite argsort_values_Permutation).
  specialize (Hs Hv'). rewrite list_lookup_fmap in Hs.
  destruct (argsort vals !! searchsorted vals v) as [i|] eqn:Hi; [|done].
  injection Hs as Hs. exists i. split; [by apply getnat_Ok|].
  assert (i ∈ seq 0 (length vals)) as Hin.
  { rewrite <-argsort_Permutation. by eapply list_elem_of_lookup_2. }
  apply elem_of_seq in Hin. rewrite <-Hs.
  apply list_lookup_lookup_total_lt. lia.
Qed.
End index_mapping_facts.

(** ** The index wrangling of [make_opposite_face_connection] *)

Section restriction_index_facts.
Context {F : Type}.

Lemma mapM_getnat_in_range {A} (l : list A) (idx : list nat) (k : list A) :
  mapM (getnat (F:=F) l) idx = Ok k →
  Forall2 (λ i x, l !! i = Some x) idx k.
Proof.
  intros Hk. apply mapM_Ok in Hk. eapply Forall2_impl; [exact Hk|].
  intros i x Hi. simpl in Hi. by apply getnat_Ok in Hi.
Qed.

Lemma mapM_getnat_raises {A} (l : list A) (idx : list nat) (e : Exn F) :
  mapM (getnat (F:=F) l) idx = Raise e → e = IndexError.
Proof.
  intros (i & _ & Hi)%mapM_Raise. unfold getnat in Hi.
  destruct (l !! i); by inversion Hi.
Qed.

Lemma mapM_getnat_not_Hang {A} (l : list A) (idx : list nat) :
  mapM (getnat (F:=F) l) idx ≠ Hang.
Proof.
  intros (i & _ & Hi)%mapM_Hang. unfold getnat in Hi.
  by destruct (l !! i).
Qed.

(** The positions that the sorted search finds for entries that all occur. *)
Lemma subset_positions (vbc_els adj_els : list Z) :
  (∀ a, a ∈ adj_els → a ∈ vbc_els) →
  ∃ idx, mapM (λ v, getnat (F:=F) (argsort vbc_els) (searchsorted vbc_els v))
              adj_els = Ok idx
         ∧ mapM (getnat (F:=F) vbc_els) idx = Ok adj_els.
Proof.
  induction adj_els as [|a adj_els IH]; intros Hsub; [by exists []|].
  destruct IH as (idx & Hidx & Hback).
  { intros a' Ha'. apply Hsub. by right. }
  destruct (argsort_searchsorted (F:=F) vbc_els a) as (i & Hi & Hv).
  { apply Hsub. by left. }
  exists (i :: idx). simpl. rewrite Hi, Hidx. simpl. split; [done|].
  by rewrite (proj2 (getnat_Ok vbc_els i a) Hv), Hback.
Qed.

(** What the sorted search hands back lies in the range of the array. *)
Lemma searched_positions_in_range (vbc_els adj_els : list Z) (idx : list nat) :
  mapM (λ v, getnat (F:=F) (argsort vbc_els) (searchsorted vbc_els v))
       adj_els = Ok idx →
  Forall (λ i, i < length vbc_els) idx.
Proof.
  intros Hidx. apply mapM_Ok in Hidx.
  induction Hidx as [|a i adj idx Hi _ IH]; constructor; [|done].
  apply getnat_Ok in Hi.
  assert (i ∈ seq 0 (length vbc_els)) as Hin.
  { rewrite <-argsort_Permutation. by eapply list_elem_of_lookup_2. }
  apply elem_of_seq in Hin. lia.
Qed.

Lemma mapM_getnat_total {A} (l : list A) (idx : list nat) :
  Forall (λ i, i < length l) idx → ∃ k, mapM (getnat (F:=F) l) idx = Ok k.
Proof.
  intros Hidx. apply mapM_total. eapply Forall_impl; [exact Hidx|].
  intros i Hi. simpl in Hi. apply lookup_lt_is_Some_2 in Hi as [x Hx].
  exists x. by apply getnat_Ok.
Qed.

(** Success of the index wrangling: the selected boundary elements are, one
    for one and in the order of the adjacency group, the boundary elements
    that the restriction batch of this face assigns to the adjacent volume
    elements (the batch pairing its two index arrays entry by entry). *)
Lemma opposite_face_tgt_elements_aligned
    (conn : DirectDiscretizationConnection F) (i_tgt_grp : nat)
    (adj : InteriorAdjacencyGroup F) (i_face_tgt : nat) (tgts : list Z) :
  opposite_face_tgt_elements conn i_tgt_grp adj i_face_tgt = Ok (Some tgts) →
  ∃ conn_grp b adj_els,
    groups conn !! i_tgt_grp = Some conn_grp
    ∧ _find_ibatch_for_face (batches conn_grp) i_face_tgt = Ok b
    ∧ mask_select (F:=F) (elements adj)
        ((λ f, bool_decide (f = Z.of_nat i_face_tgt)) <$> element_faces adj)
      = Ok adj_els
    ∧ adj_els ≠ []
    ∧ (length (to_element_indices b) = length (from_element_indices b) →
       Forall2 (λ a t, ∃ k, from_element_indices b !! k = Some a
                            ∧ to_element_indices b !! k = Some t) adj_els tgts).
Proof.
  unfold opposite_face_tgt_elements. intros Hrun.
  apply bind_Ok in Hrun as (conn_grp & Hgrp%getnat_Ok & Hrun).
  apply bind_Ok in Hrun as (b & Hb & Hrun).
  apply bind_Ok in Hrun as (adj_els & Hadj & Hrun).
  case_decide in Hrun as Hlen; [done|].
  apply bind_Ok in Hrun as (used_idx & Hidx & Hrun).
  apply bind_Ok in Hrun as (used & Hused & Hrun).
  apply bind_Ok in Hrun as ([] & Hassert%py_assert_Ok & Hrun).
  apply bind_Ok in Hrun as (tgts' & Htgts & [= <-]).
  apply bool_decide_eq_true in Hassert as ->.
  exists conn_grp, b, adj_els. split_and!; [done..| |].
  { intros ->. by apply Hlen. }
  intros Hto.
  destruct used_idx as [idx|]; simpl in Hused, Htgts.
  - apply mapM_getnat_in_range in Hused, Htgts.
    clear Hidx Hlen Hadj. revert tgts' Htgts.
    induction Hused as [|i a idx adj_els Hi _ IH]; intros tgts' Htgts.
    + apply Forall2_nil_inv_l in Htgts as ->. constructor.
    + apply Forall2_cons_inv_l in Htgts as (t & tgts'' & Ht & Htgts & ->).
      constructor; [by exists i|by apply IH].
  - injection Hused as <-. injection Htgts as <-.
    case_decide in Hidx as Hsame; [|by apply fmap_Ok in Hidx as (? & _ & [=])].
    clear Hidx. apply Forall2_same_length_lookup. split; [done|].
    intros k a t Ha Ht. by exists k.
Qed.

(** When the index wrangling goes through.  With as many adjacent elements
    as the restriction batch has, the two must list the same elements in the
    same order; with a different number, every adjacent element must occur
    in the batch.  Otherwise the loop body stops with an exception. *)
Theorem opposite_face_subset_mapping
    (conn : DirectDiscretizationConnection F) (i_tgt_grp : nat)
    (adj : InteriorAdjacencyGroup F) (i_face_tgt : nat)
    (conn_grp : DiscretizationConnectionElementGroup F)
    (b : InterpolationBatch F) (adj_els : list Z) :
  groups conn !! i_tgt_grp = Some conn_grp →
  _find_ibatch_for_face (batches conn_grp) i_face_tgt = Ok b →
  mask_select (F:=F) (elements adj)
    ((λ f, bool_decide (f = Z.of_nat i_face_tgt)) <$> element_faces adj)
  = Ok adj_els →
  adj_els ≠ [] →
  length (to_element_indices b) = length (from_element_indices b) →
  let run := opposite_face_tgt_elements conn i_tgt_grp adj i_face_tgt in
  (length adj_els = length (from_element_indices b) →
     (adj_els = from_element_indices b → run = Ok (Some (to_element_indices b)))
     ∧ (adj_els ≠ from_element_indices b → run = Raise AssertionError))
  ∧ (length adj_els ≠ length (from_element_indices b) →
     ((∀ a, a ∈ adj_els → a ∈ from_element_indices b) →
        ∃ tgts, run = Ok (Some tgts))
     ∧ ((∃ a, a ∈ adj_els ∧ a ∉ from_element_indices b) →
        run = Raise IndexError ∨ run = Raise AssertionError)).
Proof.
  intros Hgrp Hb Hadj Hne Hto run. subst run.
  apply (getnat_Ok (F:=F)) in Hgrp.
  unfold opposite_face_tgt_elements.
  rewrite Hgrp. cbn [mbind Outcome_bind]. rewrite Hb. cbn [mbind Outcome_bind].
  rewrite Hadj. cbn [mbind Outcome_bind].
  rewrite decide_False by (by destruct adj_els).
  split.
  - intros Hlen. rewrite decide_True by done. cbn [mbind Outcome_bind subscript].
    split.
    + intros <-. by rewrite bool_decide_eq_true_2.
    + intros Hdiff. rewrite bool_decide_eq_false_2 by done. done.
  - intros Hlen. rewrite decide_False by done. split.
    + intros Hsub.
      destruct (subset_positions (from_element_indices b) adj_els Hsub)
        as (idx & Hidx & Hback).
      rewrite Hidx. cbn [fmap Outcome_fmap mbind Outcome_bind subscript].
      rewrite Hback. cbn [mbind Outcome_bind].
      rewrite bool_decide_eq_true_2 by done. cbn [py_assert mbind Outcome_bind].
      destruct (mapM_getnat_total (to_element_indices b) idx) as [tgts Htgts].
      { rewrite Hto. by eapply searched_positions_in_range. }
      exists tgts. by rewrite Htgts.
    + intros (a & Ha & Hnot).
      destruct (mapM _ adj_els) as [idx|e|] eqn:Hidx.
      * right. cbn [fmap Outcome_fmap mbind Outcome_bind subscript].
        destruct (mapM_getnat_total (from_element_indices b) idx)
          as [used Hused]; [by eapply searched_positions_in_range|].
        rewrite Hused. cbn [mbind Outcome_bind].
        rewrite bool_decide_eq_false_2; [done|].
        intros ->. apply Hnot. apply mapM_getnat_in_range in Hused.
        apply list_elem_of_lookup_1 in Ha as [k Hk].
        destruct (Forall2_lookup_r _ _ _ _ _ Hused Hk) as (i & _ & Hi).
        by eapply list_elem_of_lookup_2.
      * left. cbn [fmap Outcome_fmap mbind Outcome_bind].
        f_equal. apply mapM_Raise in Hidx as (v & _ & Hv).
        unfold getnat in Hv. destruct (argsort _ !! _); by inversion Hv.
      * exfalso. apply mapM_Hang in Hidx as (v & _ & Hv).
        unfold getnat in Hv. by destruct (argsort _ !! _).
Qed.
End restriction_index_facts.

(** ** More on [_find_src_unit_nodes_batches] *)

Section batches_more_facts.
Context {F : Type} `{Dtype F}.

Local Abbreviation T3 := (list (list (list F))).

(** Subscripting two arrays at once. *)
Lemma mapM_zip {A B C} (f : A → Outcome F B) (g : A → Outcome F C)
    (l : list A) (k1 : list B) (k2 : list C) :
  mapM f l = Ok k1 → mapM g l = Ok k2 →
  mapM (λ x, y ← f x; z ← g x; Ok (y, z)) l = Ok (zip k1 k2).
Proof.
  intros H1%mapM_Ok H2%mapM_Ok. apply mapM_Ok. revert k2 H2.
  induction H1 as [|x y l k1 Hy _ IH]; intros k2 H2.
  - apply Forall2_nil_inv_l in H2 as ->. constructor.
  - apply Forall2_cons_inv_l in H2 as (z & k2' & Hz & H2 & ->).
    simpl. constructor; [by rewrite Hy, Hz|by apply IH].
Qed.

Lemma mapM_getnat_pairs_seq (src tgt : list Z) :
  length src = length tgt →
  mapM (λ e, y ← getnat (F:=F) src e; z ← getnat (F:=F) tgt e; Ok (y, z))
       (seq 0 (length tgt))
  = Ok (zip src tgt).
Proof.
  intros Hlen. apply mapM_zip.
  - rewrite <-Hlen. apply mapM_getnat_seq.
  - apply mapM_getnat_seq.
Qed.

(** The groups of positions behind the batches of a run. *)
Lemma batches_groups (u : T3) (i_src_grp : nat) (tgt src : list Z) (tol : F)
    (bs : list (InterpolationBatch F)) :
  _find_src_unit_nodes_batches u i_src_grp tgt src tol = Ok bs →
  ∃ gs : list (list nat),
    concat gs ≡ₚ seq 0 (shape3 u).1.2
    ∧ Forall2 (λ g b, g ≠ []
        ∧ from_group_index b = i_src_grp
        ∧ mapM (getnat (F:=F) src) g = Ok (from_element_indices b)
        ∧ mapM (getnat (F:=F) tgt) g = Ok (to_element_indices b)) gs bs.
Proof.
  unfold _find_src_unit_nodes_batches.
  destruct (shape3 u) as [[d n] m]. case_decide as Hd; [done|].
  intros Hrun. cbn [fst snd].
  destruct (batches_loop_Ok _ _ _ _ _ _ _ _ Hrun) as (gs & Hperm & Hall).
  rewrite np_where_not_done_initial in Hperm.
  exists gs. split; [done|].
  eapply Forall2_impl; [exact Hall|].
  intros g b (Hg & e0 & _ & _ & Hb).
  destruct Hb as (? & _ & _ & ? & ? & _). done.
Qed.

(** The batches keep the pairing of the two index arrays: the pairs
    (source element, target element) of all batches together are the pairs
    that the two arrays make position by position, each once. *)
Theorem batches_keep_pairing (u : T3) (i_src_grp : nat) (tgt src : list Z)
    (tol : F) (bs : list (InterpolationBatch F)) :
  _find_src_unit_nodes_batches u i_src_grp tgt src tol = Ok bs →
  (shape3 u).1.2 = length tgt → length src = length tgt →
  concat ((λ b, zip (from_element_indices b) (to_element_indices b)) <$> bs)
  ≡ₚ zip src tgt.
Proof.
  intros Hrun Hn Hlen.
  destruct (batches_groups _ _ _ _ _ _ Hrun) as (gs & Hperm & Hall).
  rewrite Hn in Hperm.
  assert (mapM (λ e, y ← getnat (F:=F) src e; z ← getnat (F:=F) tgt e; Ok (y, z))
               (concat gs)
          = Ok (concat ((λ b, zip (from_element_indices b)
                                  (to_element_indices b)) <$> bs))) as Hpairs.
  { apply mapM_concat. apply Forall2_fmap_r.
    eapply Forall2_impl; [exact Hall|]. intros g b (_ & _ & Hfrom & Hto).
    by apply mapM_zip. }
  destruct (mapM_Permutation _ _ _ _ Hperm Hpairs) as (k' & Hk' & Hp).
  rewrite mapM_getnat_pairs_seq in Hk' by done. by injection Hk' as <-.
Qed.

(** Every batch of a run that finishes names the source group it was asked
    for and holds at least one element, so that such a run yields no more
    batches than there are elements. *)
Lemma batches_nonempty_and_bounded (u : T3) (i_src_grp : nat)
    (tgt src : list Z) (tol : F) (bs : list (InterpolationBatch F)) :
  _find_src_unit_nodes_batches u i_src_grp tgt src tol = Ok bs →
  (∀ b, b ∈ bs →
     from_group_index b = i_src_grp
     ∧ from_element_indices b ≠ [] ∧ to_element_indices b ≠ [])
  ∧ length bs ≤ (shape3 u).1.2.
Proof.
  intros Hrun.
  destruct (batches_groups _ _ _ _ _ _ Hrun) as (gs & Hperm & Hall).
  split.
  - apply Forall2_Forall_r
      with (Q := λ b, from_group_index b = i_src_grp
                      ∧ from_element_indices b ≠ []
                      ∧ to_element_indices b ≠ []) in Hall.
    { by rewrite Forall_forall in Hall. }
    apply Forall_forall. intros g _ b (Hg & Hgrp & Hfrom & Hto).
    apply mapM_Ok_length in Hfrom, Hto.
    split; [done|]. split; intros Hnil; rewrite Hnil in *; by destruct g.
  - rewrite <-(Forall2_length _ _ _ Hall).
    apply Permutation_length in Hperm. rewrite length_seq in Hperm.
    rewrite <-Hperm.
    assert (Forall (λ g : list nat, g ≠ []) gs) as Hne.
    { eapply Forall2_Forall_l; [exact Hall|].
      apply Forall_forall. by intros b _ g [? _]. }
    clear -Hne. induction Hne as [|g gs Hg _ IH]; [done|]. simpl.
    rewrite length_app. destruct g; [done|]. simpl. lia.
Qed.
End batches_more_facts.

(** ** [_find_src_unit_nodes_batches] as a generator, pass by pass *)

Section batches_generator_facts.
Context {F : Type} `{Dtype F}.

Local Abbreviation T3 := (list (list (list F))).

(** A pass that finds no element close to its template changes nothing:
    every later pass yields the same batch without elements, and the loop
    does not reach its [return]. *)
Lemma batches_yielded_stuck (u : T3) (i_src_grp : nat) (tgt src : list Z)
    (tol : F) (done_elements : list bool) (first : nat) (rest : list nat)
    (dist : list F) :
  np_where (negb <$> done_elements) = first :: rest →
  mapM (unit_node_dist_of u (element_nodes u first)) (first :: rest) = Ok dist →
  fst <$> filter (λ p, flt p.2 tol = true) (zip (first :: rest) dist) = [] →
  ∀ passes bs returned,
    batches_yielded u i_src_grp tgt src tol passes done_elements
    = Ok (bs, returned) →
    returned = false
    ∧ ∀ b, b ∈ bs →
        b = {| from_group_index := i_src_grp;
               from_element_indices := [];
               to_element_indices := [];
               result_unit_nodes := element_nodes u first;
               to_element_face := None |}.
Proof.
  intros Htodo Hdist Hnone passes.
  induction passes as [|passes IH]; intros bs returned; simpl.
  { intros [= <- <-]. split; [done|]. by intros b ?%elem_of_nil. }
  rewrite Htodo, Hdist. cbn [mbind Outcome_bind]. rewrite Hnone.
  cbn [mapM mbind Outcome_bind mret Outcome_ret].
  change (mark_done done_elements []) with done_elements.
  intros Hrun. inv_bind Hrun. destruct x as [later ret]. simpl in Hrun.
  injection Hrun as <- <-.
  destruct (IH _ _ Hx) as [-> Hall]. split; [done|].
  intros b [->|Hb]%elem_of_cons; [done|by apply Hall].
Qed.

(** The index arrays of a yielded batch have one length, that of
    [close_els]. *)
Lemma batches_yielded_members (u : T3) (i_src_grp : nat) (tgt src : list Z)
    (tol : F) (passes : nat) (done_elements : list bool)
    (bs : list (InterpolationBatch F)) (returned : bool) :
  batches_yielded u i_src_grp tgt src tol passes done_elements
  = Ok (bs, returned) →
  ∀ b, b ∈ bs →
    from_group_index b = i_src_grp ∧ to_element_face b = None
    ∧ length (from_element_indices b) = length (to_element_indices b).
Proof.
  revert done_elements bs returned.
  induction passes as [|passes IH]; intros dn bs returned; simpl.
  { intros [= <- <-]. by intros b ?%elem_of_nil. }
  destruct (np_where (negb <$> dn)) as [|first rest] eqn:Htodo.
  { intros [= <- <-]. by intros b ?%elem_of_nil. }
  intros Hrun. inv_bind Hrun. destruct x2 as [later ret]. simpl in Hrun.
  injection Hrun as <- <-.
  intros b [->|Hb]%elem_of_cons; [|by eapply IH].
  simpl. split_and!; [done..|].
  apply mapM_Ok_length in Hx0, Hx1. congruence.
Qed.

(** A generator that reaches its [return] has made progress on every pass,
    and any number of passes above the number of its batches collects the
    same batches. *)
Lemma batches_yielded_returned (u : T3) (i_src_grp : nat) (tgt src : list Z)
    (tol : F) (passes : nat) (done_elements : list bool)
    (bs : list (InterpolationBatch F)) :
  batches_yielded u i_src_grp tgt src tol passes done_elements = Ok (bs, true) →
  ∀ fuel, length bs < fuel →
    batches_loop u i_src_grp tgt src tol fuel done_elements = Ok bs.
Proof.
  revert done_elements bs.
  induction passes as [|passes IH]; intros dn bs; simpl; [done|].
  destruct (np_where (negb <$> dn)) as [|first rest] eqn:Htodo.
  { intros [= <-] [|fuel] Hfuel; [simpl in Hfuel; lia|].
    simpl. by rewrite Htodo. }
  intros Hrun. inv_bind Hrun. rename x into dist, x0 into from_idx, x1 into to_idx.
  destruct x2 as [later ret]. simpl in Hrun. injection Hrun as <- ->.
  intros [|fuel] Hfuel; [lia|]. simpl in Hfuel.
  simpl. rewrite Htodo, Hx. cbn [mbind Outcome_bind].
  rewrite Hx0. cbn [mbind Outcome_bind]. rewrite Hx1. cbn [mbind Outcome_bind].
  destruct (fst <$> filter _ _) as [|c0 c'] eqn:Hc.
  { change (mark_done dn []) with dn in Hx2.
    by destruct (batches_yielded_stuck u i_src_grp tgt src tol dn first rest
                   dist Htodo Hx Hc _ _ _ Hx2). }
  rewrite (IH _ _ Hx2 fuel) by lia. done.
Qed.

(** A batch without elements is followed by the same batch for ever. *)
Lemma batches_yielded_empty (u : T3) (i_src_grp : nat) (tgt src : list Z)
    (tol : F) (passes : nat) (done_elements : list bool)
    (bs : list (InterpolationBatch F)) (returned : bool) :
  batches_yielded u i_src_grp tgt src tol passes done_elements
  = Ok (bs, returned) →
  ∀ k b, bs !! k = Some b → from_element_indices b = [] →
    returned = false ∧ ∀ k' b', k ≤ k' → bs !! k' = Some b' → b' = b.
Proof.
  revert done_elements bs returned.
  induction passes as [|passes IH]; intros dn bs returned; simpl.
  { intros [= <- <-] k b Hk. by rewrite lookup_nil in Hk. }
  destruct (np_where (negb <$> dn)) as [|first rest] eqn:Htodo.
  { intros [= <- <-] k b Hk. by rewrite lookup_nil in Hk. }
  intros Hrun. inv_bind Hrun. rename x into dist, x0 into from_idx, x1 into to_idx.
  destruct x2 as [later ret]. simpl in Hrun. injection Hrun as <- <-.
  intros [|k] b Hk Hempty; simpl in Hk.
  - injection Hk as <-. simpl in Hempty. subst from_idx.
    apply mapM_Ok_length in Hx0 as Hlen. simpl in Hlen.
    destruct (fst <$> filter _ _) as [|c0 c'] eqn:Hc; [|done].
    simpl in Hx1. injection Hx1 as <-.
    change (mark_done dn []) with dn in Hx2.
    destruct (batches_yielded_stuck u i_src_grp tgt src tol dn first rest
                dist Htodo Hx Hc _ _ _ Hx2) as [-> Hall].
    split; [done|]. intros [|k'] b' _ Hk'; simpl in Hk'; [by injection Hk' as <-|].
    apply list_elem_of_lookup_2 in Hk'. by apply Hall.
  - destruct (IH _ _ _ Hx2 k b Hk Hempty) as [-> Hsame]. split; [done|].
    intros [|k'] b' Hle Hk'; [lia|]. simpl in Hk'.
    apply (Hsame k' b'); [lia|done].
Qed.

(** The generator pass by pass.  Every batch that it yields names the
    source group it was called with and no face, and pairs index arrays of
    one length.  A batch may hold no element (when no element left is
    within [tol] of the template): then every later pass yields the same
    batch and the loop never reaches its [return].  Hence a generator that
    is exhausted has yielded only batches with at least one element, no
    more of them than there are elements, and they are the batches that
    [list(...)] collects. *)
Theorem generator_batches_pass_by_pass (u : T3) (i_src_grp : nat)
    (tgt src : list Z) (tol : F) (passes : nat)
    (bs : list (InterpolationBatch F)) (returned : bool) :
  _find_src_unit_nodes_batches_yielded u i_src_grp tgt src tol passes
  = Ok (bs, returned) →
  (∀ b, b ∈ bs →
     from_group_index b = i_src_grp ∧ to_element_face b = None
     ∧ length (from_element_indices b) = length (to_element_indices b))
  ∧ (∀ k b, bs !! k = Some b → from_element_indices b = [] →
       returned = false ∧ ∀ k' b', k ≤ k' → bs !! k' = Some b' → b' = b)
  ∧ (returned = true →
       _find_src_unit_nodes_batches u i_src_grp tgt src tol = Ok bs
       ∧ (∀ b, b ∈ bs →
            from_element_indices b ≠ [] ∧ to_element_indices b ≠ [])
       ∧ length bs ≤ (shape3 u).1.2).
Proof.
  unfold _find_src_unit_nodes_batches_yielded.
  destruct (shape3 u) as [[d n] m] eqn:Hshape.
  destruct passes as [|passes].
  { intros [= <- <-]. split_and!; [by intros b ?%elem_of_nil| |done].
    intros k b Hk. by rewrite lookup_nil in Hk. }
  case_decide as Hd; [done|]. intros Hrun. split_and!.
  - by eapply batches_yielded_members.
  - by eapply batches_yielded_empty.
  - intros ->.
    pose proof (batches_yielded_returned _ _ _ _ _ _ _ _ Hrun) as Hloop.
    assert (length bs ≤ n) as Hle.
    { destruct (batches_loop_Ok _ _ _ _ _ _ _ _ (Hloop (S (length bs)) ltac:(lia)))
        as (gs & Hperm & Hall).
      rewrite np_where_not_done_initial in Hperm.
      rewrite <-(Forall2_length _ _ _ Hall).
      apply Permutation_length in Hperm. rewrite length_seq in Hperm.
      rewrite <-Hperm.
      assert (Forall (λ g : list nat, g ≠ []) gs) as Hne.
      { eapply Forall2_Forall_l; [exact Hall|].
        apply Forall_forall. by intros b _ g [? _]. }
      clear -Hne. induction Hne as [|g gs Hg _ IH]; [done|]. simpl.
      rewrite length_app. destruct g; [done|]. simpl. lia. }
    assert (_find_src_unit_nodes_batches u i_src_grp tgt src tol = Ok bs)
      as Hlist.
    { unfold _find_src_unit_nodes_batches. rewrite Hshape.
      rewrite decide_False by done. apply Hloop. lia. }
    split; [done|].
    destruct (batches_nonempty_and_bounded _ _ _ _ _ _ Hlist) as [Hall Hlen].
    split; [|done]. intros b Hb. by destruct (Hall b Hb) as (_ & ? & ?).
Qed.
End batches_generator_facts.

(** ** Lookup tables: assignment by index arrays and subscripts *)

Section table_facts.
Context {F : Type}.

(** The value that a sequence of assignments [table[r, c] = v] leaves at
    [r, c]: that of the last assignment there, if any. *)
Fixpoint written (kvs : list (Z * Z * Z)) (r c : Z) : option Z :=
  match kvs with
  | [] => None
  | (r', c', v) :: rest =>
      match written rest r c with
      | Some w => Some w
      | None => if decide (r' = r ∧ c' = c) then Some v else None
      end
  end.

Lemma written_Some (kvs : list (Z * Z * Z)) (r c v : Z) :
  written kvs r c = Some v → (r, c, v) ∈ kvs.
Proof.
  induction kvs as [|[[r' c'] v'] rest IH]; [done|]. simpl.
  destruct (written rest r c) as [w|].
  - intros [= ->]. right. by apply IH.
  - case_decide as Hk; [|done]. destruct Hk as [-> ->]. intros [= ->]. left.
Qed.

Lemma written_None (kvs : list (Z * Z * Z)) (r c : Z) :
  written kvs r c = None ↔ ∀ v, (r, c, v) ∉ kvs.
Proof.
  induction kvs as [|[[r' c'] v'] rest IH]; simpl.
  - split; [|done]. intros _ v Hin. by apply elem_of_nil in Hin.
  - destruct (written rest r c) as [w|] eqn:Hw.
    + split; [done|]. intros Hnone. destruct (Hnone w). right.
      by apply written_Some.
    + case_decide as Hk.
      * destruct Hk as [-> ->]. split; [done|]. intros Hnone.
        destruct (Hnone v'). left.
      * split; [|done]. intros _ v Hin.
        apply elem_of_cons in Hin as [[= -> -> ->]|Hin]; [by destruct Hk|].
        by apply (proj1 IH eq_refl v).
Qed.

Lemma norm_index_in_range (n : nat) (i : Z) :
  (0 ≤ i < Z.of_nat n)%Z → norm_index (F:=F) n i = Ok (Z.to_nat i).
Proof.
  intros Hi. unfold norm_index.
  rewrite (proj2 (Z.ltb_ge i 0)) by lia.
  rewrite (proj2 (Z.leb_le 0 i)) by lia.
  by rewrite (proj2 (Z.ltb_lt i (Z.of_nat n))) by lia.
Qed.

Lemma getitem_in_range {A} (l : list A) (i : Z) (x : A) :
  (0 ≤ i)%Z → l !! Z.to_nat i = Some x → getitem (F:=F) l i = Ok x.
Proof.
  intros Hi Hx. unfold getitem.
  assert (Z.to_nat i < length l) by (by eapply lookup_lt_Some).
  rewrite (proj2 (Z.ltb_ge i 0)) by lia.
  rewrite (proj2 (Z.leb_le 0 i)) by lia.
  rewrite (proj2 (Z.ltb_lt i (Z.of_nat (length l)))) by lia.
  simpl. by rewrite Hx.
Qed.

Lemma table_get_in_range (R C : nat) (table : list (list Z)) (r c : Z) :
  has_shape2 R C table → (0 ≤ r < Z.of_nat R)%Z → (0 ≤ c < Z.of_nat C)%Z →
  table_get (F:=F) table r c
  = Ok ((table !!! Z.to_nat r) !!! Z.to_nat c).
Proof.
  intros [Hlen Hrows] Hr Hc. unfold table_get.
  assert (Z.to_nat r < length table) as Hr' by lia.
  apply lookup_lt_is_Some_2 in Hr' as [row Hrow].
  rewrite (getitem_in_range table r row) by (done || lia).
  cbn [mbind Outcome_bind].
  rewrite (list_lookup_total_correct _ _ _ Hrow).
  rewrite Forall_forall in Hrows.
  assert (length row = C) as Hrowlen
    by (apply Hrows; by eapply list_elem_of_lookup_2).
  apply getitem_in_range; [lia|].
  apply list_lookup_lookup_total_lt. lia.
Qed.

Lemma table_set_in_range (R C : nat) (table : list (list Z)) (r c v : Z) :
  has_shape2 R C table → (0 ≤ r < Z.of_nat R)%Z → (0 ≤ c < Z.of_nat C)%Z →
  ∃ table', table_set (F:=F) table r c v = Ok table'
    ∧ has_shape2 R C table'
    ∧ ∀ r' c', (0 ≤ r' < Z.of_nat R)%Z → (0 ≤ c' < Z.of_nat C)%Z →
        (table' !!! Z.to_nat r') !!! Z.to_nat c'
        = if decide (r = r' ∧ c = c') then v
          else (table !!! Z.to_nat r') !!! Z.to_nat c'.
Proof.
  intros [Hlen Hrows] Hr Hc. unfold table_set.
  rewrite norm_index_in_range by lia. cbn [mbind Outcome_bind].
  assert (Z.to_nat r < length table) as Hr' by lia.
  assert (length (table !!! Z.to_nat r) = C) as Hrowlen.
  { rewrite Forall_forall in Hrows. apply Hrows.
    apply list_elem_of_lookup_total_2. lia. }
  rewrite norm_index_in_range by lia. cbn [mbind Outcome_bind].
  eexists. split; [done|]. split.
  - split; [by rewrite length_insert|].
    apply Forall_insert; [done|]. by rewrite length_insert.
  - intros r' c' Hr1 Hc1.
    destruct (decide (r = r')) as [<-|Hrr].
    + rewrite list_lookup_total_insert_eq by done.
      destruct (decide (c = c')) as [<-|Hcc].
      * rewrite decide_True by done.
        rewrite list_lookup_total_insert_eq by lia. done.
      * rewrite decide_False by (by intros [_ ?]).
        rewrite list_lookup_total_insert_ne by lia. done.
    + rewrite decide_False by (by intros [? _]).
      rewrite list_lookup_total_insert_ne by lia. done.
Qed.

(** A run of assignments with all subscripts in range goes through, keeps
    the shape, and leaves at each place the last value assigned there. *)
Lemma table_set_all (R C : nat) (kvs : list (Z * Z * Z)) (table : list (list Z)) :
  has_shape2 R C table →
  Forall (λ '(r, c, _), (0 ≤ r < Z.of_nat R)%Z ∧ (0 ≤ c < Z.of_nat C)%Z) kvs →
  ∃ table', for_each (F:=F) kvs (λ tbl '((r, c), v), table_set tbl r c v) table
            = Ok table'
    ∧ has_shape2 R C table'
    ∧ ∀ r c, (0 ≤ r < Z.of_nat R)%Z → (0 ≤ c < Z.of_nat C)%Z →
        (table' !!! Z.to_nat r) !!! Z.to_nat c
        = default ((table !!! Z.to_nat r) !!! Z.to_nat c) (written kvs r c).
Proof.
  intros Hshape Hkvs. revert table Hshape.
  induction Hkvs as [|[[r0 c0] v0] rest [Hr0 Hc0] _ IH]; intros table Hshape.
  - exists table. by split_and!.
  - destruct (table_set_in_range R C table r0 c0 v0)
      as (table1 & Hset & Hshape1 & Hval1); [done..|].
    destruct (IH table1 Hshape1) as (table' & Hrun & Hshape' & Hval').
    exists table'. split_and!; [|done|].
    + simpl. rewrite Hset. cbn [mbind Outcome_bind]. exact Hrun.
    + intros r c Hr Hc. rewrite (Hval' r c Hr Hc), (Hval1 r c Hr Hc). simpl.
      destruct (written rest r c) as [w|]; [done|]. simpl.
      destruct (decide (r0 = r ∧ c0 = c)); done.
Qed.

Lemma for_each_app {A S} (l1 l2 : list A) (body : S → A → Outcome F S) (s : S) :
  for_each (l1 ++ l2) body s = s' ← for_each l1 body s; for_each l2 body s'.
Proof.
  revert s. induction l1 as [|x l1 IH]; intros s; [done|]. simpl.
  destruct (body s x) as [s1| |]; simpl; [apply IH|done..].
Qed.

Lemma shape2_replicate (R C : nat) (v : Z) :
  has_shape2 R C (replicate R (replicate C v)).
Proof.
  split; [by rewrite length_replicate|].
  apply Forall_replicate. by rewrite length_replicate.
Qed.

Lemma lookup_total_replicate2 (R C : nat) (v : Z) (r c : nat) :
  r < R → c < C → (replicate R (replicate C v) !!! r) !!! c = v.
Proof.
  intros Hr Hc. rewrite lookup_total_replicate_2 by done.
  by rewrite lookup_total_replicate_2.
Qed.
End table_facts.

(** ** [_make_bdry_el_lookup_table] *)

Section lookup_table_facts.
Context {F : Type}.

Lemma written_app (k1 k2 : list (Z * Z * Z)) (r c : Z) :
  written (k1 ++ k2) r c
  = match written k2 r c with Some w => Some w | None => written k1 r c end.
Proof.
  induction k1 as [|[[r' c'] v'] k1 IH]; simpl.
  - by destruct (written k2 r c).
  - rewrite IH. by destruct (written k2 r c).
Qed.

(** The assignments [table[rows, face] = values] of one index triple. *)
Definition index_entries (rows : list Z) (face : Z) (values : list Z)
    : list (Z * Z * Z) :=
  zip (zip rows (replicate (length rows) face)) values.

Lemma elem_of_index_entries (rows : list Z) (face : Z) (values : list Z)
    (r c v : Z) :
  (r, c, v) ∈ index_entries rows face values
  ↔ c = face ∧ ∃ k, rows !! k = Some r ∧ values !! k = Some v.
Proof.
  unfold index_entries. rewrite list_elem_of_lookup. split.
  - intros (k & Hk). apply lookup_zip_with_Some in Hk
      as ([r' c'] & v' & [= <- <- <-] & Hrc & Hv).
    apply lookup_zip_with_Some in Hrc as (r' & c' & [= <- <-] & Hr & Hc).
    apply lookup_replicate in Hc as [-> _]. split; [done|]. by exists k.
  - intros (-> & k & Hr & Hv). exists k. apply lookup_zip_with_Some.
    exists (r, face), v. split_and!; [done| |done].
    apply lookup_zip_with_Some. exists r, face. split_and!; [done..|].
    apply lookup_replicate_2. by eapply lookup_lt_Some.
Qed.

(** The assignments that one batch of a restriction makes. *)
Definition batch_entries (b : InterpolationBatch F) : list (Z * Z * Z) :=
  match to_element_face b with
  | Some face =>
      index_entries (from_element_indices b) (Z.of_nat face)
        (to_element_indices b)
  | None => []
  end.

(** A batch of a restriction as the lookup table needs it: it names a face
    of the group, pairs its two index arrays entry by entry, and its
    volume elements are elements of the group. *)
Definition restricts_to (nelements nfaces : nat) (b : InterpolationBatch F)
    : Prop :=
  (∃ face, to_element_face b = Some face ∧ face < nfaces)
  ∧ length (to_element_indices b) = length (from_element_indices b)
  ∧ ∀ e, e ∈ from_element_indices b → (0 ≤ e < Z.of_nat nelements)%Z.

Lemma table_assign_entries (R C : nat) (table : list (list Z))
    (rows : list Z) (face : Z) (values : list Z) :
  has_shape2 R C table → length values = length rows →
  (0 ≤ face < Z.of_nat C)%Z →
  (∀ r, r ∈ rows → (0 ≤ r < Z.of_nat R)%Z) →
  ∃ table', table_assign (F:=F) table rows (replicate (length rows) face) values
            = Ok table'
    ∧ has_shape2 R C table'
    ∧ ∀ r c, (0 ≤ r < Z.of_nat R)%Z → (0 ≤ c < Z.of_nat C)%Z →
        (table' !!! Z.to_nat r) !!! Z.to_nat c
        = default ((table !!! Z.to_nat r) !!! Z.to_nat c)
            (written (index_entries rows face values) r c).
Proof.
  intros Hshape Hlen Hface Hrows. unfold table_assign, broadcast_indices.
  rewrite decide_True by (by rewrite length_replicate).
  cbn [mbind Outcome_bind].
  rewrite decide_True
    by (rewrite length_zip, length_replicate; lia).
  cbn [mbind Outcome_bind].
  apply (table_set_all R C (index_entries rows face values)); [done|].
  apply Forall_forall. intros [[r c] v] [-> (k & Hr & _)]%elem_of_index_entries.
  split; [|done]. apply Hrows. by eapply list_elem_of_lookup_2.
Qed.

Lemma lookup_assign_batches (R C : nat) (bs : list (InterpolationBatch F))
    (table : list (list Z)) :
  has_shape2 R C table → Forall (restricts_to R C) bs →
  ∃ table', for_each bs (lookup_assign_batch C) table = Ok table'
    ∧ has_shape2 R C table'
    ∧ ∀ r c, (0 ≤ r < Z.of_nat R)%Z → (0 ≤ c < Z.of_nat C)%Z →
        (table' !!! Z.to_nat r) !!! Z.to_nat c
        = default ((table !!! Z.to_nat r) !!! Z.to_nat c)
            (written (concat (batch_entries <$> bs)) r c).
Proof.
  intros Hshape Hbs. revert table Hshape.
  induction Hbs as [|b bs Hb _ IH]; intros table Hshape.
  - exists table. by split_and!.
  - destruct Hb as ((face & Hface & Hlt) & Hlen & Hfrom).
    destruct (table_assign_entries R C table (from_element_indices b)
                (Z.of_nat face) (to_element_indices b))
      as (table1 & Hset & Hshape1 & Hval1); [done|done|lia|done|].
    destruct (IH table1 Hshape1) as (table' & Hrun & Hshape' & Hval').
    exists table'. split_and!; [|done|].
    + assert (lookup_assign_batch C table b = Ok table1) as Hstep.
      { unfold lookup_assign_batch. by rewrite Hface. }
      cbn [for_each]. rewrite Hstep. cbn [mbind Outcome_bind]. exact Hrun.
    + intros r c Hr Hc. rewrite (Hval' r c Hr Hc), (Hval1 r c Hr Hc).
      assert (batch_entries b
              = index_entries (from_element_indices b) (Z.of_nat face)
                  (to_element_indices b)) as Hentries
        by (unfold batch_entries; by rewrite Hface).
      rewrite fmap_cons. cbn [concat]. rewrite written_app, Hentries.
      by destruct (written (concat _) r c).
Qed.

(** The lookup table of a restriction whose batches are well formed has the
    shape (nelements, nfaces); where no batch records a volume element on a
    face it holds -1, and elsewhere a boundary element that a batch records
    there (the one of the last such batch entry). *)
Theorem bdry_el_lookup_table_entries
    (connection : DirectDiscretizationConnection F) (igrp : nat)
    (from_grp : ElementGroup F) (from_mesh_grp : MeshGroup F)
    (conn_grp : DiscretizationConnectionElementGroup F) :
  discr_groups (from_discr connection) !! igrp = Some from_grp →
  mesh_groups (discr_mesh (from_discr connection)) !! igrp = Some from_mesh_grp →
  groups connection !! igrp = Some conn_grp →
  Forall (restricts_to (grp_nelements from_grp) (nfaces from_mesh_grp))
    (batches conn_grp) →
  ∃ table,
    _make_bdry_el_lookup_table connection igrp = Ok table
    ∧ has_shape2 (grp_nelements from_grp) (nfaces from_mesh_grp) table
    ∧ ∀ e face : nat, e < grp_nelements from_grp → face < nfaces from_mesh_grp →
        let recorded (t : Z) :=
          ∃ b k, b ∈ batches conn_grp ∧ to_element_face b = Some face
                 ∧ from_element_indices b !! k = Some (Z.of_nat e)
                 ∧ to_element_indices b !! k = Some t in
        ∃ t, table_get (F:=F) table (Z.of_nat e) (Z.of_nat face) = Ok t
             ∧ ((∀ t', ¬ recorded t') → t = (-1)%Z)
             ∧ ((∃ t', recorded t') → recorded t).
Proof.
  intros Hgrp Hmgrp Hcgrp Hbs.
  apply (getnat_Ok (F:=F)) in Hgrp, Hmgrp, Hcgrp.
  destruct (lookup_assign_batches (grp_nelements from_grp) (nfaces from_mesh_grp)
              (batches conn_grp)
              (replicate (grp_nelements from_grp)
                 (replicate (nfaces from_mesh_grp) (-1)%Z)))
    as (table & Hrun & Hshape & Hval); [apply shape2_replicate|done|].
  exists table. split_and!; [|done|].
  { unfold _make_bdry_el_lookup_table. rewrite Hgrp, Hmgrp.
    cbn [mbind Outcome_bind]. rewrite Hcgrp. cbn [mbind Outcome_bind].
    exact Hrun. }
  intros e face He Hface recorded.
  assert (∀ t, recorded t
            ↔ (Z.of_nat e, Z.of_nat face, t)
              ∈ concat (batch_entries <$> batches conn_grp)) as Hrec.
  { intros t. rewrite list_elem_of_In, in_concat. split.
    - intros (b & k & Hb & Hf & Hfrom & Hto).
      exists (batch_entries b). split.
      + apply list_elem_of_In, list_elem_of_fmap. by exists b.
      + apply list_elem_of_In. unfold batch_entries. rewrite Hf.
        apply elem_of_index_entries. split; [done|]. by exists k.
    - intros (entries & Hin%list_elem_of_In & Ht%list_elem_of_In).
      apply list_elem_of_fmap in Hin as (b & -> & Hb).
      unfold batch_entries in Ht.
      destruct (to_element_face b) as [f|] eqn:Hf;
        [|by apply elem_of_nil in Ht].
      apply elem_of_index_entries in Ht as (Hff & k & Hfrom & Hto).
      apply Nat2Z.inj in Hff as <-. by exists b, k. }
  exists ((table !!! e) !!! face). split.
  { rewrite (table_get_in_range _ _ _ _ _ Hshape) by lia.
    by rewrite !Nat2Z.id. }
  specialize (Hval (Z.of_nat e) (Z.of_nat face)).
  rewrite !Nat2Z.id in Hval. rewrite Hval by lia.
  rewrite lookup_total_replicate2 by done.
  destruct (written _ _ _) as [w|] eqn:Hw; simpl.
  - apply written_Some in Hw. split.
    + intros Hnone. by destruct (Hnone w); apply Hrec.
    + intros _. by apply Hrec.
  - split; [done|]. intros [t' Ht']. apply Hrec in Ht'.
    by destruct (proj1 (written_None _ _ _) Hw t').
Qed.
End lookup_table_facts.

(** ** [remote_vol_to_bdry] of [make_partition_connection] *)

Section remote_table_facts.
Context {F : Type}.

Lemma foldl_max_bound (x : Z) (vals : list Z) :
  (x ≤ foldl Z.max x vals)%Z
  ∧ (∀ y, y ∈ vals → (y ≤ foldl Z.max x vals)%Z).
Proof.
  revert x. induction vals as [|v vals IH]; intros x; simpl.
  - split; [lia|]. intros y Hy. by apply elem_of_nil in Hy.
  - destruct (IH (Z.max x v)) as [Hx Hall]. split; [lia|].
    intros y [->|Hy]%elem_of_cons; [lia|by apply Hall].
Qed.

Lemma np_max_Z_bound (vals : list Z) (m : Z) :
  np_max_Z (F:=F) vals = Ok m → ∀ y, y ∈ vals → (y ≤ m)%Z.
Proof.
  destruct vals as [|x vals]; [done|]. intros [= <-] y.
  destruct (foldl_max_bound x vals) as [Hx Hall].
  intros [->|Hy]%elem_of_cons; [done|by apply Hall].
Qed.

Lemma elem_of_zip3 (rows cols values : list Z) (r c v : Z) :
  (r, c, v) ∈ zip (zip rows cols) values
  ↔ ∃ k, rows !! k = Some r ∧ cols !! k = Some c ∧ values !! k = Some v.
Proof.
  rewrite list_elem_of_lookup. split.
  - intros (k & Hk). apply lookup_zip_with_Some in Hk
      as ([r' c'] & v' & [= <- <- <-] & Hrc & Hv).
    apply lookup_zip_with_Some in Hrc as (r' & c' & [= <- <-] & Hr & Hc).
    by exists k.
  - intros (k & Hr & Hc & Hv). exists k. apply lookup_zip_with_Some.
    exists (r, c), v. split_and!; [done| |done].
    apply lookup_zip_with_Some. by exists r, c.
Qed.

(** The table of the remote part: with no remote element at all numpy's
    [max] refuses the empty array; with non-negative indices of one length
    the table spans the largest element and face recorded, holds -1 where
    nothing is recorded, and elsewhere a boundary element recorded for
    that element and face (the last one). *)
Theorem remote_vol_to_bdry_entries (rgi : RemoteGroupInfo F) :
  (vol_elem_indices rgi = [] → make_remote_vol_to_bdry rgi = Raise ValueError)
  ∧ (vol_elem_indices rgi ≠ [] →
     length (bdry_faces rgi) = length (vol_elem_indices rgi) →
     length (bdry_elem_indices rgi) = length (vol_elem_indices rgi) →
     (∀ e, e ∈ vol_elem_indices rgi → (0 ≤ e)%Z) →
     (∀ f, f ∈ bdry_faces rgi → (0 ≤ f)%Z) →
     ∃ table max_el max_face,
       np_max_Z (F:=F) (vol_elem_indices rgi) = Ok max_el
       ∧ np_max_Z (F:=F) (bdry_faces rgi) = Ok max_face
       ∧ make_remote_vol_to_bdry rgi = Ok table
       ∧ has_shape2 (Z.to_nat (max_el + 1)) (Z.to_nat (max_face + 1)) table
       ∧ ∀ e f, (0 ≤ e ≤ max_el)%Z → (0 ≤ f ≤ max_face)%Z →
           let recorded (t : Z) :=
             ∃ k, vol_elem_indices rgi !! k = Some e
                  ∧ bdry_faces rgi !! k = Some f
                  ∧ bdry_elem_indices rgi !! k = Some t in
           ∃ t, table_get (F:=F) table e f = Ok t
                ∧ ((∀ t', ¬ recorded t') → t = (-1)%Z)
                ∧ ((∃ t', recorded t') → recorded t)).
Proof.
  split.
  { intros Hnil. unfold make_remote_vol_to_bdry. by rewrite Hnil. }
  intros Hne Hfaces Hvals Hel0 Hface0.
  destruct (vol_elem_indices rgi) as [|e0 els] eqn:Hels; [done|].
  destruct (bdry_faces rgi) as [|f0 faces] eqn:Hfs; [done|].
  set (max_el := foldl Z.max e0 els). set (max_face := foldl Z.max f0 faces).
  assert (np_max_Z (F:=F) (e0 :: els) = Ok max_el) as Hmax_el by done.
  assert (np_max_Z (F:=F) (f0 :: faces) = Ok max_face) as Hmax_face by done.
  pose proof (np_max_Z_bound _ _ Hmax_el) as Hel_le.
  pose proof (np_max_Z_bound _ _ Hmax_face) as Hface_le.
  assert (0 ≤ max_el)%Z as Hel_pos
    by (specialize (Hel0 e0 ltac:(left)); specialize (Hel_le e0 ltac:(left)); lia).
  assert (0 ≤ max_face)%Z as Hface_pos
    by (specialize (Hface0 f0 ltac:(left)); specialize (Hface_le f0 ltac:(left));
        lia).
  set (R := Z.to_nat (max_el + 1)). set (C := Z.to_nat (max_face + 1)).
  set (kvs := zip (zip (e0 :: els) (f0 :: faces)) (bdry_elem_indices rgi)).
  destruct (table_set_all (F:=F) R C kvs (replicate R (replicate C (-1)%Z)))
    as (table & Hrun & Hshape & Hval); [apply shape2_replicate| |].
  { apply Forall_forall. intros [[r c] v] (k & Hr & Hc & _)%elem_of_zip3.
    apply list_elem_of_lookup_2 in Hr, Hc.
    specialize (Hel0 r Hr). specialize (Hel_le r Hr).
    specialize (Hface0 c Hc). specialize (Hface_le c Hc).
    subst R C. lia. }
  exists table, max_el, max_face. split_and!; [done..| |done|].
  { unfold make_remote_vol_to_bdry. rewrite Hels, Hfs, Hmax_el, Hmax_face.
    cbn [mbind Outcome_bind]. rewrite decide_False by lia.
    unfold table_assign, broadcast_indices.
    rewrite decide_True by done. cbn [mbind Outcome_bind].
    rewrite decide_True by (rewrite length_zip; lia).
    cbn [mbind Outcome_bind]. exact Hrun. }
  intros e f He Hf recorded.
  assert (∀ t, recorded t ↔ (e, f, t) ∈ kvs) as Hrec.
  { intros t. subst kvs. rewrite elem_of_zip3. done. }
  exists ((table !!! Z.to_nat e) !!! Z.to_nat f). split.
  { apply (table_get_in_range R C); [done|subst R; lia|subst C; lia]. }
  rewrite Hval by (subst R C; lia).
  rewrite lookup_total_replicate2 by (subst R C; lia).
  destruct (written kvs e f) as [w|] eqn:Hw; simpl.
  - apply written_Some in Hw. split.
    + intros Hnone. by destruct (Hnone w); apply Hrec.
    + intros _. by apply Hrec.
  - split; [done|]. intros [t' Ht']. apply Hrec in Ht'.
    by destruct (proj1 (written_None _ _ _) Hw t').
Qed.
End remote_table_facts.

(** ** [_batch_weights] *)

Section batch_weights_facts.
Context {F : Type}.

(** A loop that appends to a list what each item yields. *)
Lemma for_each_collect {A B} (l : list A)
    (body : list B → A → Outcome F (list B)) (h : A → Outcome F (list B))
    (acc0 : list B) :
  (∀ acc x, x ∈ l → body acc x = ys ← h x; Ok (acc ++ ys)) →
  for_each l body acc0 = yss ← mapM h l; Ok (acc0 ++ concat yss).
Proof.
  revert acc0. induction l as [|x l IH]; intros acc0 Hbody.
  - simpl. by rewrite app_nil_r.
  - simpl. rewrite Hbody by left. destruct (h x) as [ys| |]; simpl; [|done..].
    rewrite IH by (intros acc y Hy; apply Hbody; by right).
    destruct (mapM h l) as [yss| |]; simpl; [|done..].
    by rewrite app_assoc.
Qed.

Lemma lookup_imap_pair {A} (l : list A) (i : nat) (p : nat * A) :
  imap pair l !! i = Some p ↔ p.1 = i ∧ l !! i = Some p.2.
Proof.
  rewrite list_lookup_imap. destruct (l !! i) as [x|]; simpl.
  - split; [by intros [= <-]|]. destruct p as [j y]. by intros [<- [= <-]].
  - split; [done|]. by intros [_ ?].
Qed.

Section with_weights.
Variable scaled_weights : ElementGroup F → InterpolationBatch F → Outcome F (list F).

(** What the loops of [_batch_weights] collect, group by group and batch by
    batch. *)
Lemma batch_weights_structure (conn : DirectDiscretizationConnection F)
    (self_to_discr : Discretization F) (weights : list (nat * nat * list F)) :
  _batch_weights scaled_weights conn self_to_discr = Ok weights →
  ∃ wss, weights = concat wss
    ∧ Forall2 (λ p ws,
        is_interpolatory p.2 = true
        ∧ ∃ conn_grp yss, groups conn !! p.1 = Some conn_grp
            ∧ ws = concat yss
            ∧ Forall2 (λ q ys, ∃ w, scaled_weights p.2 q.2 = Ok w
                                    ∧ ys = [(p.1, q.1, w)])
                (imap pair (batches conn_grp)) yss)
        (imap pair (discr_groups self_to_discr)) wss.
Proof.
  unfold _batch_weights.
  rewrite (for_each_collect _ _
    (λ p : nat * ElementGroup F,
       if negb (is_interpolatory p.2) then Raise ValueError else
       conn_grp ← getnat (groups conn) p.1;
       yss ← mapM (λ q : nat * InterpolationBatch F,
                  w ← scaled_weights p.2 q.2; Ok [(p.1, q.1, w)])
                (imap pair (batches conn_grp));
       Ok (concat yss))).
  - intros (wss & Hwss & [= <-])%bind_Ok. exists wss. split; [done|].
    apply mapM_Ok in Hwss. eapply Forall2_impl; [exact Hwss|].
    intros [igrp grp] ws. simpl. destruct (is_interpolatory grp); [|done].
    simpl. intros (conn_grp & Hgrp%getnat_Ok & Hrun)%bind_Ok.
    apply bind_Ok in Hrun as (yss & Hyss & [= <-]).
    split; [done|]. exists conn_grp, yss. split_and!; [done..|].
    apply mapM_Ok in Hyss. eapply Forall2_impl; [exact Hyss|].
    intros [ibatch batch] ys. simpl.
    intros (w & Hw & [= <-])%bind_Ok. by exists w.
  - intros acc [igrp grp] _. simpl.
    destruct (is_interpolatory grp); [|done]. simpl.
    destruct (getnat (groups conn) igrp) as [conn_grp| |]; simpl; [|done..].
    rewrite (for_each_collect _ _
      (λ q : nat * InterpolationBatch F,
         w ← scaled_weights grp q.2; Ok [(igrp, q.1, w)])).
    + by destruct (mapM _ _).
    + intros acc' [ibatch batch] _. simpl.
      by destruct (scaled_weights grp batch).
Qed.

(** The weights that [_batch_weights] returns: every entry sits under the
    key of a batch of the forward connection and holds the scaled weights of
    that batch, computed with a group of [to_discr] that is interpolatory;
    and every batch of a group that [to_discr] has gets an entry. *)
Theorem batch_weights_entries (conn : DirectDiscretizationConnection F)
    (self_to_discr : Discretization F) (weights : list (nat * nat * list F)) :
  _batch_weights scaled_weights conn self_to_discr = Ok weights →
  (∀ igrp ibatch w, (igrp, ibatch, w) ∈ weights →
     ∃ grp conn_grp batch,
       discr_groups self_to_discr !! igrp = Some grp
       ∧ is_interpolatory grp = true
       ∧ groups conn !! igrp = Some conn_grp
       ∧ batches conn_grp !! ibatch = Some batch
       ∧ scaled_weights grp batch = Ok w)
  ∧ (∀ igrp grp conn_grp ibatch batch,
       discr_groups self_to_discr !! igrp = Some grp →
       groups conn !! igrp = Some conn_grp →
       batches conn_grp !! ibatch = Some batch →
       ∃ w, (igrp, ibatch, w) ∈ weights)
  ∧ (∀ igrp grp, discr_groups self_to_discr !! igrp = Some grp →
       is_Some (groups conn !! igrp)).
Proof.
  intros (wss & -> & Hall)%batch_weights_structure. split_and!.
  - intros igrp ibatch w Hin.
    apply list_elem_of_In, in_concat in Hin
      as (ws & Hws%list_elem_of_In & Hin%list_elem_of_In).
    apply list_elem_of_lookup_1 in Hws as [i Hi].
    destruct (Forall2_lookup_r _ _ _ _ _ Hall Hi) as ([i' grp] & Hp & Hgrp).
    apply lookup_imap_pair in Hp as [Hi' Hp]. simpl in Hi', Hp, Hgrp.
    subst i'.
    destruct Hgrp as (Hint & conn_grp & yss & Hcgrp & -> & Hyss).
    apply list_elem_of_In, in_concat in Hin
      as (ys & Hys%list_elem_of_In & Hin%list_elem_of_In).
    apply list_elem_of_lookup_1 in Hys as [j Hj].
    destruct (Forall2_lookup_r _ _ _ _ _ Hyss Hj) as ([j' batch] & Hq & Hb).
    apply lookup_imap_pair in Hq as [Hj' Hq]. simpl in Hj', Hq, Hb.
    subst j'.
    destruct Hb as (w' & Hw' & ->).
    apply list_elem_of_singleton in Hin as [= -> -> ->].
    by exists grp, conn_grp, batch.
  - intros igrp grp conn_grp ibatch batch Hgrp Hcgrp Hbatch.
    assert (imap pair (discr_groups self_to_discr) !! igrp = Some (igrp, grp))
      as Hp by (by apply lookup_imap_pair).
    destruct (Forall2_lookup_l _ _ _ _ _ Hall Hp) as (ws & Hws & Hrow).
    simpl in Hrow. destruct Hrow as (_ & conn_grp' & yss & Hcgrp' & -> & Hyss).
    assert (conn_grp' = conn_grp) as -> by congruence.
    assert (imap pair (batches conn_grp) !! ibatch = Some (ibatch, batch))
      as Hq by (by apply lookup_imap_pair).
    destruct (Forall2_lookup_l _ _ _ _ _ Hyss Hq) as (ys & Hys & w & _ & ->).
    simpl in Hys. exists w. apply list_elem_of_In, in_concat.
    exists (concat yss). split.
    + apply list_elem_of_In. by eapply list_elem_of_lookup_2.
    + apply in_concat. exists [(igrp, ibatch, w)]. split.
      * apply list_elem_of_In. by eapply list_elem_of_lookup_2.
      * by left.
  - intros igrp grp Hgrp.
    assert (imap pair (discr_groups self_to_discr) !! igrp = Some (igrp, grp))
      as Hp by (by apply lookup_imap_pair).
    destruct (Forall2_lookup_l _ _ _ _ _ Hall Hp) as (ws & _ & Hrow).
    simpl in Hrow. destruct Hrow as (_ & conn_grp & _ & Hcgrp & _). by eexists.
Qed.
End with_weights.
End batch_weights_facts.

(** ** What the batches of the two builders refer to *)

Section builder_more_facts.
Context {F : Type} `{Dtype F} `{Linalg F}.

Local Abbreviation T3 := (list (list (list F))).

Lemma mapM_getnat_elem_of {A} (l : list A) (idx : list nat) (k : list A) :
  mapM (getnat (F:=F) l) idx = Ok k → ∀ x, x ∈ k → x ∈ l.
Proof.
  intros Hk%mapM_getnat_in_range x [j Hj]%list_elem_of_lookup_1.
  destruct (Forall2_lookup_r _ _ _ _ _ Hk Hj) as (i & _ & Hi).
  by eapply list_elem_of_lookup_2.
Qed.

(** The batches of one call of [_make_cross_face_batches] name the source
    group of the call and draw their elements from its two index arrays. *)
Lemma cross_face_batches_members (tgt_discr src_discr : Discretization F)
    (i_tgt_grp i_src_grp : nat) (tgt_idx src_idx : list Z)
    (tgt_aff src_aff : option (AffineMap F))
    (bs : list (InterpolationBatch F)) :
  _make_cross_face_batches tgt_discr src_discr i_tgt_grp i_src_grp
    tgt_idx src_idx tgt_aff src_aff = Ok bs →
  ∀ b, b ∈ bs →
    from_group_index b = i_src_grp
    ∧ (∀ s, s ∈ from_element_indices b → s ∈ src_idx)
    ∧ (∀ t, t ∈ to_element_indices b → t ∈ tgt_idx).
Proof.
  unfold _make_cross_face_batches. case_decide as Hdim.
  { intros Hrun. apply bind_Ok in Hrun as (src_grp & _ & [= <-]).
    by intros b ->%list_elem_of_singleton. }
  intros Hrun.
  apply bind_Ok in Hrun as (tgt_nodes & _ & Hrun).
  apply bind_Ok in Hrun as (src_nodes & _ & Hrun).
  apply bind_Ok in Hrun as (src_mesh_grp & _ & Hrun).
  apply bind_Ok in Hrun as (src_grp & _ & Hrun).
  apply bind_Ok in Hrun as (matched & _ & Hrun).
  apply bind_Ok in Hrun as (u & _ & Hrun).
  destruct (batches_groups _ _ _ _ _ _ Hrun) as (gs & _ & Hall).
  intros b [j Hj]%list_elem_of_lookup_1.
  destruct (Forall2_lookup_r _ _ _ _ _ Hall Hj) as (g & _ & _ & Hgrp & Hfrom & Hto).
  split_and!; [done| |]; by eapply mapM_getnat_elem_of.
Qed.

(** The selected target elements are target elements of a batch of the
    restriction, in the target group. *)
Lemma opposite_face_tgt_elements_members
    (conn : DirectDiscretizationConnection F) (i_tgt_grp : nat)
    (adj : InteriorAdjacencyGroup F) (i_face_tgt : nat) (tgts : list Z) :
  opposite_face_tgt_elements conn i_tgt_grp adj i_face_tgt = Ok (Some tgts) →
  ∃ conn_grp rb, groups conn !! i_tgt_grp = Some conn_grp
    ∧ rb ∈ batches conn_grp
    ∧ to_element_face rb = Some i_face_tgt
    ∧ ∀ t, t ∈ tgts → t ∈ to_element_indices rb.
Proof.
  unfold opposite_face_tgt_elements. intros Hrun.
  apply bind_Ok in Hrun as (conn_grp & Hgrp%getnat_Ok & Hrun).
  apply bind_Ok in Hrun as (rb & Hrb & Hrun).
  apply bind_Ok in Hrun as (adj_els & _ & Hrun).
  case_decide in Hrun as Hlen; [done|].
  apply bind_Ok in Hrun as (used_idx & _ & Hrun).
  apply bind_Ok in Hrun as (used & _ & Hrun).
  apply bind_Ok in Hrun as ([] & _ & Hrun).
  apply bind_Ok in Hrun as (tgts' & Htgts & [= <-]).
  exists conn_grp, rb.
  assert (rb ∈ batches conn_grp ∧ to_element_face rb = Some i_face_tgt)
    as [Hin Hface].
  { unfold _find_ibatch_for_face in Hrb.
    destruct (filter _ (batches conn_grp)) as [|c [|? ?]] eqn:Hf; [done| |done].
    injection Hrb as ->.
    assert (rb ∈ filter (λ batch, to_element_face batch = Some i_face_tgt)
                   (batches conn_grp)) as Hc by (rewrite Hf; left).
    by apply list_elem_of_filter in Hc as [? ?]. }
  split_and!; [done..|].
  destruct used_idx as [idx|]; simpl in Htgts.
  - by eapply mapM_getnat_elem_of.
  - by injection Htgts as <-.
Qed.
End builder_more_facts.

Section builder_more_claims.
Context {F : Type} `{Dtype F} `{Linalg F}.

(** The opposite-face connection has one group per group of the
    restriction; each of its batches names a group that its [from_discr]
    has, and the batches of group [i] target only boundary elements that a
    batch of group [i] of the restriction targets. *)
Theorem opposite_face_batches_refer_to_restriction
    (conn out : DirectDiscretizationConnection F) :
  make_opposite_face_connection conn = Ok out →
  length (groups out) = length (groups conn)
  ∧ length (groups out) = length (discr_groups (from_discr out))
  ∧ ∀ i g b, groups out !! i = Some g → b ∈ batches g →
      from_group_index b < length (discr_groups (from_discr out))
      ∧ ∀ t, t ∈ to_element_indices b →
          ∃ conn_grp rb, groups conn !! i = Some conn_grp
            ∧ rb ∈ batches conn_grp ∧ t ∈ to_element_indices rb.
Proof.
  unfold make_opposite_face_connection. intros Hrun.
  apply bind_Ok in Hrun as ([] & _ & Hrun).
  apply bind_Ok in Hrun as ([] & _ & Hrun).
  apply bind_Ok in Hrun as ([] & Hbdry%py_assert_Ok & Hrun).
  apply bool_decide_eq_true in Hbdry.
  apply bind_Ok in Hrun as (grps & Hloops & [= <-]). cbn [groups from_discr].
  set (ngrps := length (groups conn)) in *.
  set (Q := λ (i : nat) (b : InterpolationBatch F),
         from_group_index b < ngrps
         ∧ ∀ t, t ∈ to_element_indices b →
             ∃ conn_grp rb, groups conn !! i = Some conn_grp
               ∧ rb ∈ batches conn_grp ∧ t ∈ to_element_indices rb).
  assert (all_batches ngrps Q grps) as Hinv.
  { eapply (for_each_invariant (all_batches ngrps Q));
      [|apply all_batches_initial|exact Hloops].
    clear Hloops grps. intros grps i_src_grp grps' Hsrc%elem_of_seq HP Hrun.
    apply bind_Ok in Hrun as (lookup & _ & Hrun).
    eapply (for_each_invariant (all_batches ngrps Q)); [|exact HP|exact Hrun].
    clear Hrun HP grps grps'. intros grps i_tgt_grp grps' _ HP Hrun.
    apply bind_Ok in Hrun as (adj_grps & _ & Hrun).
    eapply (for_each_invariant (all_batches ngrps Q)); [|exact HP|exact Hrun].
    clear Hrun HP grps grps'. intros grps adj grps' _ HP Hrun.
    apply bind_Ok in Hrun as (tgt_mesh_grp & _ & Hrun).
    eapply (for_each_invariant (all_batches ngrps Q)); [|exact HP|exact Hrun].
    clear Hrun HP grps grps'. intros grps i_face_tgt grps' _ HP Hrun.
    unfold opposite_face_step in Hrun.
    apply bind_Ok in Hrun as (selected & Hsel & Hrun).
    destruct selected as [tgt_idx|]; [|by injection Hrun as <-].
    apply bind_Ok in Hrun as (src_vol & _ & Hrun).
    apply bind_Ok in Hrun as (src_faces & _ & Hrun).
    apply bind_Ok in Hrun as (src_idx & _ & Hrun).
    apply bind_Ok in Hrun as (new_batches & Hnew & Hrun).
    eapply all_batches_extend; [exact HP|exact Hrun|].
    intros b Hb.
    destruct (cross_face_batches_members _ _ _ _ _ _ _ _ _ Hnew b Hb)
      as (Hgrp & _ & Hto).
    split; [lia|]. intros t Ht.
    destruct (opposite_face_tgt_elements_members _ _ _ _ _ Hsel)
      as (conn_grp & rb & ? & ? & _ & Hall).
    exists conn_grp, rb. split_and!; [done..|]. by apply Hall, Hto. }
  apply all_batches_groups in Hinv as [Hlen HQ].
  split_and!; [done|by rewrite Hlen|].
  intros i g b Hg Hb. destruct (HQ i g b Hg Hb) as [Hlt Hto].
  split; [by rewrite <-Hbdry|done].
Qed.

(** The partition connection has one group per local volume group; each
    of its batches names the group of one of the remote adjacency groups
    handed in, and none of its element indices is negative: the -1 that
    the lookup tables hold for a missing face never reaches a batch. *)
Theorem partition_batches_hold_matched_elements
    (local_bdry_conn : DirectDiscretizationConnection F)
    (remote_bdry_discr : Discretization F)
    (remote_group_infos : list (RemoteGroupInfo F))
    (out : DirectDiscretizationConnection F) :
  make_partition_connection local_bdry_conn remote_bdry_discr remote_group_infos
  = Ok out →
  length (groups out)
  = length (mesh_groups (discr_mesh (from_discr local_bdry_conn)))
  ∧ length (groups out) = length (discr_groups (to_discr out))
  ∧ ∀ i g b, groups out !! i = Some g → b ∈ batches g →
      (∃ rgi rem_ipag, rgi ∈ remote_group_infos
         ∧ rem_ipag ∈ inter_part_adj_groups rgi
         ∧ from_group_index b = ipag_igroup rem_ipag)
      ∧ (∀ s, s ∈ from_element_indices b → (0 ≤ s)%Z)
      ∧ (∀ t, t ∈ to_element_indices b → (0 ≤ t)%Z).
Proof.
  unfold make_partition_connection. intros Hrun.
  apply bind_Ok in Hrun as ([] & Hbdry%py_assert_Ok & Hrun).
  apply bool_decide_eq_true in Hbdry.
  apply bind_Ok in Hrun as (grps & Hloops & [= <-]). cbn [groups to_discr].
  set (n := length (mesh_groups (discr_mesh (from_discr local_bdry_conn)))) in *.
  set (Q := λ (i : nat) (b : InterpolationBatch F),
         (∃ rgi rem_ipag, rgi ∈ remote_group_infos
            ∧ rem_ipag ∈ inter_part_adj_groups rgi
            ∧ from_group_index b = ipag_igroup rem_ipag)
         ∧ (∀ s, s ∈ from_element_indices b → (0 ≤ s)%Z)
         ∧ (∀ t, t ∈ to_element_indices b → (0 ≤ t)%Z)).
  assert (all_batches n Q grps) as Hinv.
  { eapply (for_each_invariant (all_batches n Q));
      [|apply all_batches_initial|exact Hloops].
    clear Hloops grps. intros grps rgi grps' Hrgi HP Hrun.
    eapply (for_each_invariant (all_batches n Q)); [|exact HP|exact Hrun].
    clear Hrun HP grps grps'. intros grps rem_ipag grps' Hipag HP Hrun.
    cbv zeta in Hrun. apply bind_Ok in Hrun as (remote_tbl & _ & Hrun).
    eapply (for_each_invariant (all_batches n Q)); [|exact HP|exact Hrun].
    clear Hrun HP grps grps'. intros grps i_local_grp grps' _ HP Hrun.
    unfold partition_step in Hrun.
    apply bind_Ok in Hrun as (local_tbl & _ & Hrun).
    apply bind_Ok in Hrun as (neighbors_sel & _ & Hrun).
    apply bind_Ok in Hrun as (base & _ & Hrun).
    apply bind_Ok in Hrun as (remote_els & _ & Hrun).
    apply bind_Ok in Hrun as (neighbor_faces_sel & _ & Hrun).
    apply bind_Ok in Hrun as (matched_local & _ & Hrun).
    apply bind_Ok in Hrun as ([] & Hlocal%py_assert_Ok & Hrun).
    apply bind_Ok in Hrun as (element_faces_sel & _ & Hrun).
    apply bind_Ok in Hrun as (matched_remote & _ & Hrun).
    apply bind_Ok in Hrun as ([] & Hremote%py_assert_Ok & Hrun).
    apply bind_Ok in Hrun as (grp_batches & Hnew & Hrun).
    eapply all_batches_extend; [exact HP|exact Hrun|].
    intros b Hb.
    destruct (cross_face_batches_members _ _ _ _ _ _ _ _ _ Hnew b Hb)
      as (Hgrp & Hfrom & Hto).
    rewrite forallb_forall in Hlocal, Hremote.
    split_and!.
    - by exists rgi, rem_ipag.
    - intros s Hs. apply Z.leb_le, Hremote, list_elem_of_In, Hfrom, Hs.
    - intros t Ht. apply Z.leb_le, Hlocal, list_elem_of_In, Hto, Ht. }
  apply all_batches_groups in Hinv as [Hlen HQ].
  split_and!; [done|by rewrite Hlen|].
  intros i g b Hg Hb. by apply (HQ i g b).
Qed.
End builder_more_claims.

(** ** The shape of what the Gauss-Newton solve returns *)

Section gauss_newton_shape_facts.
Context {F : Type} `{Dtype F} `{Linalg F}.

Local Abbreviation T3 := (list (list (list F))).

Lemma has_shape2_tabulate (n m : nat) (g : nat → nat → F) :
  has_shape2 n m (tabulate n (λ e, tabulate m (g e))).
Proof.
  split; [apply length_tabulate|]. unfold tabulate at 1.
  apply Forall_fmap, Forall_forall. intros e _. apply length_tabulate.
Qed.

Lemma has_shape3_tabulate (d n m : nat) (g : nat → list (list F)) :
  (∀ r, has_shape2 n m (g r)) → has_shape3 d n m (tabulate d g).
Proof.
  intros Hg. split; [apply length_tabulate|]. unfold tabulate.
  apply Forall_fmap, Forall_forall. intros r _. apply Hg.
Qed.

Lemma has_shape2_zip_with (n m : nat) (f : F → F → F) (a b : list (list F)) :
  has_shape2 n m a → has_shape2 n m b →
  has_shape2 n m (zip_with (zip_with f) a b).
Proof.
  intros [Ha Hra] [Hb Hrb]. split; [rewrite length_zip_with; lia|].
  clear Ha Hb. revert b Hrb.
  induction Hra as [|x a Hx _ IH]; intros b Hrb; [constructor|].
  destruct Hrb as [|y b Hy Hrb]; simpl; constructor; [|by apply IH].
  rewrite length_zip_with. lia.
Qed.

Lemma has_shape3_zip_with3 (d n m : nat) (f : F → F → F) (a b : T3) :
  has_shape3 d n m a → has_shape3 d n m b → has_shape3 d n m (zip_with3 f a b).
Proof.
  intros [Ha Hpa] [Hb Hpb]. split.
  { unfold zip_with3. rewrite length_zip_with. lia. }
  clear Ha Hb. revert b Hpb.
  induction Hpa as [|x a Hx _ IH]; intros b Hpb; [constructor|].
  destruct Hpb as [|y b Hy Hpb]; simpl; constructor; [|by apply IH].
  by apply has_shape2_zip_with.
Qed.

Lemma solve_df_inv_resid_shape (tgt src : T3) (grp : ElementGroup F)
    (df : list T3) (resid s : T3) :
  solve_df_inv_resid tgt src grp df resid = Ok s →
  has_shape3 (grp_dim grp) (shape3 tgt).1.2 (shape3 tgt).2 s.
Proof.
  unfold solve_df_inv_resid.
  destruct (grp_dim grp) as [|[|[|dim]]] eqn:Hdim.
  - intros Hs. apply bind_Ok in Hs as (sols & _ & [= <-]).
    split; [done|constructor].
  - intros [= <-]. split; [done|].
    repeat constructor; apply has_shape2_tabulate.
  - intros [= <-]. split; [done|].
    repeat constructor; apply has_shape2_tabulate.
  - intros Hs. apply bind_Ok in Hs as (sols & Hsols & [= <-]).
    apply has_shape3_tabulate. intros r.
    pose proof (mapM_Ok_length _ _ _ Hsols) as Hlen.
    rewrite length_seq in Hlen. split; [by rewrite length_fmap|].
    apply Forall_fmap. apply mapM_Ok in Hsols.
    apply Forall2_Forall_r with (Q := λ row : list (list F),
      length row = (shape3 tgt).2) in Hsols.
    { eapply Forall_impl; [exact Hsols|]. intros row Hrow. simpl.
      by rewrite length_fmap. }
    apply Forall_forall. intros e _ row Hrow.
    apply mapM_Ok_length in Hrow. by rewrite length_seq in Hrow.
Qed.

Lemma newton_loop_shape (tgt src : T3) (grp : ElementGroup F) (tol : F)
    (inv_t_vdm : list (list F)) (fuel niter : nat) (u u' : T3) :
  newton_loop tgt src grp tol inv_t_vdm fuel niter u = Ok u' →
  has_shape3 (grp_dim grp) (shape3 tgt).1.2 (shape3 tgt).2 u →
  has_shape3 (grp_dim grp) (shape3 tgt).1.2 (shape3 tgt).2 u'
  ∧ grp_dim grp ≠ 0
  ∧ (shape3 tgt).1.1 = length src.
Proof.
  revert niter u. induction fuel as [|fuel IH]; intros niter u; simpl; [done|].
  intros Hrun Hu. apply bind_Ok in Hrun as ([r u1] & Hstep & Hrun).
  assert (has_shape3 (grp_dim grp) (shape3 tgt).1.2 (shape3 tgt).2 u1
          ∧ grp_dim grp ≠ 0 ∧ (shape3 tgt).1.1 = length src) as (Hu1 & Hdim & Hamb).
  { unfold newton_step in Hstep.
    apply bind_Ok in Hstep as (mapped & Hmap & Hstep).
    apply bind_Ok in Hstep as (s & Hs & Hstep).
    apply bind_Ok in Hstep as (mr & _ & [= _ <-]).
    split_and!.
    - apply has_shape3_zip_with3; [done|]. by eapply solve_df_inv_resid_shape.
    - unfold apply_map in Hmap. cbv zeta in Hmap.
      by destruct (decide (grp_dim grp = 0)).
    - unfold apply_map in Hmap. cbv zeta in Hmap.
      destruct (decide (grp_dim grp = 0)); [done|].
      apply bind_Ok in Hmap as ([] & _ & Hmap).
      apply bind_Ok in Hmap as ([] & Hshape%py_assert_Ok & _).
      apply bool_decide_eq_true in Hshape. by rewrite Hshape. }
  destruct (flt r tol); [by injection Hrun as <-|].
  destruct (10 <? S niter); [done|]. by eapply IH.
Qed.

(** When the solve returns, it returns one reference point per target
    node: an array of the shape (dim, nelements, ntgt_unit_nodes), with
    [dim] the (positive) dimension of the source group; and the two node
    arrays had the same number of axes. *)
Theorem gauss_newton_result_shape (tgt src : T3) (grp : ElementGroup F)
    (mgrp : MeshGroup F) (tol : F) (u : T3) :
  _find_src_unit_nodes_via_gauss_newton tgt src grp mgrp tol = Ok u →
  has_shape3 (grp_dim grp) (shape3 tgt).1.2 (shape3 tgt).2 u
  ∧ 0 < grp_dim grp
  ∧ (shape3 tgt).1.1 = length src.
Proof.
  unfold _find_src_unit_nodes_via_gauss_newton. intros Hrun.
  apply bind_Ok in Hrun as (u0 & Hu0 & Hrun).
  destruct (la_inv _) as [inv_t_vdm|]; [|done].
  assert (has_shape3 (grp_dim grp) (shape3 tgt).1.2 (shape3 tgt).2 u0) as Hu.
  { unfold initial_src_unit_nodes in Hu0. case_decide in Hu0 as Hd; [|done].
    injection Hu0 as <-. apply has_shape3_tabulate. intros r.
    apply has_shape2_tabulate. }
  destruct (newton_loop_shape _ _ _ _ _ _ _ _ _ Hrun Hu) as (? & ? & ?).
  split_and!; [done|lia|done].
Qed.
End gauss_newton_shape_facts.

(** ** [_make_cross_face_batches] on an empty set of elements *)

Section cross_face_empty_facts.
Context {F : Type} `{Dtype F} `{Linalg F}.

Local Abbreviation T3 := (list (list (list F))).

Lemma matching_refuses_no_elements (tgt src : T3) (grp : ElementGroup F)
    (tol : F) :
  tgt = [] ∨ nelements_of tgt = 0 →
  _find_src_unit_nodes_by_matching tgt src grp tol = Raise ValueError.
Proof.
  intros Hempty. unfold _find_src_unit_nodes_by_matching.
  unfold nelements_of in Hempty.
  destruct (shape3 tgt) as [[d n] m] eqn:Hshape.
  rewrite decide_True; [done|]. left.
  destruct Hempty as [->|Hn].
  - by injection Hshape as <- <- <-.
  - cbn [fst snd] in Hn. subst n. lia.
Qed.

(** In a positive dimension, a call for no target element at all never
    yields batches: once the node arrays and the source group are at hand,
    the matcher refuses the empty element axis with a [ValueError].  This is
    the case that [make_opposite_face_connection] skips beforehand. *)
Theorem cross_face_batches_refuse_no_elements
    (tgt_discr src_discr : Discretization F) (i_tgt_grp i_src_grp : nat)
    (src_idx : list Z) (tgt_aff src_aff : option (AffineMap F)) :
  discr_dim tgt_discr ≠ 0 →
  let run := _make_cross_face_batches tgt_discr src_discr i_tgt_grp i_src_grp
               [] src_idx tgt_aff src_aff in
  (∀ bs, run ≠ Ok bs)
  ∧ (∀ tgt src src_mesh_grp src_grp,
       bdry_nodes_of tgt_discr i_tgt_grp [] tgt_aff = Ok tgt →
       bdry_nodes_of src_discr i_src_grp src_idx src_aff = Ok src →
       getnat (F:=F) (mesh_groups (discr_mesh src_discr)) i_src_grp
       = Ok src_mesh_grp →
       getnat (F:=F) (discr_groups src_discr) i_src_grp = Ok src_grp →
       run = Raise ValueError).
Proof.
  intros Hdim run. subst run. unfold _make_cross_face_batches.
  rewrite decide_False by done.
  assert (∀ tgt, bdry_nodes_of tgt_discr i_tgt_grp [] tgt_aff = Ok tgt →
            tgt = [] ∨ nelements_of tgt = 0) as Hempty.
  { intros tgt Htgt.
    destruct (bdry_nodes_of_nelements _ _ _ _ _ Htgt) as [?|[?|?]]; auto. }
  split.
  - intros bs Hrun.
    apply bind_Ok in Hrun as (tgt & Htgt & Hrun).
    apply bind_Ok in Hrun as (src & _ & Hrun).
    apply bind_Ok in Hrun as (src_mesh_grp & _ & Hrun).
    apply bind_Ok in Hrun as (src_grp & _ & Hrun).
    apply bind_Ok in Hrun as (matched & Hmatched & _).
    by rewrite matching_refuses_no_elements in Hmatched by auto.
  - intros tgt src src_mesh_grp src_grp Htgt Hsrc Hmgrp Hgrp.
    rewrite Htgt, Hsrc. cbn [mbind Outcome_bind].
    rewrite Hmgrp, Hgrp. cbn [mbind Outcome_bind].
    by rewrite matching_refuses_no_elements by auto.
Qed.
End cross_face_empty_facts.

(** ** The further properties on the concrete inputs *)

Section more_examples.
Import PrimFloat Float64 Examples.

Lemma opposite_face_tgt_elements_on_interval :
  opposite_face_tgt_elements interval_restriction 0 interval_adj 1
  = Ok (Some [2%Z])
  ∧ ∃ conn_grp b adj_els,
      groups interval_restriction !! 0 = Some conn_grp
      ∧ _find_ibatch_for_face (batches conn_grp) 1 = Ok b
      ∧ mask_select (F:=float) (elements interval_adj)
          ((λ f, bool_decide (f = Z.of_nat 1)) <$> element_faces interval_adj)
        = Ok adj_els
      ∧ adj_els ≠ []
      ∧ (length (to_element_indices b) = length (from_element_indices b) →
         Forall2 (λ a t, ∃ k, from_element_indices b !! k = Some a
                              ∧ to_element_indices b !! k = Some t)
           adj_els [2%Z]).
Proof.
  assert (opposite_face_tgt_elements interval_restriction 0 interval_adj 1
          = Ok (Some [2%Z])) as Hrun by (vm_compute; reflexivity).
  split; [exact Hrun|].
  exact (opposite_face_tgt_elements_aligned _ _ _ _ _ Hrun).
Qed.

Lemma opposite_face_subset_mapping_witness :
  length [0%Z] ≠ length (from_element_indices interval_face1_batch)
  ∧ (∀ a, a ∈ [0%Z] → a ∈ from_element_indices interval_face1_batch)
  ∧ ∃ tgts, opposite_face_tgt_elements interval_restriction 0 interval_adj 1
            = Ok (Some tgts).
Proof.
  assert (length [0%Z] ≠ length (from_element_indices interval_face1_batch))
    as Hlen by (simpl; lia).
  assert (∀ a, a ∈ [0%Z] → a ∈ from_element_indices interval_face1_batch)
    as Hsub by (intros a ->%list_elem_of_singleton; left).
  split; [exact Hlen|]. split; [exact Hsub|].
  refine (proj1 (proj2 (opposite_face_subset_mapping interval_restriction 0
            interval_adj 1 interval_conn_grp interval_face1_batch [0%Z]
            eq_refl _ _ _ _)
            Hlen) Hsub); [vm_compute; reflexivity..|done|done].
Defined.

Lemma batches_keep_pairing_witness :
  ∃ bs,
    _find_src_unit_nodes_batches nodes_near 0 [10; 11; 12]%Z [20; 21; 22]%Z tol
    = Ok bs
    ∧ concat ((λ b, zip (from_element_indices b) (to_element_indices b)) <$> bs)
      ≡ₚ zip [20; 21; 22]%Z [10; 11; 12]%Z.
Proof.
  destruct (_find_src_unit_nodes_batches nodes_near 0 [10; 11; 12]%Z
              [20; 21; 22]%Z tol) as [bs| |] eqn:Hrun;
    [|by vm_compute in Hrun..].
  exists bs. split; [done|].
  by apply (batches_keep_pairing _ _ _ _ _ _ Hrun).
Defined.

Lemma batches_nonempty_and_bounded_witness :
  ∃ bs,
    _find_src_unit_nodes_batches nodes_same 0 [3; 4]%Z [7; 8]%Z tol = Ok bs
    ∧ (∀ b, b ∈ bs →
         from_group_index b = 0
         ∧ from_element_indices b ≠ [] ∧ to_element_indices b ≠ [])
    ∧ length bs ≤ 2.
Proof.
  destruct (_find_src_unit_nodes_batches nodes_same 0 [3; 4]%Z [7; 8]%Z tol)
    as [bs| |] eqn:Hrun; [|by vm_compute in Hrun..].
  exists bs. split; [done|].
  exact (batches_nonempty_and_bounded _ _ _ _ _ _ Hrun).
Defined.

Lemma bdry_el_lookup_table_entries_witness :
  ∃ table,
    _make_bdry_el_lookup_table interval_restriction 0 = Ok table
    ∧ has_shape2 2 2 table
    ∧ table_get (F:=float) table 1 1 = Ok 3%Z.
Proof.
  destruct (bdry_el_lookup_table_entries interval_restriction 0
              line_grp line_mesh_grp interval_conn_grp
              eq_refl eq_refl eq_refl) as (table & Hrun & Hshape & _).
  { assert (∀ e : Z, e ∈ [0; 1]%Z → (0 ≤ e < 2)%Z) as Hels.
    { intros e He. repeat (apply elem_of_cons in He as [->|He]; [lia|]).
      by apply elem_of_nil in He. }
    repeat (apply Forall_cons; split); [| |by apply Forall_nil].
    - split_and!; [exists 0; split; [done|simpl; lia]|done|exact Hels].
    - split_and!; [exists 1; split; [done|simpl; lia]|done|exact Hels]. }
  exists table. split_and!; [done..|].
  vm_compute in Hrun. injection Hrun as <-. vm_compute. reflexivity.
Defined.

Lemma remote_vol_to_bdry_entries_witness :
  ∃ table,
    make_remote_vol_to_bdry remote_group_info = Ok table
    ∧ has_shape2 1 1 table
    ∧ table_get (F:=float) table 0 0 = Ok 0%Z.
Proof.
  destruct (proj2 (remote_vol_to_bdry_entries remote_group_info))
    as (table & max_el & max_face & [= <-] & [= <-] & Hrun & Hshape & _);
    [done|done|done|..].
  - intros e ->%list_elem_of_singleton. lia.
  - intros f ->%list_elem_of_singleton. lia.
  - exists table. split_and!; [done..|].
    vm_compute in Hrun. injection Hrun as <-. vm_compute. reflexivity.
Defined.

Lemma batch_weights_entries_witness :
  _batch_weights (λ _ _, Ok []) interval_volume_conn interval_discr
  = Ok [(0, 0, []); (0, 1, [])]
  ∧ ∃ w, (0, 1, w) ∈ [(0, 0, [] : list float); (0, 1, [])].
Proof.
  assert (_batch_weights (λ _ _, Ok []) interval_volume_conn interval_discr
          = Ok [(0, 0, []); (0, 1, [])]) as Hrun by (vm_compute; reflexivity).
  split; [exact Hrun|].
  exact (proj1 (proj2 (batch_weights_entries _ _ _ _ Hrun))
           0 line_grp interval_conn_grp 1 interval_face1_batch
           eq_refl eq_refl eq_refl).
Defined.

Lemma opposite_face_batches_refer_to_restriction_witness :
  ∃ out,
    make_opposite_face_connection interval_restriction = Ok out
    ∧ length (groups out) = length (groups interval_restriction)
    ∧ ∀ i g b, groups out !! i = Some g → b ∈ batches g →
        from_group_index b < length (discr_groups (from_discr out)).
Proof.
  destruct (make_opposite_face_connection interval_restriction)
    as [out| |] eqn:Hrun; [|by vm_compute in Hrun..].
  exists out. split; [done|].
  destruct (opposite_face_batches_refer_to_restriction _ _ Hrun)
    as (Hlen & _ & Hall).
  split; [done|]. intros i g b Hg Hb. by apply (Hall i g b).
Defined.

Lemma partition_batches_hold_matched_elements_witness :
  ∃ out,
    make_partition_connection local_bdry_conn part_bdry_discr
      [remote_group_info] = Ok out
    ∧ length (groups out) = 1
    ∧ ∀ i g b, groups out !! i = Some g → b ∈ batches g →
        (∀ s, s ∈ from_element_indices b → (0 ≤ s)%Z)
        ∧ (∀ t, t ∈ to_element_indices b → (0 ≤ t)%Z).
Proof.
  destruct (make_partition_connection local_bdry_conn part_bdry_discr
              [remote_group_info]) as [out| |] eqn:Hrun;
    [|by vm_compute in Hrun..].
  exists out. split; [done|].
  destruct (partition_batches_hold_matched_elements _ _ _ _ Hrun)
    as (Hlen & _ & Hall).
  split; [done|]. intros i g b Hg Hb. by apply (Hall i g b).
Defined.

Lemma gauss_newton_result_shape_witness :
  _find_src_unit_nodes_via_gauss_newton face_tgt_nodes face_src_nodes
    line_grp line_mesh_grp tol = Ok [[[(-0.5)%float; 0.5%float]]]
  ∧ has_shape3 1 1 2 [[[(-0.5)%float; 0.5%float]]].
Proof.
  assert (_find_src_unit_nodes_via_gauss_newton face_tgt_nodes face_src_nodes
            line_grp line_mesh_grp tol = Ok [[[(-0.5)%float; 0.5%float]]])
    as Hrun by (vm_compute; reflexivity).
  split; [exact Hrun|].
  exact (proj1 (gauss_newton_result_shape _ _ _ _ _ _ Hrun)).
Defined.

Lemma cross_face_batches_refuse_no_elements_witness :
  discr_dim face_discr ≠ 0
  ∧ _make_cross_face_batches face_discr face_discr 0 0 [] [] None None
    = Raise ValueError.
Proof.
  assert (discr_dim face_discr ≠ 0) as Hdim by (simpl; lia).
  split; [exact Hdim|].
  refine (proj2 (cross_face_batches_refuse_no_elements face_discr face_discr
            0 0 [] None None Hdim) _ _ _ _ _ _ _ _);
    vm_compute; reflexivity.
Defined.
End more_examples.

(** ** What [make_opposite_face_connection] accepts *)

Section restriction_check_facts.
Context {F : Type} `{Dtype F} `{Linalg F}.

(** A loop of assertions over a list comes down to one test of all items. *)
Lemma for_each_asserts {A} (l : list A) (test : A → bool)
    (body : unit → A → Outcome F unit) :
  (∀ u x, x ∈ l →
     body u x = if test x then Ok () else Raise AssertionError) →
  for_each l body () = if forallb test l then Ok () else Raise AssertionError.
Proof.
  induction l as [|x l IH]; intros Hbody; [done|]. simpl.
  rewrite Hbody by left. destruct (test x); simpl; [|done].
  apply IH. intros u y Hy. apply Hbody. by right.
Qed.

Lemma check_is_restriction_decided (conn : DirectDiscretizationConnection F) :
  check_is_restriction conn
  = if forallb (λ p : nat * DiscretizationConnectionElementGroup F,
        forallb (λ batch,
          bool_decide (from_group_index batch = p.1)
          && bool_decide (to_element_face batch ≠ None)) (batches p.2))
       (imap pair (groups conn))
    then Ok () else Raise AssertionError.
Proof.
  unfold check_is_restriction. apply for_each_asserts.
  intros [] [i g] _. simpl.
  rewrite (for_each_asserts _ (λ batch,
    bool_decide (from_group_index batch = i)
    && bool_decide (to_element_face batch ≠ None))); [done|].
  intros [] b _.
  destruct (bool_decide (from_group_index b = i)); simpl; [|done].
  by destruct (bool_decide (to_element_face b ≠ None)).
Qed.

(** The input checks of [make_opposite_face_connection].  The builder goes
    past its first loop exactly when every batch of every group names that
    group as its source and names a face; a batch that names another group
    stops it with an assertion error, and so does a connection whose number
    of groups differs from that of either discretization. *)
Theorem opposite_face_rejects_non_restriction
    (conn : DirectDiscretizationConnection F) :
  (check_is_restriction conn = Ok ()
   ↔ ∀ i g b, groups conn !! i = Some g → b ∈ batches g →
       from_group_index b = i ∧ to_element_face b ≠ None)
  ∧ (∀ i g b, groups conn !! i = Some g → b ∈ batches g →
       from_group_index b ≠ i →
       make_opposite_face_connection conn = Raise AssertionError)
  ∧ (length (groups conn) ≠ length (discr_groups (from_discr conn))
     ∨ length (groups conn) ≠ length (discr_groups (to_discr conn)) →
     make_opposite_face_connection conn = Raise AssertionError).
Proof.
  pose proof (check_is_restriction_decided conn) as Hcheck.
  destruct (forallb _ (imap pair (groups conn))) eqn:Hall in Hcheck.
  - (* every batch passes *)
    assert (∀ i g b, groups conn !! i = Some g → b ∈ batches g →
              from_group_index b = i ∧ to_element_face b ≠ None) as Hok.
    { intros i g b Hg Hb. rewrite forallb_forall in Hall.
      specialize (Hall (i, g)). simpl in Hall.
      rewrite forallb_forall in Hall.
      assert (bool_decide (from_group_index b = i)
              && bool_decide (to_element_face b ≠ None) = true) as Hb'.
      { apply Hall; [|by apply list_elem_of_In].
        apply list_elem_of_In, list_elem_of_lookup. exists i.
        by rewrite list_lookup_imap, Hg. }
      apply andb_true_iff in Hb' as [?%bool_decide_eq_true ?%bool_decide_eq_true].
      done. }
    split_and!.
    + split; [done|by intros _].
    + intros i g b Hg Hb Hne. by destruct (Hok i g b Hg Hb).
    + intros Hlen. unfold make_opposite_face_connection. rewrite Hcheck.
      cbn [mbind Outcome_bind].
      destruct (decide (length (groups conn)
                        = length (discr_groups (from_discr conn)))) as [Heq|Hne].
      * rewrite (bool_decide_eq_true_2 _ Heq). cbn [py_assert mbind Outcome_bind].
        destruct Hlen as [?|Hne]; [done|].
        by rewrite (bool_decide_eq_false_2 _ Hne).
      * by rewrite (bool_decide_eq_false_2 _ Hne).
  - (* some batch fails *)
    assert (make_opposite_face_connection conn = Raise AssertionError) as Hrun.
    { unfold make_opposite_face_connection. by rewrite Hcheck. }
    split_and!; [|done..].
    split; [by rewrite Hcheck|]. intros Hok. exfalso.
    apply not_true_iff_false in Hall. apply Hall.
    apply forallb_forall. intros [i g] Hin%list_elem_of_In.
    apply list_elem_of_lookup in Hin as [j Hj].
    rewrite list_lookup_imap in Hj.
    destruct (groups conn !! j) as [g'|] eqn:Hg; [|done].
    injection Hj as <- <-. simpl.
    apply forallb_forall. intros b Hb%list_elem_of_In.
    destruct (Hok j g' b Hg Hb) as [? ?].
    by rewrite !bool_decide_eq_true_2.
Qed.
End restriction_check_facts.

(** ** A run of [_find_src_unit_nodes_batches] that makes no progress *)

Section batches_hang_facts.
Context {F : Type} `{Dtype F}.

Local Abbreviation T3 := (list (list (list F))).

Lemma where_from_all (i n : nat) : where_from i (replicate n true) = seq i n.
Proof.
  revert i. induction n as [|n IH]; intros i; [done|]. simpl. by rewrite IH.
Qed.

Lemma np_where_none_done (n : nat) :
  np_where (negb <$> replicate n false) = seq 0 n.
Proof. unfold np_where. rewrite fmap_replicate. apply where_from_all. Qed.

Lemma filter_zip_none {A B} (P : B → bool) (l : list A) (k : list B) :
  Forall (λ y, P y = false) k →
  filter (λ p : A * B, P p.2 = true) (zip l k) = [].
Proof.
  intros Hk. revert l. induction Hk as [|y k Hy _ IH]; intros [|x l]; [done..|].
  simpl. rewrite filter_cons_False by (simpl; congruence). apply IH.
Qed.

(** When no element is within [tol] of the first one in the max-norm that
    the loop computes (not even the first itself, as with a NaN coordinate
    or a [tol] that is not positive), the first pass marks nothing as done,
    and the loop repeats that pass forever: the run never finishes. *)
Theorem batches_never_finish_without_progress (d n m : nat) (u : T3)
    (i_src_grp : nat) (tgt src : list Z) (tol : F) :
  has_shape3 d n m u → 0 < d → 0 < n → 0 < m →
  (∀ e r, e < n →
     unit_node_dist_of u (element_nodes u 0) e = Ok r → flt r tol = false) →
  _find_src_unit_nodes_batches u i_src_grp tgt src tol = Hang.
Proof.
  intros Hu Hd Hn Hm Hfar. unfold _find_src_unit_nodes_batches.
  pose proof (shape3_of_has_shape3 d n m u Hu Hd) as Hshape.
  destruct (shape3 u) as [[d' n'] m']. injection Hshape as -> ->.
  rewrite decide_False by lia. cbn [batches_loop].
  rewrite np_where_none_done.
  destruct n as [|n]; [lia|]. cbn [seq].
  change (0 :: seq 1 n) with (seq 0 (S n)).
  destruct (mapM_total (unit_node_dist_of u (element_nodes u 0)) (seq 0 (S n)))
    as [dists Hdists].
  { apply Forall_forall. intros e He%elem_of_seq.
    apply (unit_node_dist_of_Ok d (S n) m); [done..|lia|lia]. }
  rewrite Hdists. cbn [mbind Outcome_bind].
  assert (filter (λ p : nat * F, flt p.2 tol = true) (zip (seq 0 (S n)) dists)
          = []) as ->; [|done].
  apply (filter_zip_none (λ r, flt r tol)).
  apply mapM_Ok in Hdists.
  apply Forall2_Forall_r with (Q := λ r, flt r tol = false) in Hdists; [done|].
  apply Forall_forall. intros e He%elem_of_seq r Hr. apply (Hfar e); [lia|done].
Qed.
End batches_hang_facts.

(** ** [_transform_with_element_and_dof_inames] *)

Section loopy_transform_facts.
Context {F : Type}.

Lemma string_leb_trans (a b c : String.string) :
  String.leb a b = true → String.leb b c = true → String.leb a c = true.
Proof.
  revert b c. induction a as [|x a IH]; intros [|y b] [|z c];
    unfold String.leb; simpl; try done.
  specialize (IH b c). unfold String.leb in IH.
  destruct (Ascii.compare x y) eqn:Hxy; [| |done].
  - apply Ascii.compare_eq_iff in Hxy as ->.
    destruct (Ascii.compare y z); [exact IH|done..].
  - destruct (Ascii.compare y z) eqn:Hyz; [| |done].
    + apply Ascii.compare_eq_iff in Hyz as ->. by rewrite Hxy.
    + unfold Ascii.compare in *.
      apply N.compare_lt_iff in Hxy, Hyz.
      assert (N.compare (Ascii.N_of_ascii x) (Ascii.N_of_ascii z) = Lt) as ->
        by (apply N.compare_lt_iff; by eapply N.lt_trans).
      done.
Qed.

(** Sorting forgets the order in which the names were handed in. *)
Lemma py_sorted_Permutation (names names' : list String.string) :
  names ≡ₚ names' → py_sorted names = py_sorted names'.
Proof.
  intros Hperm. unfold py_sorted.
  assert (Transitive (λ a b, Is_true (String.leb a b))) as Htrans.
  { intros a b c Hab%Is_true_true Hbc%Is_true_true.
    apply Is_true_true. by eapply string_leb_trans. }
  assert (Total (λ a b, Is_true (String.leb a b))) as Htotal.
  { intros a b. destruct (String.leb_total a b) as [Hab|Hba];
      [left|right]; by apply Is_true_true. }
  apply (Sorted_unique_strong (λ a b, Is_true (String.leb a b))).
  - intros a b _ _ Hab%Is_true_true Hba%Is_true_true.
    by apply String.leb_antisym.
  - by apply Sorted_merge_sort.
  - by apply Sorted_merge_sort.
  - by rewrite !merge_sort_Permutation.
Qed.

Lemma list_intersection_Permutation (l l' k k' : list String.string) :
  l ≡ₚ l' → k ≡ₚ k' →
  list_intersection l k ≠ [] ↔ list_intersection l' k' ≠ [].
Proof.
  intros Hl Hk.
  assert (∀ a b : list String.string,
            list_intersection a b ≠ [] ↔ ∃ x, x ∈ a ∧ x ∈ b) as Hne.
  { intros a b. split.
    - destruct (list_intersection a b) as [|x ?] eqn:Hi; [done|]. intros _.
      exists x. apply list_elem_of_intersection. rewrite Hi. left.
    - intros (x & Hx%list_elem_of_intersection) Hnil. rewrite Hnil in Hx.
      by apply elem_of_nil in Hx. }
  rewrite !Hne. split; intros (x & Ha & Hb); exists x.
  - by rewrite <-Hl, <-Hk.
  - by rewrite Hl, Hk.
Qed.

Section with_loopy.
Variable TranslationUnit : Type.
Variable split_iname : TranslationUnit → String.string → Outcome F TranslationUnit.
Variable tag_inames : TranslationUnit → String.string → Outcome F TranslationUnit.

(** The transformation of a kernel depends on which inames are handed in,
    not on their order; and a name handed in both as an element and as a
    DOF iname is refused with a [ValueError], whatever loopy would do. *)
Theorem transform_inames_order_independent (t_unit : TranslationUnit)
    (el_inames el_inames' dof_inames dof_inames' : list String.string) :
  el_inames ≡ₚ el_inames' → dof_inames ≡ₚ dof_inames' →
  _transform_with_element_and_dof_inames TranslationUnit split_iname tag_inames
    t_unit el_inames dof_inames
  = _transform_with_element_and_dof_inames TranslationUnit split_iname tag_inames
      t_unit el_inames' dof_inames'
  ∧ ((∃ name, name ∈ el_inames ∧ name ∈ dof_inames) →
     _transform_with_element_and_dof_inames TranslationUnit split_iname
       tag_inames t_unit el_inames dof_inames = Raise ValueError).
Proof.
  intros Hel Hdof. unfold _transform_with_element_and_dof_inames. split.
  - rewrite (py_sorted_Permutation _ _ Hel), (py_sorted_Permutation _ _ Hdof).
    destruct (decide (list_intersection el_inames dof_inames ≠ [])) as [Hi|Hi].
    + rewrite !bool_decide_eq_true_2;
        [done|by apply (list_intersection_Permutation _ _ _ _ Hel Hdof)|done].
    + rewrite !bool_decide_eq_false_2; [done| |done].
      intros Hi'. by apply Hi, (list_intersection_Permutation _ _ _ _ Hel Hdof).
  - intros (name & Hin%list_elem_of_intersection).
    rewrite bool_decide_eq_true_2; [done|].
    intros Hnil. rewrite Hnil in Hin. by apply elem_of_nil in Hin.
Qed.
End with_loopy.
End loopy_transform_facts.

Section loopy_transform_examples.
Import String.
Local Open Scope string_scope.

(** A stand-in for loopy that records the calls made on it. *)
Lemma transform_inames_order_independent_witness :
  _transform_with_element_and_dof_inames (F:=PrimFloat.float) (list string)
    (λ t name, Ok (t ++ [append "split " name])%list)
    (λ t name, Ok (t ++ [append "tag " name])%list)
    [] ["jel"; "iel"] ["jdof"; "idof"]
  = Ok ["split idof"; "split jdof"; "tag iel"; "tag jel"]
  ∧ _transform_with_element_and_dof_inames (F:=PrimFloat.float) (list string)
      (λ t name, Ok (t ++ [append "split " name])%list)
      (λ t name, Ok (t ++ [append "tag " name])%list)
      [] ["jel"; "iel"] ["jdof"; "idof"]
    = _transform_with_element_and_dof_inames (F:=PrimFloat.float) (list string)
        (λ t name, Ok (t ++ [append "split " name])%list)
        (λ t name, Ok (t ++ [append "tag " name])%list)
        [] ["iel"; "jel"] ["idof"; "jdof"].
Proof.
  split; [vm_compute; reflexivity|].
  apply (transform_inames_order_independent (F:=PrimFloat.float));
    apply perm_swap.
Defined.
End loopy_transform_examples.

Section batches_hang_examples.
Import PrimFloat Float64 Examples.

(** One element with a NaN reference coordinate. *)
Lemma batches_never_finish_without_progress_witness :
  has_shape3 1 1 1 [[[nan]]]
  ∧ unit_node_dist_of [[[nan]]] (element_nodes [[[nan]]] 0) 0 = Ok nan
  ∧ _find_src_unit_nodes_batches [[[nan]]] 0 [5%Z] [6%Z] tol = Hang.
Proof.
  assert (has_shape3 1 1 1 [[[nan]]]) as Hshape by repeat constructor.
  split; [exact Hshape|]. split; [vm_compute; reflexivity|].
  apply (batches_never_finish_without_progress 1 1 1); [done|lia..|].
  intros e r He Hr. assert (e = 0) as -> by lia.
  vm_compute in Hr. injection Hr as <-. vm_compute. reflexivity.
Defined.
End batches_hang_examples.

Section batches_generator_examples.
Import PrimFloat Float64 Examples.

(** Three elements of which the first and the third share their pattern:
    the generator is exhausted on its third pass, after two batches.  One
    element with a NaN coordinate: every pass yields the same batch without
    elements. *)
Lemma generator_batches_pass_by_pass_witness :
  (∃ bs,
     _find_src_unit_nodes_batches_yielded [[[0; 1]; [1; 0]; [0; 1]]]%float 0
       [10; 11; 12]%Z [20; 21; 22]%Z tol 3 = Ok (bs, true)
     ∧ length bs = 2
     ∧ _find_src_unit_nodes_batches [[[0; 1]; [1; 0]; [0; 1]]]%float 0
         [10; 11; 12]%Z [20; 21; 22]%Z tol = Ok bs
     ∧ ∀ b, b ∈ bs → from_element_indices b ≠ [] ∧ to_element_indices b ≠ [])
  ∧ (∃ bs b,
       _find_src_unit_nodes_batches_yielded [[[nan]]] 0 [5%Z] [6%Z] tol 3
       = Ok (bs, false)
       ∧ length bs = 3
       ∧ bs !! 0 = Some b ∧ from_element_indices b = []
       ∧ ∀ k' b', bs !! k' = Some b' → b' = b).
Proof.
  split.
  - destruct (_find_src_unit_nodes_batches_yielded
                [[[0; 1]; [1; 0]; [0; 1]]]%float 0
                [10; 11; 12]%Z [20; 21; 22]%Z tol 3) as [[bs ret]| |] eqn:Hrun;
      [|vm_compute in Hrun; discriminate Hrun..].
    destruct (generator_batches_pass_by_pass _ _ _ _ _ _ _ _ Hrun)
      as (_ & _ & Hret).
    vm_compute in Hrun. injection Hrun as <- <-.
    destruct (Hret eq_refl) as (Hlist & Hne & _).
    eexists. split; [reflexivity|]. split; [reflexivity|].
    split; [exact Hlist|exact Hne].
  - destruct (_find_src_unit_nodes_batches_yielded [[[nan]]] 0 [5%Z] [6%Z]
                tol 3) as [[bs ret]| |] eqn:Hrun;
      [|vm_compute in Hrun; discriminate Hrun..].
    pose proof (generator_batches_pass_by_pass _ _ _ _ _ _ _ _ Hrun)
      as (_ & Hempty & _).
    vm_compute in Hrun. injection Hrun as <- <-.
    eexists _, _. split; [reflexivity|]. split; [reflexivity|].
    split; [reflexivity|]. split; [reflexivity|].
    intros k' b' Hk'.
    refine (proj2 (Hempty 0 _ eq_refl eq_refl) k' b' _ Hk'). lia.
Defined.
End batches_generator_examples.

(** ** Which elements the opposite-face connection pairs up *)

Section opposite_pairs_facts.
Context {F : Type} `{Dtype F} `{Linalg F}.

(** [ary[mask]] holds the entries of [ary] at the positions [np.where(mask)],
    in order. *)
Lemma mask_select_positions {A} (ary : list A) (mask : list bool) (sel : list A) :
  mask_select (F:=F) ary mask = Ok sel →
  Forall2 (λ k x, ary !! k = Some x) (np_where mask) sel.
Proof.
  unfold mask_select. case_decide as Hlen; [|done]. intros [= <-].
  assert (∀ i, Forall2 (λ k x, i ≤ k ∧ ary !! (k - i) = Some x)
                 (where_from i mask)
                 ((filter (λ p : A * bool, p.2 = true) (zip ary mask)).*1))
    as Hgen.
  { revert ary Hlen. induction mask as [|b mask IH]; intros ary Hlen i.
    - destruct ary; constructor.
    - destruct ary as [|x ary]; [done|]. simpl in Hlen.
      assert (Forall2 (λ k y, i ≤ k ∧ (x :: ary) !! (k - i) = Some y)
                (where_from (S i) mask)
                ((filter (λ p : A * bool, p.2 = true) (zip ary mask)).*1))
        as Htail.
      { eapply Forall2_impl; [apply (IH ary); lia|].
        intros k y [Hk Hy]. split; [lia|].
        replace (k - i) with (S (k - S i)) by lia. done. }
      destruct b; cbn [where_from zip_with].
      + rewrite filter_cons_True by done. rewrite fmap_cons.
        constructor; [|done]. split; [done|]. by rewrite Nat.sub_diag.
      + by rewrite filter_cons_False by done. }
  specialize (Hgen 0). eapply Forall2_impl; [exact Hgen|].
  intros k x [_ Hk]. by rewrite Nat.sub_0_r in Hk.
Qed.

(** [table[rows, cols]] with index arrays of one length, entry by entry. *)
Lemma table_take_entries (table : list (list Z)) (rows cols vals : list Z) :
  length rows = length cols →
  table_take (F:=F) table rows cols = Ok vals →
  ∀ j r c v, rows !! j = Some r → cols !! j = Some c → vals !! j = Some v →
    table_get (F:=F) table r c = Ok v.
Proof.
  intros Hlen. unfold table_take, broadcast_indices.
  rewrite decide_True by done. cbn [mbind Outcome_bind].
  intros Hvals%mapM_Ok j r c v Hr Hc Hv.
  assert (zip rows cols !! j = Some (r, c)) as Hrc.
  { apply lookup_zip_with_Some. by exists r, c. }
  destruct (Forall2_lookup_l _ _ _ _ _ Hvals Hrc) as (v' & Hv' & Hget).
  simpl in Hget. congruence.
Qed.

(** The batches of one call of [_make_cross_face_batches] pair source and
    target elements as the two index arrays of the call pair them. *)
Lemma cross_face_batches_pairs (tgt_discr src_discr : Discretization F)
    (i_tgt_grp i_src_grp : nat) (tgt_idx src_idx : list Z)
    (tgt_aff src_aff : option (AffineMap F))
    (bs : list (InterpolationBatch F)) :
  _make_cross_face_batches tgt_discr src_discr i_tgt_grp i_src_grp
    tgt_idx src_idx tgt_aff src_aff = Ok bs →
  ∀ b j s t, b ∈ bs →
    from_element_indices b !! j = Some s → to_element_indices b !! j = Some t →
    ∃ k, src_idx !! k = Some s ∧ tgt_idx !! k = Some t.
Proof.
  unfold _make_cross_face_batches. case_decide as Hdim.
  { intros Hrun. apply bind_Ok in Hrun as (src_grp & _ & [= <-]).
    intros b j s t ->%list_elem_of_singleton Hs Ht. by exists j. }
  intros Hrun.
  apply bind_Ok in Hrun as (tgt_nodes & _ & Hrun).
  apply bind_Ok in Hrun as (src_nodes & _ & Hrun).
  apply bind_Ok in Hrun as (src_mesh_grp & _ & Hrun).
  apply bind_Ok in Hrun as (src_grp & _ & Hrun).
  apply bind_Ok in Hrun as (matched & _ & Hrun).
  apply bind_Ok in Hrun as (u & _ & Hrun).
  destruct (batches_groups _ _ _ _ _ _ Hrun) as (gs & _ & Hall).
  intros b j s t [i Hi]%list_elem_of_lookup_1 Hs Ht.
  destruct (Forall2_lookup_r _ _ _ _ _ Hall Hi) as (g & _ & _ & _ & Hfrom & Hto).
  apply mapM_getnat_in_range in Hfrom, Hto.
  destruct (Forall2_lookup_r _ _ _ _ _ Hfrom Hs) as (k & Hk & Hsrc).
  destruct (Forall2_lookup_r _ _ _ _ _ Hto Ht) as (k' & Hk' & Htgt).
  assert (k' = k) as -> by congruence. by exists k.
Qed.
End opposite_pairs_facts.

Section opposite_pairs_claims.
Context {F : Type} `{Dtype F} `{Linalg F}.

(** Boundary element [t] is what the restriction [conn] records for face
    [face] of the volume element [e] of group [i]. *)
Definition restriction_element (conn : DirectDiscretizationConnection F)
    (i : nat) (e : Z) (face : nat) (t : Z) : Prop :=
  ∃ conn_grp rb p,
    groups conn !! i = Some conn_grp ∧ rb ∈ batches conn_grp
    ∧ to_element_face rb = Some face
    ∧ from_element_indices rb !! p = Some e
    ∧ to_element_indices rb !! p = Some t.

(** The mesh records that face [face] of element [e] of group [i_tgt] lies
    against face [face'] of element [e'] of group [i_src]. *)
Definition adjacent_across (vol_mesh : Mesh F) (i_tgt i_src : nat)
    (e : Z) (face : nat) (e' face' : Z) : Prop :=
  ∃ fagrps adj k,
    facial_adjacency_groups vol_mesh !! i_tgt = Some fagrps
    ∧ Interior adj ∈ fagrps ∧ ineighbor_group adj = i_src
    ∧ elements adj !! k = Some e
    ∧ element_faces adj !! k = Some (Z.of_nat face)
    ∧ neighbors adj !! k = Some e'
    ∧ neighbor_faces adj !! k = Some face'.

Lemma find_ibatch_member (bs : list (InterpolationBatch F)) (iface : nat)
    (b : InterpolationBatch F) :
  _find_ibatch_for_face bs iface = Ok b →
  b ∈ bs ∧ to_element_face b = Some iface.
Proof.
  unfold _find_ibatch_for_face.
  destruct (filter _ bs) as [|c [|? ?]] eqn:Hf; [done| |done].
  intros [= ->].
  assert (b ∈ filter (λ batch, to_element_face batch = Some iface) bs) as Hc
    by (rewrite Hf; left).
  by apply list_elem_of_filter in Hc as [? ?].
Qed.

Lemma interior_adj_grps_members (vol_mesh : Mesh F) (i_tgt_grp i_src_grp : nat)
    (adj_grps : list (InteriorAdjacencyGroup F)) (adj : InteriorAdjacencyGroup F) :
  interior_adj_grps vol_mesh i_tgt_grp i_src_grp = Ok adj_grps →
  adj ∈ adj_grps →
  ∃ fagrps, facial_adjacency_groups vol_mesh !! i_tgt_grp = Some fagrps
    ∧ Interior adj ∈ fagrps ∧ ineighbor_group adj = i_src_grp.
Proof.
  unfold interior_adj_grps.
  intros (fagrps & Hgrp%getnat_Ok & [= <-])%bind_Ok Hadj.
  apply list_elem_of_omap in Hadj as (fagrp & Hin & Hsel).
  exists fagrps. destruct fagrp as [adj'|]; [|done].
  case_decide in Hsel as Hn; [|done]. injection Hsel as ->. done.
Qed.

(** The pairs that one pass of the innermost loop adds. *)
Lemma opposite_face_step_pairs (conn : DirectDiscretizationConnection F)
    (src_grp_el_lookup : list (list Z)) (i_src_grp i_tgt_grp : nat)
    (adj : InteriorAdjacencyGroup F) (i_face_tgt : nat)
    (tgt_idx : list Z) (new_batches : list (InterpolationBatch F))
    (src_vol src_faces src_idx : list Z) :
  (∀ g rb, groups conn !! i_tgt_grp = Some g → rb ∈ batches g →
     length (to_element_indices rb) = length (from_element_indices rb)) →
  opposite_face_tgt_elements conn i_tgt_grp adj i_face_tgt = Ok (Some tgt_idx) →
  mask_select (F:=F) (neighbors adj)
    ((λ f, bool_decide (f = Z.of_nat i_face_tgt)) <$> element_faces adj)
  = Ok src_vol →
  mask_select (F:=F) (neighbor_faces adj)
    ((λ f, bool_decide (f = Z.of_nat i_face_tgt)) <$> element_faces adj)
  = Ok src_faces →
  table_take (F:=F) src_grp_el_lookup src_vol src_faces = Ok src_idx →
  ∀ k s t, src_idx !! k = Some s → tgt_idx !! k = Some t →
    ∃ pos e e' face',
      elements adj !! pos = Some e
      ∧ element_faces adj !! pos = Some (Z.of_nat i_face_tgt)
      ∧ neighbors adj !! pos = Some e'
      ∧ neighbor_faces adj !! pos = Some face'
      ∧ restriction_element conn i_tgt_grp e i_face_tgt t
      ∧ table_get (F:=F) src_grp_el_lookup e' face' = Ok s.
Proof.
  intros Hwf Hsel Hvol Hfaces Htake k s t Hs Ht.
  destruct (opposite_face_tgt_elements_aligned _ _ _ _ _ Hsel)
    as (conn_grp & rb & adj_els & Hgrp & Hrb & Hels & _ & Hall).
  destruct (find_ibatch_member _ _ _ Hrb) as [Hin Hface].
  specialize (Hall (Hwf _ _ Hgrp Hin)).
  apply mask_select_positions in Hels, Hvol, Hfaces.
  destruct (Forall2_lookup_r _ _ _ _ _ Hall Ht) as (e & He & p & Hfrom & Hto).
  destruct (Forall2_lookup_r _ _ _ _ _ Hels He) as (pos & Hpos & Hel).
  destruct (Forall2_lookup_l _ _ _ _ _ Hvol Hpos) as (e' & He' & Hnb).
  destruct (Forall2_lookup_l _ _ _ _ _ Hfaces Hpos) as (face' & Hface' & Hnf).
  exists pos, e, e', face'. split_and!; [done| |done|done| |].
  - apply list_elem_of_lookup_2, elem_of_np_where in Hpos.
    rewrite list_lookup_fmap in Hpos.
    destruct (element_faces adj !! pos) as [f|]; [|done].
    injection Hpos as Hf%bool_decide_eq_true. by subst f.
  - by exists conn_grp, rb, p.
  - assert (length src_vol = length src_faces) as Hlen
      by (by rewrite <-(Forall2_length _ _ _ Hvol), (Forall2_length _ _ _ Hfaces)).
    exact (table_take_entries _ _ _ _ Hlen Htake k _ _ _ He' Hface' Hs).
Qed.

(** What the opposite-face connection connects.  For a restriction whose
    batches pair their two index arrays entry by entry: whenever a batch of
    group [i] of the result pairs source boundary element [s] with target
    boundary element [t], the mesh records a face of an element [e] of
    group [i] against a face of an element [e'] of the batch's source
    group, [t] is the boundary element that the restriction records for
    that face of [e], and [s] is the entry of the lookup table of the
    source group for that face of [e']. *)
Theorem opposite_face_pairs_follow_adjacency
    (conn out : DirectDiscretizationConnection F) :
  (∀ i g rb, groups conn !! i = Some g → rb ∈ batches g →
     length (to_element_indices rb) = length (from_element_indices rb)) →
  make_opposite_face_connection conn = Ok out →
  ∀ i g b j s t, groups out !! i = Some g → b ∈ batches g →
    from_element_indices b !! j = Some s → to_element_indices b !! j = Some t →
    ∃ e face e' face' table,
      adjacent_across (discr_mesh (from_discr conn)) i (from_group_index b)
        e face e' face'
      ∧ restriction_element conn i e face t
      ∧ _make_bdry_el_lookup_table conn (from_group_index b) = Ok table
      ∧ table_get (F:=F) table e' face' = Ok s.
Proof.
  intros Hwf. unfold make_opposite_face_connection. intros Hrun.
  apply bind_Ok in Hrun as ([] & _ & Hrun).
  apply bind_Ok in Hrun as ([] & _ & Hrun).
  apply bind_Ok in Hrun as ([] & _ & Hrun).
  apply bind_Ok in Hrun as (grps & Hloops & [= <-]). cbn [groups].
  set (ngrps := length (groups conn)) in *.
  set (vol_mesh := discr_mesh (from_discr conn)) in *.
  set (Q := λ (i : nat) (b : InterpolationBatch F),
         ∀ j s t, from_element_indices b !! j = Some s →
           to_element_indices b !! j = Some t →
           ∃ e face e' face' table,
             adjacent_across vol_mesh i (from_group_index b) e face e' face'
             ∧ restriction_element conn i e face t
             ∧ _make_bdry_el_lookup_table conn (from_group_index b) = Ok table
             ∧ table_get (F:=F) table e' face' = Ok s).
  assert (all_batches ngrps Q grps) as Hinv.
  { eapply (for_each_invariant (all_batches ngrps Q));
      [|apply all_batches_initial|exact Hloops].
    clear Hloops grps. intros grps i_src_grp grps' _ HP Hrun.
    apply bind_Ok in Hrun as (lookup & Hlookup & Hrun).
    eapply (for_each_invariant (all_batches ngrps Q)); [|exact HP|exact Hrun].
    clear Hrun HP grps grps'. intros grps i_tgt_grp grps' _ HP Hrun.
    apply bind_Ok in Hrun as (adj_grps & Hadj_grps & Hrun).
    eapply (for_each_invariant (all_batches ngrps Q)); [|exact HP|exact Hrun].
    clear Hrun HP grps grps'. intros grps adj grps' Hadj HP Hrun.
    apply bind_Ok in Hrun as (tgt_mesh_grp & _ & Hrun).
    eapply (for_each_invariant (all_batches ngrps Q)); [|exact HP|exact Hrun].
    clear Hrun HP grps grps'. intros grps i_face_tgt grps' _ HP Hrun.
    unfold opposite_face_step in Hrun.
    apply bind_Ok in Hrun as (selected & Hsel & Hrun).
    destruct selected as [tgt_idx|]; [|by injection Hrun as <-].
    apply bind_Ok in Hrun as (src_vol & Hvol & Hrun).
    apply bind_Ok in Hrun as (src_faces & Hfaces & Hrun).
    apply bind_Ok in Hrun as (src_idx & Htake & Hrun).
    apply bind_Ok in Hrun as (new_batches & Hnew & Hrun).
    eapply all_batches_extend; [exact HP|exact Hrun|].
    intros b Hb j s t Hs Ht.
    destruct (cross_face_batches_members _ _ _ _ _ _ _ _ _ Hnew b Hb)
      as (Hgrp & _ & _).
    destruct (cross_face_batches_pairs _ _ _ _ _ _ _ _ _ Hnew b j s t Hb Hs Ht)
      as (k & Hks & Hkt).
    destruct (opposite_face_step_pairs conn lookup i_src_grp i_tgt_grp adj
                i_face_tgt tgt_idx new_batches src_vol src_faces src_idx
                (Hwf i_tgt_grp) Hsel Hvol Hfaces Htake k s t Hks Hkt)
      as (pos & e & e' & face' & He & Hf & He' & Hf' & Hrestr & Hget).
    destruct (interior_adj_grps_members _ _ _ _ _ Hadj_grps Hadj)
      as (fagrps & Hfagrps & Hin & Hnb).
    exists e, i_face_tgt, e', face', lookup. rewrite Hgrp.
    split_and!; [|done..]. by exists fagrps, adj, pos. }
  apply all_batches_groups in Hinv as [_ HQ].
  intros i g b j s t Hg Hb. by apply (HQ i g b).
Qed.
End opposite_pairs_claims.

(** ** Which elements the partition connection pairs up *)

Section partition_pairs_claims.
Context {F : Type} `{Dtype F} `{Linalg F}.

(** What the partition connection connects.  Whenever a batch of group [i]
    of the result pairs remote boundary element [s] with local boundary
    element [t], one of the remote adjacency groups handed in records, at
    some position, a remote element [e'] with face [face'] against a local
    element with the mesh-wide number [n] and face [face]; that element
    falls in group [i]; [t] is the entry of the local lookup table for the
    group-local element [n - base] and [face], [s] the entry of the remote
    table for [e'] and [face'], and the batch names the remote group. *)
Theorem partition_pairs_follow_adjacency
    (local_bdry_conn : DirectDiscretizationConnection F)
    (remote_bdry_discr : Discretization F)
    (remote_group_infos : list (RemoteGroupInfo F))
    (out : DirectDiscretizationConnection F) :
  make_partition_connection local_bdry_conn remote_bdry_discr remote_group_infos
  = Ok out →
  let local_vol_mesh := discr_mesh (from_discr local_bdry_conn) in
  ∀ i g b j s t, groups out !! i = Some g → b ∈ batches g →
    from_element_indices b !! j = Some s → to_element_indices b !! j = Some t →
    ∃ rgi rem_ipag k n face e' face' base local_table remote_table,
      rgi ∈ remote_group_infos ∧ rem_ipag ∈ inter_part_adj_groups rgi
      ∧ from_group_index b = ipag_igroup rem_ipag
      ∧ ipag_neighbors rem_ipag !! k = Some n
      ∧ ipag_neighbor_faces rem_ipag !! k = Some face
      ∧ ipag_elements rem_ipag !! k = Some e'
      ∧ ipag_element_faces rem_ipag !! k = Some face'
      ∧ find_group_indices (mesh_groups local_vol_mesh)
          (ipag_neighbors rem_ipag) !! k = Some i
      ∧ base_element_nrs local_vol_mesh !! i = Some base
      ∧ _make_bdry_el_lookup_table local_bdry_conn i = Ok local_table
      ∧ table_get (F:=F) local_table (n - base) face = Ok t
      ∧ make_remote_vol_to_bdry rgi = Ok remote_table
      ∧ table_get (F:=F) remote_table e' face' = Ok s.
Proof.
  unfold make_partition_connection. intros Hrun. cbv zeta.
  apply bind_Ok in Hrun as ([] & _ & Hrun).
  apply bind_Ok in Hrun as (grps & Hloops & [= <-]). cbn [groups].
  set (local_vol_mesh := discr_mesh (from_discr local_bdry_conn)) in *.
  set (n_grps := length (mesh_groups local_vol_mesh)) in *.
  set (Q := λ (i : nat) (b : InterpolationBatch F),
         ∀ j s t, from_element_indices b !! j = Some s →
           to_element_indices b !! j = Some t →
           ∃ rgi rem_ipag k n face e' face' base local_table remote_table,
             rgi ∈ remote_group_infos ∧ rem_ipag ∈ inter_part_adj_groups rgi
             ∧ from_group_index b = ipag_igroup rem_ipag
             ∧ ipag_neighbors rem_ipag !! k = Some n
             ∧ ipag_neighbor_faces rem_ipag !! k = Some face
             ∧ ipag_elements rem_ipag !! k = Some e'
             ∧ ipag_element_faces rem_ipag !! k = Some face'
             ∧ find_group_indices (mesh_groups local_vol_mesh)
                 (ipag_neighbors rem_ipag) !! k = Some i
             ∧ base_element_nrs local_vol_mesh !! i = Some base
             ∧ _make_bdry_el_lookup_table local_bdry_conn i = Ok local_table
             ∧ table_get (F:=F) local_table (n - base) face = Ok t
             ∧ make_remote_vol_to_bdry rgi = Ok remote_table
             ∧ table_get (F:=F) remote_table e' face' = Ok s).
  assert (all_batches n_grps Q grps) as Hinv.
  { eapply (for_each_invariant (all_batches n_grps Q));
      [|apply all_batches_initial|exact Hloops].
    clear Hloops grps. intros grps rgi grps' Hrgi HP Hrun.
    eapply (for_each_invariant (all_batches n_grps Q)); [|exact HP|exact Hrun].
    clear Hrun HP grps grps'. intros grps rem_ipag grps' Hipag HP Hrun.
    cbv zeta in Hrun. apply bind_Ok in Hrun as (remote_tbl & Hremote_tbl & Hrun).
    eapply (for_each_invariant (all_batches n_grps Q)); [|exact HP|exact Hrun].
    clear Hrun HP grps grps'. intros grps i_local_grp grps' _ HP Hrun.
    unfold partition_step in Hrun.
    change (discr_mesh (from_discr local_bdry_conn)) with local_vol_mesh in Hrun.
    apply bind_Ok in Hrun as (local_tbl & Hlocal_tbl & Hrun).
    apply bind_Ok in Hrun as (neighbors_sel & Hnb & Hrun).
    apply bind_Ok in Hrun as (base & Hbase%getnat_Ok & Hrun).
    apply bind_Ok in Hrun as (remote_els & Hrel & Hrun).
    apply bind_Ok in Hrun as (neighbor_faces_sel & Hnf & Hrun).
    apply bind_Ok in Hrun as (matched_local & Hml & Hrun).
    apply bind_Ok in Hrun as ([] & _ & Hrun).
    apply bind_Ok in Hrun as (element_faces_sel & Hef & Hrun).
    apply bind_Ok in Hrun as (matched_remote & Hmr & Hrun).
    apply bind_Ok in Hrun as ([] & _ & Hrun).
    apply bind_Ok in Hrun as (grp_batches & Hnew & Hrun).
    eapply all_batches_extend; [exact HP|exact Hrun|].
    intros b Hb j s t Hs Ht.
    destruct (cross_face_batches_members _ _ _ _ _ _ _ _ _ Hnew b Hb)
      as (Hgrp & _ & _).
    destruct (cross_face_batches_pairs _ _ _ _ _ _ _ _ _ Hnew b j s t Hb Hs Ht)
      as (p & Hps & Hpt).
    apply mapM_getnat_in_range in Hnb, Hrel, Hnf, Hef.
    pose proof (Forall2_length _ _ _ Hnb) as Hlen_nb.
    pose proof (Forall2_length _ _ _ Hrel) as Hlen_rel.
    pose proof (Forall2_length _ _ _ Hnf) as Hlen_nf.
    pose proof (Forall2_length _ _ _ Hef) as Hlen_ef.
    (* the position in the adjacency group behind position [p] *)
    assert (p < length matched_local) as Hp by (by eapply lookup_lt_Some).
    assert (length matched_local = length neighbors_sel) as Hlen_ml.
    { unfold table_take, broadcast_indices in Hml.
      rewrite decide_True in Hml by (rewrite length_fmap; lia).
      cbn [mbind Outcome_bind] in Hml. apply mapM_Ok_length in Hml.
      rewrite Hml, length_zip, length_fmap. lia. }
    destruct (lookup_lt_is_Some_2 neighbors_sel p) as [n Hn]; [lia|].
    destruct (Forall2_lookup_r _ _ _ _ _ Hnb Hn) as (k & Hk & Hkn).
    destruct (Forall2_lookup_l _ _ _ _ _ Hrel Hk) as (e' & He' & Hke).
    destruct (Forall2_lookup_l _ _ _ _ _ Hnf Hk) as (face & Hface & Hkf).
    destruct (Forall2_lookup_l _ _ _ _ _ Hef Hk) as (face' & Hface' & Hkf').
    exists rgi, rem_ipag, k, n, face, e', face', base, local_tbl, remote_tbl.
    split_and!; [done..| | | | | |]; [|done|done| |done|].
    - apply list_elem_of_lookup_2, elem_of_np_where in Hk.
      rewrite list_lookup_fmap in Hk.
      destruct (find_group_indices _ _ !! k) as [i'|]; [|done].
      injection Hk as Hi%bool_decide_eq_true. by subst i'.
    - refine (table_take_entries _ _ _ _ _ Hml p _ _ _ _ Hface Hpt).
      + rewrite length_fmap. lia.
      + by rewrite list_lookup_fmap, Hn.
    - refine (table_take_entries _ _ _ _ _ Hmr p _ _ _ He' Hface' Hps). lia. }
  apply all_batches_groups in Hinv as [_ HQ].
  intros i g b j s t Hg Hb. by apply (HQ i g b).
Qed.
End partition_pairs_claims.

Section pairs_examples.
Import PrimFloat Float64 Examples.

(** On the interval: the one batch of the opposite-face connection pairs
    boundary element 2 with 1 and 1 with 2, the two sides of the interior
    point. *)
Lemma opposite_face_pairs_follow_adjacency_witness :
  ∃ out g,
    make_opposite_face_connection interval_restriction = Ok out
    ∧ groups out !! 0 = Some g
    ∧ (from_element_indices <$> batches g) = [[2%Z]; [1%Z]]
    ∧ (to_element_indices <$> batches g) = [[1%Z]; [2%Z]]
    ∧ ∀ b j s t, b ∈ batches g →
        from_element_indices b !! j = Some s →
        to_element_indices b !! j = Some t →
        ∃ e face e' face' table,
          adjacent_across interval_mesh 0 (from_group_index b) e face e' face'
          ∧ restriction_element interval_restriction 0 e face t
          ∧ _make_bdry_el_lookup_table interval_restriction
              (from_group_index b) = Ok table
          ∧ table_get (F:=float) table e' face' = Ok s.
Proof.
  destruct (make_opposite_face_connection interval_restriction)
    as [out| |] eqn:Hrun; [|by vm_compute in Hrun..].
  assert (∀ i g rb, groups interval_restriction !! i = Some g →
            rb ∈ batches g →
            length (to_element_indices rb) = length (from_element_indices rb))
    as Hwf.
  { intros [|i] g rb Hg Hrb; [|by destruct i]. injection Hg as <-.
    simpl in Hrb.
    repeat (apply elem_of_cons in Hrb as [->|Hrb]; [done|]).
    by apply elem_of_nil in Hrb. }
  pose proof (opposite_face_pairs_follow_adjacency interval_restriction out
                Hwf Hrun 0) as Hpairs.
  vm_compute in Hrun. injection Hrun as <-.
  eexists _, _. split_and!; [reflexivity..|].
  intros b j s t Hb. exact (Hpairs _ b j s t eq_refl Hb).
Defined.

Lemma partition_pairs_follow_adjacency_witness :
  ∃ out g,
    make_partition_connection local_bdry_conn part_bdry_discr
      [remote_group_info] = Ok out
    ∧ groups out !! 0 = Some g
    ∧ (from_element_indices <$> batches g) = [[0%Z]]
    ∧ (to_element_indices <$> batches g) = [[0%Z]]
    ∧ ∀ b j s t, b ∈ batches g →
        from_element_indices b !! j = Some s →
        to_element_indices b !! j = Some t →
        ∃ rgi rem_ipag k n face e' face' base local_table remote_table,
          rgi ∈ [remote_group_info] ∧ rem_ipag ∈ inter_part_adj_groups rgi
          ∧ from_group_index b = ipag_igroup rem_ipag
          ∧ ipag_neighbors rem_ipag !! k = Some n
          ∧ ipag_neighbor_faces rem_ipag !! k = Some face
          ∧ ipag_elements rem_ipag !! k = Some e'
          ∧ ipag_element_faces rem_ipag !! k = Some face'
          ∧ find_group_indices (mesh_groups local_mesh)
              (ipag_neighbors rem_ipag) !! k = Some 0
          ∧ base_element_nrs local_mesh !! 0 = Some base
          ∧ _make_bdry_el_lookup_table local_bdry_conn 0 = Ok local_table
          ∧ table_get (F:=float) local_table (n - base) face = Ok t
          ∧ make_remote_vol_to_bdry rgi = Ok remote_table
          ∧ table_get (F:=float) remote_table e' face' = Ok s.
Proof.
  destruct (make_partition_connection local_bdry_conn part_bdry_discr
              [remote_group_info]) as [out| |] eqn:Hrun;
    [|by vm_compute in Hrun..].
  pose proof (partition_pairs_follow_adjacency local_bdry_conn part_bdry_discr
                [remote_group_info] out Hrun 0) as Hpairs.
  vm_compute in Hrun. injection Hrun as <-.
  eexists _, _. split_and!; [reflexivity..|].
  intros b j s t Hb. exact (Hpairs _ b j s t eq_refl Hb).
Defined.
End pairs_examples.

(** ** What a call of [_make_cross_face_batches] hands back *)

Section cross_face_contract.
Context {F : Type} `{Dtype F} `{Linalg F}.

(** Whichever tier finds the reference nodes, the batches of one call name
    the source group of the call and no face, hold every target element of
    the call exactly once, and pair each of them with the source element
    that stands at the same position of the call's two index arrays. *)
Theorem cross_face_batches_contract (tgt_discr src_discr : Discretization F)
    (i_tgt_grp i_src_grp : nat) (tgt_idx src_idx : list Z)
    (tgt_aff src_aff : option (AffineMap F))
    (bs : list (InterpolationBatch F)) :
  _make_cross_face_batches tgt_discr src_discr i_tgt_grp i_src_grp
    tgt_idx src_idx tgt_aff src_aff = Ok bs →
  concat (to_element_indices <$> bs) ≡ₚ tgt_idx
  ∧ ∀ b, b ∈ bs →
      from_group_index b = i_src_grp
      ∧ to_element_face b = None
      ∧ ∀ j s t, from_element_indices b !! j = Some s →
          to_element_indices b !! j = Some t →
          ∃ k, src_idx !! k = Some s ∧ tgt_idx !! k = Some t.
Proof.
  intros Hrun. split; [by eapply cross_face_batches_cover_targets|].
  intros b Hb. split_and!.
  - by destruct (cross_face_batches_members _ _ _ _ _ _ _ _ _ Hrun b Hb).
  - by eapply cross_face_batches_no_face.
  - intros j s t. by eapply cross_face_batches_pairs.
Qed.
End cross_face_contract.

Section cross_face_contract_examples.
Import PrimFloat Float64 Examples.

Lemma cross_face_batches_contract_witness :
  ∃ bs,
    _make_cross_face_batches face_discr face_discr 0 0 [1; 2]%Z [0; 0]%Z
      None None = Ok bs
    ∧ length bs = 2
    ∧ concat (to_element_indices <$> bs) ≡ₚ [1; 2]%Z
    ∧ ∀ b, b ∈ bs → from_group_index b = 0 ∧ to_element_face b = None.
Proof.
  destruct (_make_cross_face_batches face_discr face_discr 0 0 [1; 2]%Z
              [0; 0]%Z None None) as [bs| |] eqn:Hrun;
    [|vm_compute in Hrun; discriminate Hrun..].
  destruct (cross_face_batches_contract _ _ _ _ _ _ _ _ _ Hrun)
    as [Hcover Hall].
  exists bs. split; [reflexivity|].
  vm_compute in Hrun. injection Hrun as <-.
  split; [reflexivity|]. split; [exact Hcover|].
  intros b Hb. destruct (Hall b Hb) as (Hgrp & Hface & _).
  split; assumption.
Defined.
End cross_face_contract_examples.

(** ** Which element starts a batch, and what a batch leaves behind *)

Section batches_greedy_facts.
Context {F : Type} `{Dtype F}.

Local Abbreviation T3 := (list (list (list F))).

(** [np.where] lists the positions in increasing order. *)
Lemma where_from_head_lt (i : nat) (row : list bool) (first : nat)
    (rest : list nat) :
  where_from i row = first :: rest → ∀ e, e ∈ rest → first < e.
Proof.
  revert i. induction row as [|b row IH]; intros i; simpl; [done|].
  destruct b; [|by apply IH].
  intros [= <- <-] e (j & -> & _)%elem_of_where_from. lia.
Qed.

Lemma batches_loop_greedy (u : T3) (i_src_grp : nat) (tgt src : list Z) (tol : F)
    (fuel : nat) (done_elements : list bool) (bs : list (InterpolationBatch F)) :
  batches_loop u i_src_grp tgt src tol fuel done_elements = Ok bs →
  ∃ ges : list (nat * list nat),
    concat (snd <$> ges) ≡ₚ np_where (negb <$> done_elements)
    ∧ Forall2 (λ ge b, batch_of_positions u i_src_grp tgt src tol ge.1 ge.2 b)
        ges bs
    ∧ ∀ i j e0 gi e1 gj e,
        i ≤ j → ges !! i = Some (e0, gi) → ges !! j = Some (e1, gj) → e ∈ gj →
        e0 ≤ e ∧ (i < j → ¬ close_to u tol e0 e).
Proof.
  revert done_elements bs. induction fuel as [|fuel IH]; intros dn bs; simpl; [done|].
  destruct (np_where (negb <$> dn)) as [|first rest] eqn:Htodo.
  { intros [= <-]. exists []. split; [done|]. split; [constructor|].
    intros i j e0 gi e1 gj e _ Hi. by rewrite lookup_nil in Hi. }
  intros Hrun. inv_bind Hrun. rename x into dist, x0 into from_idx, x1 into to_idx.
  set (c := fst <$> filter (λ p, flt p.2 tol = true) (zip (first :: rest) dist)) in *.
  apply mapM_Ok in Hx.
  destruct (close_els_spec _ (λ r, flt r tol) _ _ Hx) as [Hcnd Hcin].
  { rewrite <-Htodo. apply NoDup_where_from. }
  fold c in Hcnd, Hcin.
  destruct c as [|c0 c'] eqn:Hc; [done|]. rewrite <-Hc in *.
  inv_bind Hrun. injection Hrun as <-. rename x into bs'.
  edestruct IH as (ges & Hperm & Hall & Hgreedy); [eassumption|].
  assert (∀ e, e ∈ first :: rest → first ≤ e) as Hleast.
  { intros e [->|He]%elem_of_cons; [done|].
    unfold np_where in Htodo.
    pose proof (where_from_head_lt _ _ _ _ Htodo e He). lia. }
  assert (∀ e, e ∈ concat (snd <$> ges) → e ∈ first :: rest ∧ e ∉ c) as Hlater.
  { intros e He. rewrite Hperm in He.
    apply elem_of_np_where in He. rewrite list_lookup_fmap, lookup_mark_done in He.
    destruct (decide (e ∈ c ∧ e < length dn)) as [Hd|Hd]; [done|].
    destruct (dn !! e) as [b|] eqn:Hdn; [|done].
    split.
    - rewrite <-Htodo. apply elem_of_np_where.
      by rewrite list_lookup_fmap, Hdn.
    - intros Hin. apply Hd. split; [done|]. by eapply lookup_lt_Some. }
  exists ((first, c) :: ges). split_and!.
  - simpl. rewrite Hperm, <-Htodo. apply todo_split; [done|].
    intros e He. rewrite Htodo. by apply Hcin.
  - constructor; [|done]. simpl.
    split_and!; try done. intros e He. apply Hcin in He as [_ Hr]. exact Hr.
  - intros [|i] [|j] e0 gi e1 gj e Hij Hi Hj He; simpl in Hi, Hj; [| |lia|].
    + injection Hi as <- <-. injection Hj as <- <-. split; [|lia].
      apply Hleast. by apply Hcin in He as [? _].
    + injection Hi as <- <-.
      assert (e ∈ concat (snd <$> ges)) as Hin.
      { rewrite list_elem_of_In, in_concat. exists gj.
        split; [|by apply list_elem_of_In].
        apply list_elem_of_In, list_elem_of_fmap. exists (e1, gj).
        split; [done|]. by eapply list_elem_of_lookup_2. }
      destruct (Hlater e Hin) as [Htodo' Hnotin].
      split; [by apply Hleast|]. intros _ Hclose. apply Hnotin, Hcin.
      split; [done|exact Hclose].
    + destruct (Hgreedy i j e0 gi e1 gj e) as [Hle Hfar]; try done; [lia|].
      split; [done|]. intros ?. apply Hfar. lia.
Qed.

(** The partitioner is greedy.  Its batches come with templates [e0] and
    position lists [g] that together rearrange [0 .. n-1]; the template of
    a batch is no later than any element of that batch or of a batch after
    it (it is the first element that the earlier batches left), and no
    element of a later batch is within [tol] of the template of an earlier
    one (a batch takes every remaining element that is close to its
    template). *)
Theorem batches_are_greedy (u : T3) (i_src_grp : nat) (tgt src : list Z)
    (tol : F) (bs : list (InterpolationBatch F)) :
  _find_src_unit_nodes_batches u i_src_grp tgt src tol = Ok bs →
  ∃ ges : list (nat * list nat),
    concat (snd <$> ges) ≡ₚ seq 0 (shape3 u).1.2
    ∧ Forall2 (λ ge b, batch_of_positions u i_src_grp tgt src tol ge.1 ge.2 b)
        ges bs
    ∧ ∀ i j e0 gi e1 gj e,
        i ≤ j → ges !! i = Some (e0, gi) → ges !! j = Some (e1, gj) → e ∈ gj →
        e0 ≤ e ∧ (i < j → ¬ close_to u tol e0 e).
Proof.
  unfold _find_src_unit_nodes_batches.
  destruct (shape3 u) as [[d n] m]. case_decide as Hd; [done|].
  intros Hrun. cbn [fst snd].
  destruct (batches_loop_greedy _ _ _ _ _ _ _ _ Hrun) as (ges & Hperm & Hall & Hg).
  rewrite np_where_not_done_initial in Hperm.
  by exists ges.
Qed.
End batches_greedy_facts.

Section batches_greedy_examples.
Import PrimFloat Float64 Examples.

Lemma batches_are_greedy_witness :
  ∃ bs ges,
    _find_src_unit_nodes_batches [[[0; 1]; [1; 0]; [0; 1]]]%float 0
      [10; 11; 12]%Z [20; 21; 22]%Z tol = Ok bs
    ∧ length bs = 2
    ∧ concat (snd <$> ges) ≡ₚ [0; 1; 2]
    ∧ Forall2 (λ ge b, batch_of_positions [[[0; 1]; [1; 0]; [0; 1]]]%float 0
                 [10; 11; 12]%Z [20; 21; 22]%Z tol ge.1 ge.2 b) ges bs
    ∧ ∀ i j e0 gi e1 gj e,
        i ≤ j → ges !! i = Some (e0, gi) → ges !! j = Some (e1, gj) → e ∈ gj →
        e0 ≤ e
        ∧ (i < j → ¬ close_to [[[0; 1]; [1; 0]; [0; 1]]]%float tol e0 e).
Proof.
  destruct (_find_src_unit_nodes_batches [[[0; 1]; [1; 0]; [0; 1]]]%float 0
              [10; 11; 12]%Z [20; 21; 22]%Z tol) as [bs| |] eqn:Hrun;
    [|vm_compute in Hrun; discriminate Hrun..].
  destruct (batches_are_greedy _ _ _ _ _ _ Hrun) as (ges & Hperm & Hall & Hg).
  exists bs, ges. split; [reflexivity|].
  vm_compute in Hrun. injection Hrun as <-.
  split; [reflexivity|]. split; [exact Hperm|]. split; [exact Hall|exact Hg].
Defined.
End batches_greedy_examples.

(** ** Which target elements the two builders reach *)

(** *** Lists of records, up to their order *)

Section record_list_facts.
Context {A : Type}.















End record_list_facts.

(** *** What the claim speaks of *)

Section builder_reach_definitions.
Context {F : Type}.





End builder_reach_definitions.

(** *** The loops, with a record of the faces they work on *)

Section builder_reach_facts.
Context {F : Type} `{Dtype F} `{Linalg F}.









End builder_reach_facts.

(** *** [make_opposite_face_connection] *)

Section opposite_reach_facts.
Context {F : Type} `{Dtype F} `{Linalg F}.






End opposite_reach_facts.

(** *** [make_partition_connection] *)

Section partition_reach_facts.
Context {F : Type} `{Dtype F} `{Linalg F}.







End partition_reach_facts.

Section partition_loops_reach_facts.
Context {F : Type} `{Dtype F} `{Linalg F}.








End partition_loops_reach_facts.

(** *** The claim *)

Section builder_reach_claims.
Context {F : Type} `{Dtype F} `{Linalg F}.



End builder_reach_claims.

Section builder_reach_examples.
Import PrimFloat Float64 Examples.






End builder_reach_examples.
